(** * The statefulset autoscaler: sizing engine, compactor and leader gate

    A shallow embedding of [pkg/scheduler/statefulset/autoscaler.go]
    (package [statefulset]) and the properties of its control loop.

    Conventions of the embedding:
    - an [int32] is a [Z]; every arithmetic operation of the source that can
      overflow is written with its wrap-around ([Int32.add], [Int32.sub],
      [Int32.mul]);
    - a [float64] is a [spec_float] at precision 53 and maximal exponent
      1024, with the division, multiplication and rounding of IEEE 754;
    - a Go result [(T, error)] is a sum [T + error]; a lone [error] is an
      [option error] whose [None] is [nil];
    - the receiver [a *autoscaler] and the calls issued to the collaborators
      are threaded through a state monad [M]; every call to a collaborator
      is recorded in the trace, newest event first, and a collaborator
      answers as a function of the trace so far. *)

From Stdlib Require Import ZArith List Ascii String Bool Lia.
From Stdlib Require Import Floats.SpecFloat.
Import ListNotations.
Local Open Scope Z_scope.

(* ================================================================== *)
(** ** Signed 32-bit integers *)

Module Int32.

Definition min_int : Z := - 2 ^ 31.
Definition max_int : Z := 2 ^ 31 - 1.

Definition in_range (z : Z) : bool := (min_int <=? z) && (z <=? max_int).

(** Two's complement wrap-around of an integer result. *)
Definition wrap (z : Z) : Z := (z + 2 ^ 31) mod 2 ^ 32 - 2 ^ 31.

Definition add (x y : Z) : Z := wrap (x + y).
Definition sub (x y : Z) : Z := wrap (x - y).
Definition mul (x y : Z) : Z := wrap (x * y).

End Int32.

(* ================================================================== *)
(** ** Binary64 floating point, as the sizing arithmetic uses it *)

Module Float64.

Definition prec : Z := 53.
Definition emax : Z := 1024.

Definition float64 : Type := spec_float.

(** [float64(x)] for an [int32] (or [int]) [x]: exact below [2^53]. *)
Definition of_int (z : Z) : float64 := binary_normalize prec emax z 0 false.

Definition div (x y : float64) : float64 := SFdiv prec emax x y.
Definition mul (x y : float64) : float64 := SFmul prec emax x y.

(** [math.Ceil]: the least integer value not below [x]; zeros, infinities
    and NaN are returned as they are, and a negative fraction above [-1]
    gives the negative zero. *)
Definition Ceil (x : float64) : float64 :=
  match x with
  | S754_finite s m e =>
      if 0 <=? e then x
      else
        let n := if s then - (Zpos m / 2 ^ (- e))
                 else - ((- Zpos m) / 2 ^ (- e)) in
        binary_normalize prec emax n 0 s
  | _ => x
  end.

(** The integer part of a finite float (truncation toward zero). *)
Definition trunc (x : float64) : option Z :=
  match x with
  | S754_zero _ => Some 0
  | S754_finite s m e =>
      let t := if 0 <=? e then Zpos m * 2 ^ e else Zpos m / 2 ^ (- e) in
      Some (if s then - t else t)
  | _ => None
  end.

(** [int32(x)]: the truncation of [x] when an [int32] can hold it.  For
    the other floats Go leaves the result to the implementation: [oor]
    is what the platform gives. *)
Definition to_int32 (oor : float64 -> Z) (x : float64) : Z :=
  match trunc x with
  | Some z => if Int32.in_range z then z else oor x
  | None => oor x
  end.

End Float64.

(** The exact ceiling of the quotient of two integers ([b] non-zero). *)
Definition ceil_div (a b : Z) : Z := - ((- a) / b).

(* ================================================================== *)
(** ** Data model *)

Definition error : Type := string.

(** [types.NamespacedName]. *)
Record NamespacedName := {
  Namespace : string;
  Name : string
}.

(** [reconciler.Bucket]: the part of the interface the leader gate uses. *)
Record Bucket := {
  BucketName : string;
  Has : NamespacedName -> bool
}.

(** [scheduler.PredicatePolicy] and [scheduler.PriorityPolicy]. *)
Record PredicatePolicy := { PredName : string }.
Record PriorityPolicy := { PrioName : string; Weight : Z }.

(** [scheduler.SchedulerPolicy]. *)
Record SchedulerPolicyCfg := {
  Predicates : list PredicatePolicy;
  Priorities : list PriorityPolicy
}.

(** Modelled from the spec: [scheduler.SchedulerPolicyType] is declared
    outside this file; the policy kind is one of [MAXFILLUP] and
    [POLICY_BASED], and the source only tests for [MAXFILLUP]. *)
Inductive SchedulerPolicyType := MAXFILLUP | POLICY_BASED.

(** Modelled from the spec: the three policy names the sizing engine
    looks for, constants of package [state]. *)
Definition AvailabilityZonePriority : string := "AvailabilityZonePriority".
Definition AvailabilityNodePriority : string := "AvailabilityNodePriority".
Definition EvenPodSpread : string := "EvenPodSpread".

(** [v1.Pod], reduced to its name. *)
Record Pod := { PodObjName : string }.

(** [duckv1alpha1.Placement] and a [scheduler.VPod] with its placements. *)
Record Placement := {
  PodName : string;
  VReplicas : Z
}.

Record VPod := {
  VPodKey : NamespacedName;
  GetPlacements : list Placement
}.

(** [autoscalingv1.Scale], reduced to [Spec.Replicas]. *)
Record Scale := { Spec_Replicas : Z }.

(** Calls issued to the collaborators and to the clock. *)
Inductive event :=
| EvState
| EvGetScale
| EvUpdateScale (replicas : Z)
| EvNow (t : Z)
| EvListVPods
| EvPodGet (name : string)
| EvEvict (pod : option Pod) (vpod : VPod) (placement : Placement).

(** The trace of a run, newest event first. *)
Definition trace : Type := list event.

(** Modelled from the spec: [st.State] is declared in package [state].
    The snapshot carries the fields the autoscaler reads and the results
    of the methods it calls ([FreeCapacity()], [Free(ordinal)],
    [TotalPending()], [TotalExpectedVReplicas()]). *)
Record State := {
  Replicas : Z;
  LastOrdinal : Z;
  Capacity : Z;
  FreeCap : list Z;
  SchedulablePods : list Z;
  NumZones : Z;
  NumNodes : Z;
  SchedulerPolicy : SchedulerPolicyType;
  SchedPolicy : option SchedulerPolicyCfg;
  PodLister : option (trace -> string -> Pod + error);
  FreeCapacity : Z;
  Free : Z -> Z;
  TotalPending : Z;
  TotalExpectedVReplicas : Z
}.

(** The receiver.  Collaborators answer as functions of the trace;
    [stateAccessor] stands for [a.stateAccessor.State(a.getReserved())].
    Times are counts of nanoseconds. *)
Record autoscaler := {
  statefulSetClient_GetScale : trace -> Scale + error;
  statefulSetClient_UpdateScale : trace -> Scale -> option error;
  statefulSetName : string;
  vpodLister : trace -> list VPod + error;
  stateAccessor : trace -> State + error;
  evictor : trace -> option Pod -> VPod -> Placement -> option error;
  capacity : Z;
  refreshPeriod : Z;
  isLeader : bool;
  lastCompactAttempt : Z
}.

Definition set_isLeader (b : bool) (a : autoscaler) : autoscaler :=
  {| statefulSetClient_GetScale := statefulSetClient_GetScale a;
     statefulSetClient_UpdateScale := statefulSetClient_UpdateScale a;
     statefulSetName := statefulSetName a;
     vpodLister := vpodLister a;
     stateAccessor := stateAccessor a;
     evictor := evictor a;
     capacity := capacity a;
     refreshPeriod := refreshPeriod a;
     isLeader := b;
     lastCompactAttempt := lastCompactAttempt a |}.

Definition set_lastCompactAttempt (t : Z) (a : autoscaler) : autoscaler :=
  {| statefulSetClient_GetScale := statefulSetClient_GetScale a;
     statefulSetClient_UpdateScale := statefulSetClient_UpdateScale a;
     statefulSetName := statefulSetName a;
     vpodLister := vpodLister a;
     stateAccessor := stateAccessor a;
     evictor := evictor a;
     capacity := capacity a;
     refreshPeriod := refreshPeriod a;
     isLeader := isLeader a;
     lastCompactAttempt := t |}.

(** What the process takes from its platform and from package [state]:
    the clock, the decoder of pod names (a pure function), the number of
    further attempts a poll fits in its timeout, and the [int32] a
    conversion yields for a float no [int32] can hold. *)
Record Runtime := {
  time_Now : trace -> Z;
  OrdinalFromPodName : string -> Z;
  pollRetries : trace -> nat;
  int32_out_of_range : Float64.float64 -> Z
}.

(* ================================================================== *)
(** ** The monad of a pass *)

Record world := {
  self : autoscaler;
  log : trace
}.

Definition M (A : Type) : Type := world -> A * world.

Definition ret {A} (x : A) : M A := fun w => (x, w).

Definition bind {A B} (m : M A) (k : A -> M B) : M B :=
  fun w => let (x, w') := m w in k x w'.

Declare Scope pass_scope.
Delimit Scope pass_scope with pass.
Notation "x <- m ;; k" := (bind m (fun x => k))
  (at level 100, m at next level, right associativity) : pass_scope.
Notation "m ;; k" := (bind m (fun _ => k))
  (at level 100, right associativity) : pass_scope.
Local Open Scope pass_scope.

Definition get_self : M autoscaler := fun w => (self w, w).

Definition put_self (a : autoscaler) : M unit :=
  fun w => (tt, {| self := a; log := log w |}).

(** A call to a collaborator: the answer is computed from the trace so
    far, then the call is recorded. *)
Definition call {A} (answer : trace -> A) (ev : A -> event) : M A :=
  fun w => let x := answer (log w) in
           (x, {| self := self w; log := ev x :: log w |}).

Definition run {A} (m : M A) (a : autoscaler) (tr : trace) : A * world :=
  m {| self := a; log := tr |}.

(** The evictor invocations of a trace, oldest first. *)
Definition evictions (tr : trace) : list (option Pod * VPod * Placement) :=
  rev (flat_map (fun ev => match ev with
                           | EvEvict pod vpod pl => [(pod, vpod, pl)]
                           | _ => []
                           end) tr).

(** The values written through [UpdateScale], oldest first. *)
Definition scale_writes (tr : trace) : list Z :=
  rev (flat_map (fun ev => match ev with
                           | EvUpdateScale r => [r]
                           | _ => []
                           end) tr).

Definition get_log : M trace := fun w => (log w, w).

(** [wait.Poll] and [wait.PollImmediate]: the condition runs at least
    once, and again while it answers false and the timeout leaves room for
    [retries] further attempts.  The variables the condition closes over
    are the state [st] it transforms. *)
Fixpoint poll {S : Type} (retries : nat) (condition : S -> M (bool * S)) (st : S)
  : M S :=
  r <- condition st ;;
  if fst r then ret (snd r)
  else match retries with
       | O => ret (snd r)
       | Datatypes.S n => poll n condition (snd r)
       end.

(* ================================================================== *)
(** ** Leader gate *)

Definition ephemeralLeaderElectionObject : NamespacedName :=
  {| Namespace := "knative-eventing"; Name := "autoscaler-ephemeral" |}.

Definition Promote (b : Bucket) : M (option error) :=
  a <- get_self ;;
  (if Has b ephemeralLeaderElectionObject
   then put_self (set_isLeader true a)
   else ret tt) ;;
  ret None.

Definition Demote (b : Bucket) : M unit :=
  a <- get_self ;;
  if Has b ephemeralLeaderElectionObject
  then put_self (set_isLeader false a)
  else ret tt.

(* ================================================================== *)
(** ** Sizing engine *)

Definition contains (preds : list PredicatePolicy) (priors : list PriorityPolicy)
  (name : string) : bool :=
  existsb (fun v => String.eqb (PredName v) name) preds
  || existsb (fun v => String.eqb (PrioName v) name) priors.

Definition minNonZeroInt (a : autoscaler) (slice : list Z) : Z :=
  fold_left (fun min v => if (v <? min) && (0 <? v) then v else min)
            slice (capacity a).

(** [state.SchedPolicy != nil && contains(nil, state.SchedPolicy.Priorities, name)] *)
Definition hasPriority (state : State) (name : string) : bool :=
  match SchedPolicy state with
  | Some p => contains [] (Priorities p) name
  | None => false
  end.

(** [state.SchedPolicy != nil && contains(state.SchedPolicy.Predicates, nil, name)] *)
Definition hasPredicate (state : State) (name : string) : bool :=
  match SchedPolicy state with
  | Some p => contains (Predicates p) [] name
  | None => false
  end.

(** The three statements that set [scaleUpFactor] in [doautoscale]. *)
Definition scaleUpFactorOf (state : State) : Z :=
  let scaleUpFactor := 1 in
  let scaleUpFactor :=
    if hasPriority state AvailabilityZonePriority then NumZones state
    else scaleUpFactor in
  let scaleUpFactor :=
    if hasPriority state AvailabilityNodePriority then NumNodes state
    else scaleUpFactor in
  scaleUpFactor.

(** [math.Ceil(float64(x) / float64(y))] *)
Definition ceilQuot (x y : Z) : Float64.float64 :=
  Float64.Ceil (Float64.div (Float64.of_int x) (Float64.of_int y)).

Section Sizing.

Variable rt : Runtime.

Definition int32 (x : Float64.float64) : Z :=
  Float64.to_int32 (int32_out_of_range rt) x.

(** The divisor of the pending replicas: the branch on [EvenPodSpread]. *)
Definition perPodOf (a : autoscaler) (state : State) : Z :=
  if hasPredicate state EvenPodSpread
     && (0 <? Z.of_nat (List.length (FreeCap state)))
  then minNonZeroInt a (FreeCap state)
  else capacity a.

Definition minNumPodsOf (a : autoscaler) (state : State) (pending : Z) : Z :=
  if hasPredicate state EvenPodSpread
     && (0 <? Z.of_nat (List.length (FreeCap state)))
  then
    let leastNonZeroCapacity := minNonZeroInt a (FreeCap state) in
    int32 (ceilQuot pending leastNonZeroCapacity)
  else int32 (ceilQuot pending (capacity a)).

(** [newreplicas] as it stands before the scale-down gate. *)
Definition sizedReplicas (a : autoscaler) (state : State) (scaleUpFactor : Z) : Z :=
  let newreplicas := Int32.add (LastOrdinal state) 1 in
  match SchedulerPolicy state with
  | MAXFILLUP =>
      int32 (ceilQuot (TotalExpectedVReplicas state) (Capacity state))
  | _ =>
      let pending := TotalPending state in
      let newreplicas :=
        if 0 <? pending then
          let minNumPods := minNumPodsOf a state pending in
          Int32.add newreplicas
            (int32 (Float64.mul (ceilQuot minNumPods scaleUpFactor)
                                (Float64.of_int scaleUpFactor)))
        else newreplicas in
      if newreplicas <=? LastOrdinal state
      then Int32.add (LastOrdinal state) scaleUpFactor
      else newreplicas
  end.

(** "Only scale down if permitted". *)
Definition gatedReplicas (attemptScaleDown : bool) (newreplicas current : Z) : Z :=
  if negb attemptScaleDown && (newreplicas <? current) then current
  else newreplicas.

(** The value of [newreplicas] a pass ends with. *)
Definition newReplicasOf (a : autoscaler) (state : State) (scale : Scale)
  (attemptScaleDown : bool) : Z :=
  gatedReplicas attemptScaleDown
    (sizedReplicas a state (scaleUpFactorOf state)) (Spec_Replicas scale).

(* ================================================================ *)
(** ** Compactor *)

(** The variables [pod] and [err] of [compact], which the condition of
    the pod lookup closes over. *)
Definition locals : Type := (option Pod * option error)%type.

Definition is_nil (err : option error) : bool :=
  match err with None => true | Some _ => false end.

(** The condition polled for a placement's pod. *)
Definition lookupPod (s : State) (name : string) (loc : locals)
  : M (bool * locals) :=
  match PodLister s with
  | Some lister =>
      r <- call (fun tr => lister tr name) (fun _ => EvPodGet name) ;;
      match r with
      | inl pod => ret (true, (Some pod, None))
      | inr err => ret (false, (None, Some err))
      end
  | None => ret (is_nil (snd loc), loc)
  end.

(** The body run for a placement on an ordinal of the window: look the
    pod up, then evict.  [inr err] is the [return err] of [compact]. *)
Definition evictPlacement (s : State) (vpod : VPod) (pl : Placement) (loc : locals)
  : M (locals + error) :=
  a <- get_self ;;
  tr <- get_log ;;
  loc' <- poll (pollRetries rt tr) (lookupPod s (PodName pl)) loc ;;
  r <- call (fun tr => evictor a tr (fst loc') vpod pl)
            (fun _ => EvEvict (fst loc') vpod pl) ;;
  match r with
  | Some err => ret (inr err)
  | None => ret (inl (fst loc', None))
  end.

(** [for j := int32(0); j < scaleUpFactor; j++] *)
Fixpoint forOrdinals (fuel : nat) (s : State) (scaleUpFactor : Z) (vpod : VPod)
  (pl : Placement) (j : Z) (loc : locals) : M (locals + error) :=
  match fuel with
  | O => ret (inl loc)
  | Datatypes.S fuel' =>
      if j <? scaleUpFactor then
        let ordinal := OrdinalFromPodName rt (PodName pl) in
        r <- (if ordinal =? Int32.sub (LastOrdinal s) j
              then evictPlacement s vpod pl loc
              else ret (inl loc)) ;;
        match r with
        | inr err => ret (inr err)
        | inl loc' => forOrdinals fuel' s scaleUpFactor vpod pl (j + 1) loc'
        end
      else ret (inl loc)
  end.

(** [for i := len(placements) - 1; i >= 0; i--], over the reversed list. *)
Fixpoint forPlacements (s : State) (scaleUpFactor : Z) (vpod : VPod)
  (placements : list Placement) (loc : locals) : M (locals + error) :=
  match placements with
  | [] => ret (inl loc)
  | pl :: rest =>
      r <- forOrdinals (Z.to_nat scaleUpFactor) s scaleUpFactor vpod pl 0 loc ;;
      match r with
      | inr err => ret (inr err)
      | inl loc' => forPlacements s scaleUpFactor vpod rest loc'
      end
  end.

(** [for _, vpod := range vpods] *)
Fixpoint forVPods (s : State) (scaleUpFactor : Z) (vpods : list VPod) (loc : locals)
  : M (locals + error) :=
  match vpods with
  | [] => ret (inl loc)
  | vpod :: rest =>
      r <- forPlacements s scaleUpFactor vpod (rev (GetPlacements vpod)) loc ;;
      match r with
      | inr err => ret (inr err)
      | inl loc' => forVPods s scaleUpFactor rest loc'
      end
  end.

Definition compact (s : State) (scaleUpFactor : Z) : M (option error) :=
  a <- get_self ;;
  r <- call (vpodLister a) (fun _ => EvListVPods) ;;
  match r with
  | inr err => ret (Some err)
  | inl vpods =>
      r <- forVPods s scaleUpFactor vpods (None, None) ;;
      match r with
      | inr err => ret (Some err)
      | inl _ => ret None
      end
  end.

(** The loop of the policy-based branch of [mayCompact]:
    [for i := int32(0); i < scaleUpFactor && s.LastOrdinal-i >= 0; i++]. *)
Fixpoint lastXPods (fuel : nat) (s : State) (scaleUpFactor i : Z)
  (freeCapacity usedInLastXPods : Z) : Z * Z :=
  match fuel with
  | O => (freeCapacity, usedInLastXPods)
  | Datatypes.S fuel' =>
      if (i <? scaleUpFactor) && (Int32.sub (LastOrdinal s) i >=? 0) then
        let free := Free s (Int32.sub (LastOrdinal s) i) in
        lastXPods fuel' s scaleUpFactor (i + 1)
                  (Int32.sub freeCapacity free) (Int32.sub usedInLastXPods free)
      else (freeCapacity, usedInLastXPods)
  end.

(** [a.lastCompactAttempt = time.Now(); err := a.compact(s, scaleUpFactor)];
    the error is logged and dropped. *)
Definition attemptCompact (s : State) (scaleUpFactor : Z) : M unit :=
  t <- call (time_Now rt) EvNow ;;
  a <- get_self ;;
  put_self (set_lastCompactAttempt t a) ;;
  _ <- compact s scaleUpFactor ;;
  ret tt.

Definition mayCompact (s : State) (scaleUpFactor : Z) : M unit :=
  a <- get_self ;;
  let nextAttempt := lastCompactAttempt a + refreshPeriod a in
  now <- call (time_Now rt) EvNow ;;
  if now <? nextAttempt then ret tt
  else if (LastOrdinal s <? 1)
          || (Z.of_nat (List.length (SchedulablePods s)) <=? scaleUpFactor)
  then ret tt
  else
    match SchedulerPolicy s with
    | MAXFILLUP =>
        let freeCapacity := Int32.sub (FreeCapacity s) (Free s (LastOrdinal s)) in
        let usedInLastPod := Int32.sub (Capacity s) (Free s (LastOrdinal s)) in
        if freeCapacity >=? usedInLastPod
        then attemptCompact s scaleUpFactor
        else ret tt
    | _ =>
        match SchedPolicy s with
        | Some _ =>
            let '(freeCapacity, usedInLastXPods) :=
              lastXPods (Z.to_nat scaleUpFactor) s scaleUpFactor 0
                        (FreeCapacity s) (Int32.mul (Capacity s) scaleUpFactor) in
            if (freeCapacity >=? usedInLastXPods)
               && (Int32.sub (Replicas s) scaleUpFactor >=? scaleUpFactor)
            then attemptCompact s scaleUpFactor
            else ret tt
        | None => ret tt
        end
    end.

(* ================================================================ *)
(** ** A pass *)

Definition doautoscale (attemptScaleDown : bool) : M (option error) :=
  a <- get_self ;;
  if negb (isLeader a) then ret None
  else
    r <- call (stateAccessor a) (fun _ => EvState) ;;
    match r with
    | inr err => ret (Some err)
    | inl state =>
        r <- call (statefulSetClient_GetScale a) (fun _ => EvGetScale) ;;
        match r with
        | inr err => ret (Some err)
        | inl scale =>
            let scaleUpFactor := scaleUpFactorOf state in
            let newreplicas := newReplicasOf a state scale attemptScaleDown in
            if negb (newreplicas =? Spec_Replicas scale) then
              call (fun tr => statefulSetClient_UpdateScale a tr
                                {| Spec_Replicas := newreplicas |})
                   (fun _ => EvUpdateScale newreplicas)
            else if attemptScaleDown then
              mayCompact state scaleUpFactor ;; ret None
            else ret None
        end
    end.

(** The pass is retried while it fails; the last error is returned. *)
Definition syncAutoscale (attemptScaleDown : bool) : M (option error) :=
  tr <- get_log ;;
  poll (pollRetries rt tr)
       (fun _ : option error =>
          err <- doautoscale attemptScaleDown ;;
          ret (is_nil err, err))
       None.

End Sizing.

(* ================================================================== *)
(** ** Trigger *)

Module Trigger.

(** A buffered channel of [struct{}]: the number of values it holds and
    the number of senders parked on it. *)
Record chan := {
  cap : nat;
  buffered : nat;
  parked : nat
}.

(** [make(chan struct{}, n)] *)
Definition make (n : nat) : chan := {| cap := n; buffered := 0; parked := 0 |}.

Inductive outcome := Returned | Blocked.

(** [ch <- struct{}{}]: the value enters the buffer when there is room;
    otherwise the sending goroutine parks until a receive makes room. *)
Definition send (ch : chan) : outcome * chan :=
  if (buffered ch <? cap ch)%nat
  then (Returned, {| cap := cap ch; buffered := S (buffered ch); parked := parked ch |})
  else (Blocked, {| cap := cap ch; buffered := buffered ch; parked := S (parked ch) |}).

(** [<-ch] when a value is buffered: the value leaves, and the value of
    the first parked sender, if any, enters and that sender returns. *)
Definition recv (ch : chan) : option chan :=
  match buffered ch with
  | O => None
  | S n =>
      match parked ch with
      | O => Some {| cap := cap ch; buffered := n; parked := O |}
      | S p => Some {| cap := cap ch; buffered := S n; parked := p |}
      end
  end.

(** [trigger: make(chan struct{}, 1)] in [newAutoscaler]. *)
Definition newTrigger : chan := make 1.

(** [Autoscale]: [a.trigger <- struct{}{}]. *)
Definition Autoscale (trigger : chan) : outcome * chan := send trigger.

(** [n] calls of [Autoscale] with no receive in between. *)
Fixpoint AutoscaleN (n : nat) (trigger : chan) : chan :=
  match n with
  | O => trigger
  | S n' => AutoscaleN n' (snd (Autoscale trigger))
  end.

(** The wakes of [Start] through [case <-a.trigger], as long as the
    channel gives a value, at most [fuel] of them. *)
Fixpoint wakes (fuel : nat) (trigger : chan) : nat :=
  match fuel with
  | O => O
  | S fuel' =>
      match recv trigger with
      | None => O
      | Some trigger' => S (wakes fuel' trigger')
      end
  end.

End Trigger.

(* ================================================================== *)
(** ** Definitions used by the statements *)

(** *** Rounding, step by step *)

Module Rounding.
Import Float64.

Definition rec0 (m : Z) : shr_record :=
  {| shr_m := m; shr_r := false; shr_s := false |}.

Definition bra : bool -> Z -> Z -> location -> spec_float :=
  binary_round_aux prec emax.

(** The second half of [binary_round_aux]: renormalise after rounding. *)
Definition finish (s : bool) (M1 e1 : Z) : spec_float :=
  let p2 := shr_fexp prec emax M1 e1 loc_Exact in
  match shr_m (fst p2) with
  | Z0 => S754_zero s
  | Zpos m =>
      if snd p2 <=? emax - prec then S754_finite s m (snd p2)
      else S754_infinity s
  | Zneg _ => S754_nan
  end.

Definition digits (p : positive) : Z := Zpos (digits2_pos p).

(** Mantissa and exponent of the normal float equal to [Zpos p]. *)
Definition mant (p : positive) : Z := Zpos p * 2 ^ (53 - digits p).
Definition expo (p : positive) : Z := digits p - 53.

(** An integer as a float, with the sign a zero takes. *)
Definition of_int_signed (z : Z) (s : bool) : float64 :=
  binary_normalize prec emax z 0 s.

End Rounding.

(** *** Policies *)

(** The scheduler policy of the snapshot lists [name] among its priorities. *)
Definition listsPriority (state : State) (name : string) : Prop :=
  exists p, SchedPolicy state = Some p /\ In name (map PrioName (Priorities p)).

(** The scheduler policy of the snapshot lists [name] among its predicates. *)
Definition listsPredicate (state : State) (name : string) : Prop :=
  exists p, SchedPolicy state = Some p /\ In name (map PredName (Predicates p)).

(** The minimum of the strictly positive elements of a list, if any. *)
Definition leastPositive (l : list Z) : option Z :=
  fold_right (fun v acc =>
                if 0 <? v then
                  match acc with Some m => Some (Z.min v m) | None => Some v end
                else acc)
             None l.

(** The divisor as the specification words it: the least strictly positive
    free capacity, or the capacity when there is none. *)
Definition perPodSpec (cap : Z) (freeCap : list Z) : Z :=
  match leastPositive freeCap with
  | Some v => v
  | None => cap
  end.

(** [z] is an [int32]. *)
Definition is_int32 (z : Z) : Prop := Int32.min_int <= z <= Int32.max_int.

(** *** The eviction pass *)

(** The counters [j] of the inner loop at which a placement is evicted. *)
Fixpoint hitsFrom (rt : Runtime) (fuel : nat) (s : State) (scaleUpFactor : Z)
  (pl : Placement) (j : Z) : list Z :=
  match fuel with
  | O => []
  | S fuel' =>
      if j <? scaleUpFactor then
        (if OrdinalFromPodName rt (PodName pl) =? Int32.sub (LastOrdinal s) j
         then [j] else [])
        ++ hitsFrom rt fuel' s scaleUpFactor pl (j + 1)
      else []
  end.

Definition targetsOfPlacement (rt : Runtime) (s : State) (scaleUpFactor : Z)
  (vpod : VPod) (pl : Placement) : list (VPod * Placement) :=
  map (fun _ => (vpod, pl)) (hitsFrom rt (Z.to_nat scaleUpFactor) s scaleUpFactor pl 0).

Definition targetsOfVPod (rt : Runtime) (s : State) (scaleUpFactor : Z)
  (vpod : VPod) (placements : list Placement) : list (VPod * Placement) :=
  flat_map (targetsOfPlacement rt s scaleUpFactor vpod) placements.

(** The placements a complete pass evicts, in the order of the pass. *)
Definition targets (rt : Runtime) (s : State) (scaleUpFactor : Z)
  (vpods : list VPod) : list (VPod * Placement) :=
  flat_map (fun vpod =>
              targetsOfVPod rt s scaleUpFactor vpod (rev (GetPlacements vpod)))
           vpods.

Definition strip (e : option Pod * VPod * Placement) : VPod * Placement :=
  (snd (fst e), snd e).

Definition podOf (e : option Pod * VPod * Placement) : option Pod := fst (fst e).

(** A pod object is nil or the answer of a lookup of [name]. *)
Definition answered (s : State) (name : string) (pod : option Pod) : Prop :=
  match pod with
  | None => True
  | Some p => exists lister tr, PodLister s = Some lister /\ lister tr name = inl p
  end.

(** The variable [pod] of the pass holds nil or the answer of a lookup. *)
Definition okPod (s : State) (pod : option Pod) : Prop :=
  exists name, answered s name pod.

(** Every lookup of [name] by the snapshot's pod lister fails, or the
    snapshot has no pod lister. *)
Definition lookupsFail (s : State) (name : string) : Prop :=
  match PodLister s with
  | None => True
  | Some lister => forall tr, exists err, lister tr name = inr err
  end.

Definition is_pass_event (ev : event) : Prop :=
  match ev with
  | EvPodGet _ | EvEvict _ _ _ => True
  | _ => False
  end.

(** What a stretch of the pass over the targets [tgt] has done, from the
    world [w] to the world [w'] with the outcome [r]. *)
Definition pass_post (s : State) (tgt : list (VPod * Placement))
  (w : world) (r : locals + error) (w' : world) : Prop :=
  self w' = self w /\
  exists new,
    log w' = new ++ log w /\
    Forall is_pass_event new /\
    Forall (fun e => answered s (PodName (snd e)) (podOf e)) (evictions new) /\
    (exists rest, tgt = map strip (evictions new) ++ rest) /\
    match r with
    | inl loc => okPod s (fst loc) /\ map strip (evictions new) = tgt
    | inr err => exists tr pod vpod pl, evictor (self w) tr pod vpod pl = Some err
    end.

(** The ordinal of a placement lies in the window of the last
    [scaleUpFactor] ordinals. *)
Definition inWindow (rt : Runtime) (s : State) (scaleUpFactor : Z) (pl : Placement)
  : Prop :=
  exists j, 0 <= j < scaleUpFactor /\
            OrdinalFromPodName rt (PodName pl) = LastOrdinal s - j.

(** *** Example inputs *)

(** A decoder of pod names for the examples: the decimal number after the
    last dash, [math.MaxInt32] when there is none. *)
Definition digitOf (c : Ascii.ascii) : option Z :=
  let n := Z.of_nat (Ascii.nat_of_ascii c) in
  if (48 <=? n) && (n <=? 57) then Some (n - 48) else None.

Fixpoint decimalSuffix (s : string) (acc : option Z) : option Z :=
  match s with
  | EmptyString => acc
  | String c r =>
      if Ascii.eqb c "-"%char then decimalSuffix r (Some 0)
      else match digitOf c, acc with
           | Some d, Some n => decimalSuffix r (Some (10 * n + d))
           | _, _ => decimalSuffix r None
           end
  end.

Definition ordinalOf (name : string) : Z :=
  match decimalSuffix name None with
  | Some n => n
  | None => Int32.max_int
  end.

(** A platform whose clock advances with the trace and whose conversions
    of out-of-range floats give the least [int32]. *)
Definition exampleRuntime : Runtime :=
  {| time_Now := fun tr => 1000 + Z.of_nat (List.length tr);
     OrdinalFromPodName := ordinalOf;
     pollRetries := fun _ => 2%nat;
     int32_out_of_range := fun _ => Int32.min_int |}.

(** The same platform with a clock that stands at [t]. *)
Definition frozenClock (t : Z) : Runtime :=
  {| time_Now := fun _ => t;
     OrdinalFromPodName := ordinalOf;
     pollRetries := fun _ => 2%nat;
     int32_out_of_range := fun _ => Int32.min_int |}.

Definition zonePriority : PriorityPolicy :=
  {| PrioName := AvailabilityZonePriority; Weight := 1 |}.
Definition nodePriority : PriorityPolicy :=
  {| PrioName := AvailabilityNodePriority; Weight := 1 |}.

Definition exampleState (kind : SchedulerPolicyType)
  (policy : option SchedulerPolicyCfg) (replicas lastOrdinal : Z)
  (freeCap : list Z) (pending expected : Z) : State :=
  {| Replicas := replicas;
     LastOrdinal := lastOrdinal;
     Capacity := 10;
     FreeCap := freeCap;
     SchedulablePods := map Z.of_nat (seq 0 (Z.to_nat replicas));
     NumZones := 3;
     NumNodes := 5;
     SchedulerPolicy := kind;
     SchedPolicy := policy;
     PodLister := None;
     FreeCapacity := fold_right Z.add 0 freeCap;
     Free := fun o => nth (Z.to_nat o) freeCap 10;
     TotalPending := pending;
     TotalExpectedVReplicas := expected |}.

Definition exampleVPod (placements : list Placement) : VPod :=
  {| VPodKey := {| Namespace := "default"; Name := "vpod-a" |};
     GetPlacements := placements |}.

(** An autoscaler whose collaborators answer [state], [replicas] and
    [vpods] and never fail. *)
Definition exampleAutoscaler (state : State) (replicas : Z) (leader : bool)
  (last : Z) (vpods : list VPod) : autoscaler :=
  {| statefulSetClient_GetScale := fun _ => inl {| Spec_Replicas := replicas |};
     statefulSetClient_UpdateScale := fun _ _ => None;
     statefulSetName := "adapter";
     vpodLister := fun _ => inl vpods;
     stateAccessor := fun _ => inl state;
     evictor := fun _ _ _ _ => None;
     capacity := 10;
     refreshPeriod := 100;
     isLeader := leader;
     lastCompactAttempt := last |}.

(** A snapshot whose pod lister fails every lookup. *)
Definition withFailingLister (s : State) : State :=
  {| Replicas := Replicas s;
     LastOrdinal := LastOrdinal s;
     Capacity := Capacity s;
     FreeCap := FreeCap s;
     SchedulablePods := SchedulablePods s;
     NumZones := NumZones s;
     NumNodes := NumNodes s;
     SchedulerPolicy := SchedulerPolicy s;
     SchedPolicy := SchedPolicy s;
     PodLister := Some (fun _ _ => inr "pod not found"%string);
     FreeCapacity := FreeCapacity s;
     Free := Free s;
     TotalPending := TotalPending s;
     TotalExpectedVReplicas := TotalExpectedVReplicas s |}.

(** Four pods under [MAXFILLUP] with the zone priority listed (three
    zones): the last pod holds 5 replicas, the pods below have 6 free. *)
Definition fourPods : State :=
  exampleState MAXFILLUP
    (Some {| Predicates := []; Priorities := [ {| PrioName := AvailabilityZonePriority; Weight := 1 |} ] |})
    4 3 [2; 2; 2; 5] 2 31.

Definition fourPlacements : VPod :=
  exampleVPod [ {| PodName := "adapter-0"; VReplicas := 8 |};
                {| PodName := "adapter-1"; VReplicas := 8 |};
                {| PodName := "adapter-2"; VReplicas := 8 |};
                {| PodName := "adapter-3"; VReplicas := 5 |} ].

(** Two pods under [MAXFILLUP] without a policy: the last pod holds one
    replica and the first has 5 free. *)
Definition twoPods : State := exampleState MAXFILLUP None 2 1 [5; 9] 0 6.

Definition twoPlacements : VPod :=
  exampleVPod [ {| PodName := "adapter-0"; VReplicas := 5 |};
                {| PodName := "adapter-1"; VReplicas := 1 |} ].

(** Both availability priorities, three zones and five nodes. *)
Definition bothPriorities : SchedulerPolicyCfg :=
  {| Predicates := []; Priorities := [zonePriority; nodePriority] |}.

Definition zoneOnly : SchedulerPolicyCfg :=
  {| Predicates := []; Priorities := [zonePriority] |}.

Definition evenSpread : SchedulerPolicyCfg :=
  {| Predicates := [ {| PredName := EvenPodSpread |} ]; Priorities := [] |}.

(* ================================================================== *)
(** ** Construction and the driver loop *)

(** The client of the statefulsets of a namespace, of which the
    autoscaler uses the scale subresource of one statefulset. *)
Record StatefulSetInterface := {
  GetScale : trace -> string -> Scale + error;
  UpdateScale : trace -> string -> Scale -> option error
}.

(** [Config], the fields [newAutoscaler] reads. *)
Record Config := {
  StatefulSetNamespace : string;
  StatefulSetName : string;
  VPodLister : trace -> list VPod + error;
  Evictor : trace -> option Pod -> VPod -> Placement -> option error;
  PodCapacity : Z;
  RefreshPeriod : Z
}.

(** [time.Minute], in nanoseconds. *)
Definition time_Minute : Z := 60000000000.

(** [newAutoscaler]: [kube] stands for
    [kubeclient.Get(ctx).AppsV1().StatefulSets]; the clock is read once,
    and the leader flag starts as the zero [atomic.Bool]. *)
Definition newAutoscaler (rt : Runtime) (kube : string -> StatefulSetInterface)
  (cfg : Config) (stateAccessor : trace -> State + error) (tr : trace)
  : autoscaler * trace :=
  let client := kube (StatefulSetNamespace cfg) in
  let now := time_Now rt tr in
  ({| statefulSetClient_GetScale := fun h => GetScale client h (StatefulSetName cfg);
      statefulSetClient_UpdateScale := fun h => UpdateScale client h (StatefulSetName cfg);
      statefulSetName := StatefulSetName cfg;
      vpodLister := VPodLister cfg;
      stateAccessor := stateAccessor;
      evictor := Evictor cfg;
      capacity := PodCapacity cfg;
      refreshPeriod := RefreshPeriod cfg;
      isLeader := false;
      lastCompactAttempt := now + - RefreshPeriod cfg + - time_Minute |},
   EvNow now :: tr).

(** The case the [select] of [Start] takes at a wake. *)
Inductive wake := CtxDone | TimerFired | TriggerFired.

(** [Start] over the cases its [select] takes, in order; the loop is
    still waiting when the list is exhausted. *)
Fixpoint Start (rt : Runtime) (wakes : list wake) : M unit :=
  match wakes with
  | [] => ret tt
  | CtxDone :: _ => ret tt
  | TimerFired :: rest =>
      let attemptScaleDown := true in
      bind (syncAutoscale rt attemptScaleDown) (fun _ => Start rt rest)
  | TriggerFired :: rest =>
      let attemptScaleDown := false in
      bind (syncAutoscale rt attemptScaleDown) (fun _ => Start rt rest)
  end.

(** *** Definitions used by the further statements *)

(** The ordinal of a placement is one of the last [scaleUpFactor]. *)
Definition inWindowb (rt : Runtime) (s : State) (scaleUpFactor : Z) (pl : Placement)
  : bool :=
  let ordinal := OrdinalFromPodName rt (PodName pl) in
  (LastOrdinal s - scaleUpFactor <? ordinal) && (ordinal <=? LastOrdinal s).

(** The placements of the window, vpod by vpod, each vpod from its last
    placement to its first. *)
Definition windowTargets (rt : Runtime) (s : State) (scaleUpFactor : Z)
  (vpods : list VPod) : list (VPod * Placement) :=
  flat_map (fun vpod =>
              map (pair vpod)
                  (filter (inWindowb rt s scaleUpFactor) (rev (GetPlacements vpod))))
           vpods.

Definition is_wake_by_trigger (k : wake) : Prop :=
  match k with
  | TimerFired => False
  | _ => True
  end.

(** The events of a pass that writes nothing and evicts nothing. *)
Definition is_read_event (ev : event) : Prop :=
  match ev with
  | EvState | EvGetScale => True
  | _ => False
  end.

(** The events of a pass woken by the trigger. *)
Definition is_trigger_event (ev : event) : Prop :=
  match ev with
  | EvState | EvGetScale | EvUpdateScale _ => True
  | _ => False
  end.


(** A statefulset client and a configuration for the examples. *)
Definition exampleKube (replicas : Z) (ns : string) : StatefulSetInterface :=
  {| GetScale := fun _ _ => inl {| Spec_Replicas := replicas |};
     UpdateScale := fun _ _ _ => None |}.

Definition exampleConfig (vpods : list VPod) : Config :=
  {| StatefulSetNamespace := "knative-eventing";
     StatefulSetName := "adapter";
     VPodLister := fun _ => inl vpods;
     Evictor := fun _ _ _ _ => None;
     PodCapacity := 10;
     RefreshPeriod := 100 |}.

Definition emptyBucket : Bucket := {| BucketName := "bucket-1"; Has := fun _ => false |}.

(** A snapshot whose pod lister finds every pod. *)
Definition withFindingLister (s : State) : State :=
  {| Replicas := Replicas s;
     LastOrdinal := LastOrdinal s;
     Capacity := Capacity s;
     FreeCap := FreeCap s;
     SchedulablePods := SchedulablePods s;
     NumZones := NumZones s;
     NumNodes := NumNodes s;
     SchedulerPolicy := SchedulerPolicy s;
     SchedPolicy := SchedPolicy s;
     PodLister := Some (fun _ name => inl {| PodObjName := name |});
     FreeCapacity := FreeCapacity s;
     Free := Free s;
     TotalPending := TotalPending s;
     TotalExpectedVReplicas := TotalExpectedVReplicas s |}.

(** An autoscaler like [exampleAutoscaler] whose evictor always fails. *)
Definition withFailingEvictor (a : autoscaler) : autoscaler :=
  {| statefulSetClient_GetScale := statefulSetClient_GetScale a;
     statefulSetClient_UpdateScale := statefulSetClient_UpdateScale a;
     statefulSetName := statefulSetName a;
     vpodLister := vpodLister a;
     stateAccessor := stateAccessor a;
     evictor := fun _ _ _ _ => Some "eviction refused"%string;
     capacity := capacity a;
     refreshPeriod := refreshPeriod a;
     isLeader := isLeader a;
     lastCompactAttempt := lastCompactAttempt a |}.

(** The pod names looked up in a trace, oldest first. *)
Definition lookups (tr : trace) : list string :=
  rev (flat_map (fun ev => match ev with
                           | EvPodGet name => [name]
                           | _ => []
                           end) tr).

(** A stretch of the pass that ends with an error ends with the eviction
    that the evictor refused with that error. *)
Definition fails_last (w : world) (r : locals + error) (w' : world) : Prop :=
  self w' = self w /\
  forall err, r = inr err ->
              exists pod vpod pl tl,
                log w' = EvEvict pod vpod pl :: tl /\
                evictor (self w) tl pod vpod pl = Some err.

(** A stretch of the pass looks up each placement it evicts once, and
    hands to the evictor a pod that [lister] answered for its name. *)
Definition finds_pods (lister : trace -> string -> Pod + error)
  (w : world) (r : locals + error) (w' : world) : Prop :=
  exists new,
    log w' = new ++ log w /\
    lookups new = map (fun e => PodName (snd e)) (evictions new) /\
    Forall (fun e => exists p tr,
                podOf e = Some p /\ lister tr (PodName (snd e)) = inl p)
           (evictions new).

(** The events of the compactor: clock readings and the calls of a pass. *)
Definition is_compaction_event (ev : event) : Prop :=
  match ev with
  | EvNow _ | EvListVPods | EvPodGet _ | EvEvict _ _ _ => True
  | _ => False
  end.

(** An autoscaler like [a] whose scale client refuses every update. *)
Definition withFailingUpdate (a : autoscaler) : autoscaler :=
  {| statefulSetClient_GetScale := statefulSetClient_GetScale a;
     statefulSetClient_UpdateScale := fun _ _ => Some "conflict"%string;
     statefulSetName := statefulSetName a;
     vpodLister := vpodLister a;
     stateAccessor := stateAccessor a;
     evictor := evictor a;
     capacity := capacity a;
     refreshPeriod := refreshPeriod a;
     isLeader := isLeader a;
     lastCompactAttempt := lastCompactAttempt a |}.

(** Six pods under [POLICY_BASED] with the zone priority (three zones):
    the last three pods hold 3 replicas each, the first three have 10
    free each. *)
Definition sixPods : State :=
  exampleState POLICY_BASED (Some zoneOnly) 6 5 [10; 10; 10; 7; 7; 7] 0 9.

Definition sixPlacements : VPod :=
  exampleVPod [ {| PodName := "adapter-3"; VReplicas := 3 |};
                {| PodName := "adapter-4"; VReplicas := 3 |};
                {| PodName := "adapter-5"; VReplicas := 3 |} ].

(* ================================================================== *)
(** ** The broker ingress handler

    A shallow embedding of [pkg/broker/ingress/ingress_handler.go].  The
    response writer, the stats reporter, the broker lister and the
    dispatch are recorded in a trace, newest event first; the functions
    of the CloudEvents SDK and of the other packages the handler calls
    are the fields of [Library].  Logging, tracing spans and the deferred
    [Finish] and [Close] calls are left out. *)

Module Ingress.

(** [noDuration] signals that the dispatch step has not started. *)
Definition noDuration : Z := - 1.

(** The status codes of [net/http] the handler uses. *)
Definition StatusOK : Z := 200.
Definition StatusBadRequest : Z := 400.
Definition StatusNotFound : Z := 404.
Definition StatusMethodNotAllowed : Z := 405.
Definition StatusInternalServerError : Z := 500.

Definition MethodOptions : string := "OPTIONS".
Definition MethodPost : string := "POST".

Definition slash : ascii := "/"%char.

(** [strings.TrimSuffix(s, "/")]: [s] without one trailing slash. *)
Fixpoint TrimSuffix_slash (s : string) : string :=
  match s with
  | EmptyString => EmptyString
  | String c r =>
      match r with
      | EmptyString => if Ascii.eqb c slash then EmptyString else s
      | String _ _ => String c (TrimSuffix_slash r)
      end
  end.

(** [strings.Split(s, "/")]: the stretches of [s] between its slashes,
    one more than it has slashes. *)
Fixpoint Split_slash (s : string) : list string :=
  match s with
  | EmptyString => [EmptyString]
  | String c r =>
      if Ascii.eqb c slash then EmptyString :: Split_slash r
      else match Split_slash r with
           | field :: fields => String c field :: fields
           | [] => [String c EmptyString]
           end
  end.

(** [http.Request], the fields the handler reads. *)
Record Request := {
  Method : string;
  RequestURI : string;
  Header : list (string * string);
  Body : string
}.

(** [apis.URL] and [duckv1.Addressable]. *)
Record URL := {
  Scheme : string;
  Host : string;
  Path : string
}.

Record Addressable := {
  AddrURL : URL;
  AddrCACerts : option string
}.

(** [eventingv1.Broker], the fields the handler reads:
    [Status.Annotations], a map that may be nil, and [Status.Address],
    which the handler reads through ([Status.Address.CACerts]) without a
    check: it is kept as a pointer that may be nil, so that the read can
    fail. *)
Record Broker := {
  Annotations : option (string -> option string);
  Address : option Addressable
}.

(** [ReportArgs]. *)
Record ReportArgs := {
  ns : string;
  broker : string;
  eventType : string
}.

(** The calls of one request. *)
Inductive event :=
| SetHeader (key value : string)
| WriteHeader (statusCode : Z)
| BrokerGet (namespace name : string)
| Send (target : Addressable)
| ReportEventDispatchTime (args : ReportArgs) (statusCode dispatchTime : Z)
| ReportEventCount (args : ReportArgs) (statusCode : Z).

Definition trace : Type := list event.

(** A call returns, or the goroutine panics. *)
Inductive result (A : Type) :=
| Done (x : A) (tr : trace)
| Panic (tr : trace).

Arguments Done {A} x tr.
Arguments Panic {A} tr.

Section Handler.

(** [cloudevents.Event]. *)
Variable Event : Type.

(** The functions of other packages the handler calls:
    [binding.ToEvent] on the message of the request, [event.Validate],
    [event.Type], [event.SetExtension] of the arrival time,
    [broker.GetTTL], [apis.ParseURL], [network.GetClusterDomainName],
    [kncloudevents.NewCloudEventRequest],
    [kncloudevents.WriteRequestWithAdditionalHeaders], the [Send] of the
    request with the time it took, the clock, and the key
    [eventing.BrokerChannelAddressStatusAnnotationKey].  [WriteRequest]
    is given the headers of the request and applies
    [utils.PassThroughHeaders] to them. *)
Record Library := {
  ToEvent : Request -> Event + error;
  Validate : Event -> option error;
  EventType : Event -> string;
  SetArrivalTime : Event -> Z -> Event;
  GetTTL : Event -> Z + error;
  ParseURL : string -> URL + error;
  GetClusterDomainName : string;
  NewCloudEventRequest : Addressable -> option error;
  WriteRequest : Event -> Addressable -> list (string * string) -> option error;
  SendRequest : trace -> Event -> Addressable -> (Z + error) * Z;
  Now : trace -> Z;
  BrokerChannelAddressStatusAnnotationKey : string
}.

(** [Handler]: the defaulter, which may be nil, and the broker lister;
    the calls of the reporter are recorded, their errors are dropped. *)
Record Handler := {
  Defaulter : option (Event -> Event);
  BrokerLister : trace -> string -> string -> Broker + error
}.

Variable lib : Library.

Definition getBroker (h : Handler) (name namespace : string) (tr : trace)
  : (Broker + error) * trace :=
  (BrokerLister h tr namespace name, BrokerGet namespace name :: tr).

Definition guessChannelAddress (h : Handler) (name namespace domain : string)
  (tr : trace) : result (Addressable + error) :=
  match getBroker h name namespace tr with
  | (inr err, tr') => Done (inr err) tr'
  | (inl b, tr') =>
      match Address b with
      | None => Panic tr'
      | Some address =>
          Done (inl {| AddrURL :=
                         {| Scheme := "http";
                            Host := name ++ "-kne-trigger-kn-channel." ++ namespace
                                    ++ ".svc." ++ domain;
                            Path := "/" |};
                       AddrCACerts := AddrCACerts address |})
               tr'
      end
  end.

Definition getChannelAddress (h : Handler) (name namespace : string) (tr : trace)
  : result (Addressable + error) :=
  match getBroker h name namespace tr with
  | (inr err, tr') => Done (inr err) tr'
  | (inl b, tr') =>
      match Annotations b with
      | None => Done (inr "broker status annotations uninitialized"%string) tr'
      | Some annotations =>
          match annotations (BrokerChannelAddressStatusAnnotationKey lib) with
          | None =>
              Done (inr "channel address not found in broker status annotations"%string)
                   tr'
          | Some address =>
              match ParseURL lib address with
              | inr _ => Done (inr "failed to parse channel address url"%string) tr'
              | inl url =>
                  match Address b with
                  | None => Panic tr'
                  | Some brokerAddress =>
                      Done (inl {| AddrURL := url;
                                   AddrCACerts := AddrCACerts brokerAddress |})
                           tr'
                  end
              end
          end
      end
  end.

(** [send], with [sendAndRecordDispatchTime] inlined as the one call of
    [SendRequest]. *)
Definition send (h : Handler) (headers : list (string * string)) (ev : Event)
  (target : Addressable) (tr : trace) : result (Z * Z) :=
  match NewCloudEventRequest lib target with
  | Some _ => Done (StatusInternalServerError, noDuration) tr
  | None =>
      match WriteRequest lib ev target headers with
      | Some _ => Done (StatusInternalServerError, noDuration) tr
      | None =>
          let '(resp, dispatchTime) := SendRequest lib tr ev target in
          match resp with
          | inr _ => Done (StatusInternalServerError, dispatchTime) (Send target :: tr)
          | inl statusCode => Done (statusCode, dispatchTime) (Send target :: tr)
          end
      end
  end.

Definition receive (h : Handler) (headers : list (string * string)) (ev : Event)
  (brokerNamespace brokerName : string) (tr : trace) : result (Z * Z) :=
  let ev := SetArrivalTime lib ev (Now lib tr) in
  let ev := match Defaulter h with
            | Some defaulter => defaulter ev
            | None => ev
            end in
  match GetTTL lib ev with
  | inr _ => Done (StatusBadRequest, noDuration) tr
  | inl ttl =>
      if ttl <=? 0 then Done (StatusBadRequest, noDuration) tr
      else
        match getChannelAddress h brokerName brokerNamespace tr with
        | Panic tr1 => Panic tr1
        | Done (inl channelAddress) tr1 => send h headers ev channelAddress tr1
        | Done (inr _) tr1 =>
            match guessChannelAddress h brokerName brokerNamespace
                                      (GetClusterDomainName lib) tr1 with
            | Panic tr2 => Panic tr2
            | Done (inl channelAddress) tr2 => send h headers ev channelAddress tr2
            | Done (inr _) tr2 => Panic tr2
            end
        end
  end.

Definition ServeHTTP (h : Handler) (request : Request) (tr : trace) : result unit :=
  let tr := SetHeader "Allow" "POST, OPTIONS" :: tr in
  if String.eqb (Method request) MethodOptions then
    Done tt (WriteHeader StatusOK
             :: SetHeader "WebHook-Allowed-Rate" "*"
             :: SetHeader "WebHook-Allowed-Origin" "*" :: tr)
  else if negb (String.eqb (Method request) MethodPost) then
    Done tt (WriteHeader StatusMethodNotAllowed :: tr)
  else if String.eqb (RequestURI request) "/" then
    Done tt (WriteHeader StatusNotFound :: tr)
  else
    let nsBrokerName := Split_slash (TrimSuffix_slash (RequestURI request)) in
    if negb (Nat.eqb (List.length nsBrokerName) 3) then
      Done tt (WriteHeader StatusBadRequest :: tr)
    else
      match ToEvent lib request with
      | inr _ => Done tt (WriteHeader StatusBadRequest :: tr)
      | inl ev =>
          match Validate lib ev with
          | Some _ => Done tt (WriteHeader StatusBadRequest :: tr)
          | None =>
              let brokerNamespace := nth 1 nsBrokerName EmptyString in
              let brokerName := nth 2 nsBrokerName EmptyString in
              let reporterArgs := {| ns := brokerNamespace;
                                     broker := brokerName;
                                     eventType := EventType lib ev |} in
              match receive h (Header request) ev brokerNamespace brokerName tr with
              | Panic tr' => Panic tr'
              | Done (statusCode, dispatchTime) tr' =>
                  let tr' := if dispatchTime >? noDuration
                             then ReportEventDispatchTime reporterArgs statusCode
                                                          dispatchTime :: tr'
                             else tr' in
                  Done tt (WriteHeader statusCode
                           :: ReportEventCount reporterArgs statusCode :: tr')
              end
          end
      end.

End Handler.

Arguments ToEvent {Event} _ _.
Arguments Validate {Event} _ _.
Arguments EventType {Event} _ _.
Arguments SetArrivalTime {Event} _ _ _.
Arguments GetTTL {Event} _ _.
Arguments ParseURL {Event} _ _.
Arguments GetClusterDomainName {Event} _.
Arguments NewCloudEventRequest {Event} _ _.
Arguments WriteRequest {Event} _ _ _ _.
Arguments SendRequest {Event} _ _ _ _.
Arguments Now {Event} _ _.
Arguments BrokerChannelAddressStatusAnnotationKey {Event} _.
Arguments Defaulter {Event} _.
Arguments BrokerLister {Event} _ _ _ _.
Arguments getBroker {Event} h name namespace tr.
Arguments guessChannelAddress {Event} h name namespace domain tr.
Arguments getChannelAddress {Event} lib h name namespace tr.
Arguments send {Event} lib h headers ev target tr.
Arguments receive {Event} lib h headers ev brokerNamespace brokerName tr.
Arguments ServeHTTP {Event} lib h request tr.

(** *** Definitions used by the statements *)

(** The first call of every request. *)
Definition allow : event := SetHeader "Allow" "POST, OPTIONS".

(** The event [receive] works on: stamped with its arrival time, then
    defaulted. *)
Definition stamped {Event} (lib : Library Event) (h : Handler Event) (ev : Event)
  (tr : trace) : Event :=
  let ev := SetArrivalTime lib ev (Now lib tr) in
  match Defaulter h with
  | Some defaulter => defaulter ev
  | None => ev
  end.

(** [broker.GetTTL] fails on the event, or its TTL is used up. *)
Definition spent {Event} (lib : Library Event) (ev : Event) : bool :=
  match GetTTL lib ev with
  | inr _ => true
  | inl ttl => ttl <=? 0
  end.

(** What [ServeHTTP] does with the result of [receive]: the reports,
    then the status. *)
Definition reported (args : ReportArgs) (r : result (Z * Z)) : result unit :=
  match r with
  | Panic tr' => Panic tr'
  | Done (statusCode, dispatchTime) tr' =>
      Done tt (WriteHeader statusCode
               :: ReportEventCount args statusCode
               :: (if dispatchTime >? noDuration
                   then ReportEventDispatchTime args statusCode dispatchTime :: tr'
                   else tr'))
  end.

(** A call [receive] makes: a lookup of the broker, or the dispatch. *)
Definition is_receive_event (namespace name : string) (e : event) : Prop :=
  e = BrokerGet namespace name \/ exists target, e = Send target.

(** The address [guessChannelAddress] makes up. *)
Definition guessed (name namespace domain : string) (cacerts : option string)
  : Addressable :=
  {| AddrURL := {| Scheme := "http";
                   Host := name ++ "-kne-trigger-kn-channel." ++ namespace
                           ++ ".svc." ++ domain;
                   Path := "/" |};
     AddrCACerts := cacerts |}.

(** [s] holds no slash. *)
Fixpoint noSlash (s : string) : bool :=
  match s with
  | EmptyString => true
  | String c r => negb (Ascii.eqb c slash) && noSlash r
  end.

(** The status codes written to the response in a trace, oldest first. *)
Definition statusWritten (tr : trace) : list Z :=
  rev (flat_map (fun e => match e with
                          | WriteHeader c => [c]
                          | _ => []
                          end) tr).

(** The trace of a result. *)
Definition traceOf {A} (r : result A) : trace :=
  match r with
  | Done _ tr => tr
  | Panic tr => tr
  end.

(** *** Example inputs: events are their TTL. *)

Definition exampleLibrary : Library Z :=
  {| ToEvent := fun request => if String.eqb (Body request) ""
                               then inr "empty body"%string
                               else inl 5;
     Validate := fun _ => None;
     EventType := fun _ => "dev.knative.example"%string;
     SetArrivalTime := fun ev _ => ev;
     GetTTL := fun ev => inl ev;
     ParseURL := fun address => inl {| Scheme := "http"; Host := address; Path := "/" |};
     GetClusterDomainName := "cluster.local";
     NewCloudEventRequest := fun _ => None;
     WriteRequest := fun _ _ _ => None;
     SendRequest := fun _ _ _ => (inl 202, 7);
     Now := fun _ => 0;
     BrokerChannelAddressStatusAnnotationKey := "knative.dev/channelAddress" |}.

(** A broker with its address and without annotations. *)
Definition bareBroker : Broker :=
  {| Annotations := None;
     Address := Some {| AddrURL := {| Scheme := "http";
                                      Host := "broker-ingress.knative-eventing.svc.cluster.local";
                                      Path := "/default/broker" |};
                        AddrCACerts := None |} |}.

(** A lister that knows no broker, and one that knows every broker,
    without annotations. *)
Definition noBrokers : Handler Z :=
  {| Defaulter := None;
     BrokerLister := fun _ _ _ => inr "broker not found"%string |}.

Definition bareBrokers : Handler Z :=
  {| Defaulter := None;
     BrokerLister := fun _ _ _ => inl bareBroker |}.

(** A defaulter that exhausts the TTL. *)
Definition expiring : Handler Z :=
  {| Defaulter := Some (fun _ => 0);
     BrokerLister := fun _ _ _ => inl bareBroker |}.

Definition post (uri : string) : Request :=
  {| Method := "POST"; RequestURI := uri; Header := []; Body := "{}" |}.

End Ingress.

(* ================================================================== *)
(** ** The sizing arithmetic is exact

    The quotient of two [int32] is rounded to a [float64] that lies
    strictly between the same two integers as the exact quotient, and the
    products of the sizing engine are below [2^53]: the ceilings computed
    in floating point are the exact ones. *)

Module Float64Facts.
Import Float64 Rounding.

Lemma digits2_pos_bounds (p : positive) :
  2 ^ (Zpos (digits2_pos p) - 1) <= Zpos p < 2 ^ Zpos (digits2_pos p).
Proof.
  induction p as [p IH | p IH |]; cbn [digits2_pos].
  - rewrite Pos2Z.inj_succ.
    replace (Z.succ (Zpos (digits2_pos p)) - 1) with (Z.succ (Zpos (digits2_pos p) - 1)) by lia.
    rewrite !Z.pow_succ_r by lia. lia.
  - rewrite Pos2Z.inj_succ.
    replace (Z.succ (Zpos (digits2_pos p)) - 1) with (Z.succ (Zpos (digits2_pos p) - 1)) by lia.
    rewrite !Z.pow_succ_r by lia. lia.
  - cbn. lia.
Qed.

Lemma digits2_pos_unique (p : positive) (d : Z) :
  2 ^ (d - 1) <= Zpos p < 2 ^ d -> Zpos (digits2_pos p) = d.
Proof.
  intros [Hlo Hhi].
  pose proof (digits2_pos_bounds p) as [Blo Bhi].
  assert (Hd : 0 < d).
  { destruct (Z_lt_le_dec 0 d) as [|Hn]; [assumption|].
    exfalso. destruct (Z.eq_dec d 0) as [->|].
    - cbn in Hhi. lia.
    - rewrite Z.pow_neg_r in Hhi by lia. lia. }
  destruct (Z_lt_le_dec (Zpos (digits2_pos p)) d) as [Hlt|Hge].
  - assert (2 ^ Zpos (digits2_pos p) <= 2 ^ (d - 1)) by (apply Z.pow_le_mono_r; lia). lia.
  - destruct (Z.eq_dec (Zpos (digits2_pos p)) d) as [|Hne]; [assumption|].
    assert (2 ^ d <= 2 ^ (Zpos (digits2_pos p) - 1)) by (apply Z.pow_le_mono_r; lia). lia.
Qed.

Lemma iter_xO_shift (k p : positive) :
  Zpos (Pos.iter xO p k) = Zpos p * 2 ^ Zpos k.
Proof.
  revert p. induction k as [|k IH] using Pos.peano_ind; intros p.
  - cbn. lia.
  - rewrite Pos.iter_succ, Pos2Z.inj_succ, Z.pow_succ_r by lia.
    rewrite Pos2Z.inj_xO, IH. lia.
Qed.

Lemma shr_1_double (m : Z) : 0 <= m -> shr_1 (rec0 (2 * m)) = rec0 m.
Proof. intros H. destruct m as [|p|p]; [reflexivity|reflexivity|lia]. Qed.

Lemma iter_shr_exact (t : positive) :
  forall m, 0 <= m -> iter_pos shr_1 t (rec0 (m * 2 ^ Zpos t)) = rec0 m.
Proof.
  induction t as [t IH | t IH |]; intros m Hm; cbn [iter_pos].
  - replace (m * 2 ^ Zpos t~1) with (2 * ((m * 2 ^ Zpos t) * 2 ^ Zpos t)).
    2:{ assert (E : Zpos t~1 = Zpos t + Zpos t + 1) by lia.
         rewrite E, !Z.pow_add_r by lia. change (2 ^ 1) with 2. ring. }
    rewrite shr_1_double by (apply Z.mul_nonneg_nonneg; [apply Z.mul_nonneg_nonneg|]; lia).
    rewrite IH by (apply Z.mul_nonneg_nonneg; lia). apply IH; lia.
  - replace (m * 2 ^ Zpos t~0) with ((m * 2 ^ Zpos t) * 2 ^ Zpos t).
    2:{ assert (E : Zpos t~0 = Zpos t + Zpos t) by lia.
         rewrite E, Z.pow_add_r by lia. ring. }
    rewrite IH by (apply Z.mul_nonneg_nonneg; lia). apply IH; lia.
  - replace (m * 2 ^ 1) with (2 * m) by lia. apply shr_1_double; lia.
Qed.

Lemma bra_unfold s mx ex lx :
  bra s mx ex lx =
  let p1 := shr_fexp prec emax mx ex lx in
  finish s (round_nearest_even (shr_m (fst p1)) (loc_of_shr_record (fst p1))) (snd p1).
Proof.
  unfold bra, binary_round_aux, finish.
  destruct (shr_fexp prec emax mx ex lx) as [mrs' e']. cbn [fst snd].
  destruct (shr_fexp prec emax _ e' loc_Exact) as [mrs'' e'']. reflexivity.
Qed.

Lemma shr_fexp_shift (p : positive) (e : Z) (l : location) :
  - 1074 <= Zpos (digits2_pos p) + e - 53 ->
  shr_fexp prec emax (Zpos p) e l =
  shr (shr_record_of_loc (Zpos p) l) e (Zpos (digits2_pos p) - 53).
Proof.
  intros H. unfold shr_fexp, fexp, emin, prec, emax. cbn [Zdigits2].
  rewrite Z.max_l by lia. f_equal. lia.
Qed.

Lemma finish_normal s (M1 e1 : Z) :
  2 ^ 52 <= M1 < 2 ^ 53 -> - 1074 <= e1 <= 971 ->
  finish s M1 e1 = S754_finite s (Z.to_pos M1) e1.
Proof.
  intros HM He. destruct M1 as [|p|p]; try lia.
  unfold finish. rewrite shr_fexp_shift.
  - rewrite (digits2_pos_unique p 53) by (cbn; lia). change (53 - 53) with 0.
    cbn [shr fst snd shr_record_of_loc shr_m].
    unfold emax, prec. destruct (Z.leb_spec e1 (1024 - 53)); [reflexivity|lia].
  - rewrite (digits2_pos_unique p 53) by (cbn; lia). lia.
Qed.

Lemma finish_carry s (e1 : Z) :
  - 1074 <= e1 <= 970 ->
  finish s (2 ^ 53) e1 = S754_finite s (Z.to_pos (2 ^ 52)) (e1 + 1).
Proof.
  intros He. unfold finish.
  assert (D : Zpos (digits2_pos (Z.to_pos (2 ^ 53))) = 54) by (vm_compute; reflexivity).
  change (2 ^ 53) with (Zpos (Z.to_pos (2 ^ 53))).
  rewrite shr_fexp_shift by (rewrite D; lia). rewrite D. change (54 - 53) with 1.
  cbn [shr iter_pos shr_record_of_loc fst snd].
  change (shr_1 _) with (rec0 (2 ^ 52)). cbn [rec0 shr_m].
  change (2 ^ 52) with (Zpos (Z.to_pos (2 ^ 52))) at 1.
  unfold emax, prec. destruct (Z.leb_spec (e1 + 1) (1024 - 53)); [reflexivity|lia].
Qed.

Lemma finish_spec s (M1 e1 : Z) :
  2 ^ 52 <= M1 <= 2 ^ 53 -> - 1074 <= e1 <= 970 ->
  exists M E, finish s M1 e1 = S754_finite s M E /\ e1 <= E <= e1 + 1 /\
              Zpos M * 2 ^ (E - e1) = M1.
Proof.
  intros HM He. destruct (Z.eq_dec M1 (2 ^ 53)) as [->|Hne].
  - exists (Z.to_pos (2 ^ 52)), (e1 + 1). rewrite finish_carry by lia.
    split; [reflexivity|]. split; [lia|].
    replace (e1 + 1 - e1) with 1 by lia. reflexivity.
  - exists (Z.to_pos M1), e1. rewrite finish_normal by lia.
    split; [reflexivity|]. split; [lia|].
    rewrite Z.sub_diag, Z2Pos.id by lia. cbn. lia.
Qed.

(** Rounding an exactly representable product or integer. *)
Lemma bra_exact s (m : Z) (t e : Z) :
  2 ^ 52 <= m < 2 ^ 53 -> 0 <= t -> - 1074 <= e + t <= 971 ->
  bra s (m * 2 ^ t) e loc_Exact = S754_finite s (Z.to_pos m) (e + t).
Proof.
  intros Hm Ht He.
  assert (Hpos : 0 < m * 2 ^ t) by (apply Z.mul_pos_pos; [lia|apply Z.pow_pos_nonneg; lia]).
  destruct (m * 2 ^ t) as [|p|p] eqn:EP; try lia.
  assert (Hd : Zpos (digits2_pos p) = 53 + t).
  { apply digits2_pos_unique. rewrite <- EP.
    replace (53 + t - 1) with (52 + t) by lia.
    rewrite !Z.pow_add_r by lia.
    pose proof (Z.pow_pos_nonneg 2 t ltac:(lia) Ht). nia. }
  rewrite bra_unfold, shr_fexp_shift by lia. rewrite Hd.
  replace (53 + t - 53) with t by lia.
  destruct t as [|t|t]; try lia.
  - cbn [shr shr_record_of_loc fst snd shr_m loc_of_shr_record round_nearest_even].
    rewrite Z.pow_0_r, Z.mul_1_r in EP. rewrite <- EP, Z.add_0_r.
    apply finish_normal; lia.
  - cbn [shr shr_record_of_loc fst snd]. rewrite <- EP.
    change {| shr_m := m * 2 ^ Zpos t; shr_r := false; shr_s := false |} with (rec0 (m * 2 ^ Zpos t)).
    rewrite iter_shr_exact by lia. cbn [rec0 shr_m loc_of_shr_record round_nearest_even].
    apply finish_normal; lia.
Qed.

Lemma rne_bounds (m : Z) (l : location) :
  m <= round_nearest_even m l <= m + 1.
Proof. destruct l as [|[]]; cbn [round_nearest_even]; try destruct (Z.even m); lia. Qed.

Lemma loc_of_record_of_loc m l : loc_of_shr_record (shr_record_of_loc m l) = l.
Proof. destruct l as [|[]]; reflexivity. Qed.

Lemma shr_m_record_of_loc m l : shr_m (shr_record_of_loc m l) = m.
Proof. destruct l as [|[]]; reflexivity. Qed.

Lemma shr_1_m (r : shr_record) :
  0 <= shr_m r -> shr_m (shr_1 r) = shr_m r / 2.
Proof.
  destruct r as [m b c]. cbn [shr_m]. intros Hm.
  rewrite <- Z.div2_div.
  destruct m as [|[p|p|]|p]; try lia; reflexivity.
Qed.

Lemma shr_1_exact_even (m : Z) :
  0 <= m -> Z.even m = true ->
  loc_of_shr_record (shr_1 (shr_record_of_loc m loc_Exact)) = loc_Exact.
Proof.
  intros Hm He. destruct m as [|[p|p|]|p]; try lia; try reflexivity; discriminate.
Qed.

Lemma bra_bounds s (p : positive) (ex : Z) (lx : location) :
  2 ^ 52 <= Zpos p < 2 ^ 54 -> - 1074 <= ex <= 968 ->
  exists M E,
    bra s (Zpos p) ex lx = S754_finite s M E /\
    ex <= E <= ex + 2 /\
    Zpos p - 1 <= Zpos M * 2 ^ (E - ex) <= Zpos p + 2 /\
    (lx = loc_Exact -> Z.even (Zpos p) = true -> Zpos M * 2 ^ (E - ex) = Zpos p).
Proof.
  intros Hp He. rewrite bra_unfold.
  destruct (Z_lt_le_dec (Zpos p) (2 ^ 53)) as [Hlt|Hge].
  - assert (Hd : Zpos (digits2_pos p) = 53) by (apply digits2_pos_unique; cbn; lia).
    rewrite shr_fexp_shift by lia. rewrite Hd. change (53 - 53) with 0.
    cbn [shr fst snd]. rewrite shr_m_record_of_loc, loc_of_record_of_loc.
    pose proof (rne_bounds (Zpos p) lx) as HB.
    destruct (finish_spec s (round_nearest_even (Zpos p) lx) ex) as (M & E & HF & HE & HV);
      [lia | lia |].
    exists M, E. split; [exact HF|]. split; [lia|]. split; [lia|].
    intros -> _. cbn [round_nearest_even] in HV. exact HV.
  - assert (Hd : Zpos (digits2_pos p) = 54) by (apply digits2_pos_unique; cbn; lia).
    rewrite shr_fexp_shift by lia. rewrite Hd. change (54 - 53) with 1.
    cbn [shr fst snd iter_pos].
    set (r := shr_1 (shr_record_of_loc (Zpos p) lx)).
    assert (Hr : shr_m r = Zpos p / 2).
    { unfold r. rewrite shr_1_m; rewrite shr_m_record_of_loc; [reflexivity|lia]. }
    rewrite Hr.
    pose proof (rne_bounds (Zpos p / 2) (loc_of_shr_record r)) as HB.
    assert (Hh : 2 ^ 52 <= Zpos p / 2 < 2 ^ 53).
    { split; [apply Z.div_le_lower_bound; lia | apply Z.div_lt_upper_bound; lia]. }
    pose proof (Z.div_mod (Zpos p) 2 ltac:(lia)) as Hdm.
    pose proof (Z.mod_pos_bound (Zpos p) 2 ltac:(lia)) as Hmb.
    destruct (finish_spec s (round_nearest_even (Zpos p / 2) (loc_of_shr_record r)) (ex + 1))
      as (M & E & HF & HE & HV); [lia | lia |].
    exists M, E. split; [exact HF|]. split; [lia|].
    assert (HP : 2 ^ (E - ex) = 2 * 2 ^ (E - (ex + 1))).
    { replace (E - ex) with (Z.succ (E - (ex + 1))) by lia. apply Z.pow_succ_r. lia. }
    rewrite HP. split; [nia|].
    intros -> Hev. unfold r in HV. rewrite shr_1_exact_even in HV by (assumption || lia).
    cbn [round_nearest_even] in HV.
    rewrite Zeven_bool_iff in Hev. apply Zeven_div2 in Hev.
    rewrite Z.div2_div in Hev. lia.
Qed.

Lemma new_location_exact (m r : Z) :
  new_location m r = loc_Exact <-> r = 0.
Proof.
  unfold new_location, new_location_even, new_location_odd.
  destruct (Z.even m); destruct (Z.eqb_spec r 0); split; intros H; try reflexivity; try assumption;
    try discriminate; contradiction.
Qed.

Lemma digits_pos p : 1 <= digits p.
Proof. unfold digits. lia. Qed.

Lemma digits_le (p : positive) (d : Z) : 0 <= d -> Zpos p < 2 ^ d -> digits p <= d.
Proof.
  intros Hd H. pose proof (digits2_pos_bounds p) as [Blo _]. fold (digits p) in Blo.
  destruct (Z_le_gt_dec (digits p) d) as [|Hgt]; [assumption|].
  assert (2 ^ d <= 2 ^ (digits p - 1)) by (apply Z.pow_le_mono_r; lia). lia.
Qed.

Lemma mant_range (p : positive) :
  Zpos p < 2 ^ 53 -> 2 ^ 52 <= mant p < 2 ^ 53.
Proof.
  intros H. pose proof (digits_le p 53 ltac:(lia) H) as Hd. pose proof (digits_pos p).
  pose proof (digits2_pos_bounds p) as [Blo Bhi]. fold (digits p) in Blo, Bhi.
  unfold mant.
  assert (E52 : 2 ^ 52 = 2 ^ (digits p - 1) * 2 ^ (53 - digits p)).
  { rewrite <- Z.pow_add_r by lia. f_equal. lia. }
  assert (E53 : 2 ^ 53 = 2 ^ digits p * 2 ^ (53 - digits p)).
  { rewrite <- Z.pow_add_r by lia. f_equal. lia. }
  assert (0 < 2 ^ (53 - digits p)) by (apply Z.pow_pos_nonneg; lia).
  rewrite E52, E53. nia.
Qed.

Lemma binary_round_int (s : bool) (p : positive) :
  Zpos p < 2 ^ 53 ->
  binary_round prec emax s p 0 = S754_finite s (Z.to_pos (mant p)) (expo p).
Proof.
  intros H. pose proof (digits_le p 53 ltac:(lia) H) as Hd. pose proof (digits_pos p) as Hd1.
  pose proof (mant_range p H) as HM.
  unfold binary_round, shl_align, fexp, emin, prec, emax.
  rewrite Z.add_0_r. fold (digits p). rewrite Z.max_l by lia. rewrite Z.sub_0_r.
  destruct (digits p - 53) as [|q|q] eqn:EQ; try lia.
  - assert (Em : mant p = Zpos p) by (unfold mant; replace (53 - digits p) with 0 by lia; lia).
    pose proof (bra_exact s (Zpos p) 0 0) as HB.
    rewrite Z.pow_0_r, Z.mul_1_r, Z.add_0_r in HB.
    unfold bra, prec, emax in HB. rewrite HB by lia.
    unfold expo. rewrite EQ, Em. reflexivity.
  - pose proof (bra_exact s (mant p) 0 (Z.neg q)) as HB.
    rewrite Z.pow_0_r, Z.mul_1_r, Z.add_0_r in HB.
    assert (Em : Zpos (Pos.iter xO p q) = mant p).
    { rewrite iter_xO_shift. unfold mant. do 2 f_equal. lia. }
    rewrite Em. unfold bra, prec, emax in HB. rewrite HB by lia.
    unfold expo. rewrite EQ. reflexivity.
Qed.

Lemma of_int_pos (p : positive) :
  Zpos p < 2 ^ 53 -> of_int (Zpos p) = S754_finite false (Z.to_pos (mant p)) (expo p).
Proof. intros H. unfold of_int. cbn [binary_normalize]. apply binary_round_int, H. Qed.

Lemma of_int_neg (p : positive) :
  Zpos p < 2 ^ 53 -> of_int (Zneg p) = S754_finite true (Z.to_pos (mant p)) (expo p).
Proof. intros H. unfold of_int. cbn [binary_normalize]. apply binary_round_int, H. Qed.

Lemma trunc_of_mant (s : bool) (p : positive) :
  Zpos p < 2 ^ 53 ->
  trunc (S754_finite s (Z.to_pos (mant p)) (expo p)) = Some (if s then Zneg p else Zpos p).
Proof.
  intros H. pose proof (digits_le p 53 ltac:(lia) H) as Hd. pose proof (digits_pos p) as Hd1.
  pose proof (mant_range p H) as HM.
  unfold trunc. rewrite Z2Pos.id by lia. unfold expo.
  destruct (Z.leb_spec 0 (digits p - 53)) as [Hge|Hlt].
  - replace (digits p - 53) with 0 by lia. unfold mant.
    replace (53 - digits p) with 0 by lia. rewrite Z.pow_0_r, !Z.mul_1_r.
    destruct s; reflexivity.
  - unfold mant. replace (- (digits p - 53)) with (53 - digits p) by lia.
    rewrite Z.div_mul by (apply Z.pow_nonzero; lia). destruct s; reflexivity.
Qed.

Lemma digits_mant (p : positive) :
  Zpos p < 2 ^ 53 -> digits (Z.to_pos (mant p)) = 53.
Proof.
  intros H. pose proof (mant_range p H). unfold digits.
  apply digits2_pos_unique. rewrite Z2Pos.id by lia. change (53 - 1) with 52. lia.
Qed.

Lemma SFdiv_core_norm (m1 m2 : positive) (e1 e2 : Z) :
  digits m1 = 53 -> digits m2 = 53 -> - 1074 <= e1 - e2 - 53 ->
  SFdiv_core_binary prec emax (Zpos m1) e1 (Zpos m2) e2 =
  ((Zpos m1 * 2 ^ 53) / Zpos m2, e1 - e2 - 53,
   new_location (Zpos m2) ((Zpos m1 * 2 ^ 53) mod Zpos m2)).
Proof.
  intros H1 H2 He. unfold SFdiv_core_binary, fexp, emin, prec, emax. cbn [Zdigits2].
  fold (digits m1) (digits m2). rewrite H1, H2.
  replace (Z.min (Z.max (53 + e1 - (53 + e2) - 53) (3 - 1024 - 53)) (e1 - e2))
    with (e1 - e2 - 53) by lia.
  replace (e1 - e2 - (e1 - e2 - 53)) with 53 by lia.
  cbv iota. rewrite Z.shiftl_mul_pow2 by lia.
  unfold Z.div, Z.modulo.
  destruct (Z.div_eucl (Zpos m1 * 2 ^ 53) (Zpos m2)) as [q r]. reflexivity.
Qed.

Lemma ceil_div_scale (x d g : Z) : 0 < d -> 0 < g -> ceil_div (x * g) (d * g) = ceil_div x d.
Proof.
  intros Hd Hg. unfold ceil_div. f_equal.
  rewrite <- Z.mul_opp_l. apply Z.div_mul_cancel_r; lia.
Qed.

Lemma between_floor (v d k : Z) : 0 < d -> k * d < v < (k + 1) * d -> v / d = k.
Proof.
  intros Hd H. symmetry. apply Z.div_unique with (r := v - k * d); lia.
Qed.

Lemma between_ceil (v d k : Z) : 0 < d -> k * d < v < (k + 1) * d -> ceil_div v d = k + 1.
Proof.
  intros Hd H. unfold ceil_div.
  assert ((- v) / d = - (k + 1)); [|lia].
  symmetry. apply Z.div_unique with (r := (k + 1) * d - v); lia.
Qed.

Lemma div_magnitude (s1 s2 : bool) (a b : positive) :
  Zpos a < 2 ^ 32 -> Zpos b < 2 ^ 32 ->
  exists M E,
    div (S754_finite s1 (Z.to_pos (mant a)) (expo a))
        (S754_finite s2 (Z.to_pos (mant b)) (expo b)) = S754_finite (xorb s1 s2) M E /\
    E < 0 /\
    Zpos M / 2 ^ (- E) = Zpos a / Zpos b /\
    ceil_div (Zpos M) (2 ^ (- E)) = ceil_div (Zpos a) (Zpos b).
Proof.
  intros Ha Hb.
  assert (Ha53 : Zpos a < 2 ^ 53) by lia. assert (Hb53 : Zpos b < 2 ^ 53) by lia.
  pose proof (digits_le a 32 ltac:(lia) Ha) as Hda. pose proof (digits_pos a) as Hda1.
  pose proof (digits_le b 32 ltac:(lia) Hb) as Hdb. pose proof (digits_pos b) as Hdb1.
  pose proof (mant_range a Ha53) as HMa. pose proof (mant_range b Hb53) as HMb.
  pose proof (digits2_pos_bounds a) as [Alo Ahi]. fold (digits a) in Alo, Ahi.
  pose proof (digits2_pos_bounds b) as [Blo Bhi]. fold (digits b) in Blo, Bhi.
  set (N := 53 - digits a + digits b).
  assert (HN : 22 <= N <= 84) by (unfold N; lia).
  set (D := 2 ^ N). set (G := 2 ^ (53 - digits b)).
  assert (HG : 0 < G) by (apply Z.pow_pos_nonneg; lia).
  assert (HD : 0 < D) by (apply Z.pow_pos_nonneg; lia).
  (* the scaled numerator and the quotient the core computes *)
  assert (Enum : mant a * 2 ^ 53 = (Zpos a * D) * G).
  { unfold mant, D, G, N. rewrite <- !Z.mul_assoc, <- !Z.pow_add_r by lia.
    do 2 f_equal. lia. }
  assert (Eden : mant b = Zpos b * G) by reflexivity.
  set (Q := (Zpos a * D) / Zpos b).
  assert (EQ : (mant a * 2 ^ 53) / mant b = Q).
  { rewrite Enum, Eden. apply Z.div_mul_cancel_r; lia. }
  assert (ER : (mant a * 2 ^ 53) mod mant b = ((Zpos a * D) mod Zpos b) * G).
  { rewrite Enum, Eden. apply Z.mul_mod_distr_r; lia. }
  (* the margin: one unit of the divisor is worth [2^21] grid steps *)
  assert (HDb : 2 ^ 21 * Zpos b < D).
  { unfold D, N. replace (53 - digits a + digits b) with ((53 - digits a) + digits b) by lia.
    rewrite Z.pow_add_r by lia.
    assert (2 ^ 21 <= 2 ^ (53 - digits a)) by (apply Z.pow_le_mono_r; lia). nia. }
  assert (HQ : 2 ^ 52 <= Q < 2 ^ 54).
  { unfold Q. split.
    - apply Z.div_le_lower_bound; [lia|].
      assert (E : 2 ^ 52 * 2 ^ digits b = 2 ^ (digits a - 1) * D).
      { unfold D, N. rewrite <- !Z.pow_add_r by lia. f_equal. lia. }
      nia.
    - apply Z.div_lt_upper_bound; [lia|].
      assert (E : 2 ^ 54 * 2 ^ (digits b - 1) = 2 ^ digits a * D).
      { unfold D, N. rewrite <- !Z.pow_add_r by lia. f_equal. lia. }
      nia. }
  unfold div, SFdiv.
  rewrite SFdiv_core_norm;
    [ | apply digits_mant; lia | apply digits_mant; lia | unfold expo; lia ].
  rewrite !Z2Pos.id by lia. rewrite EQ, ER.
  replace (expo a - expo b - 53) with (- N) by (unfold expo, N; lia).
  destruct Q as [|q|q] eqn:EQq; try lia.
  fold bra.
  edestruct (bra_bounds (xorb s1 s2) q (- N)) as (M & E & HF & HE & HV & HX);
    [lia | lia |].
  exists M, E. split; [exact HF|]. split; [lia|].
  set (g := 2 ^ (E - - N)) in *.
  assert (Hg : 0 < g) by (apply Z.pow_pos_nonneg; lia).
  assert (EgD : 2 ^ (- E) * g = D).
  { unfold g, D. rewrite <- Z.pow_add_r by lia. f_equal. lia. }
  assert (HE2 : 0 < 2 ^ (- E)) by (apply Z.pow_pos_nonneg; lia).
  rewrite <- (Z.div_mul_cancel_r (Zpos M) (2 ^ (- E)) g) by lia.
  rewrite <- (ceil_div_scale (Zpos M) (2 ^ (- E)) g) by lia.
  rewrite EgD.
  set (v := Zpos M * g) in *.
  pose proof (Z.div_mod (Zpos a) (Zpos b) ltac:(lia)) as Hab.
  pose proof (Z.mod_pos_bound (Zpos a) (Zpos b) ltac:(lia)) as Hrho.
  set (k := Zpos a / Zpos b) in *. set (rho := Zpos a mod Zpos b) in *.
  assert (Hk : 0 <= k) by (apply Z.div_pos; lia).
  destruct (Z.eq_dec rho 0) as [Hz|Hnz].
  - (* the quotient is an integer: the division is exact *)
    assert (EaD : Zpos a * D = (k * D) * Zpos b) by nia.
    assert (Eq : Zpos q = k * D).
    { rewrite <- EQq. unfold Q. rewrite EaD. apply Z.div_mul. lia. }
    assert (Er : (Zpos a * D) mod Zpos b = 0).
    { rewrite EaD. apply Z.mod_mul. lia. }
    assert (Ev : v = Zpos q).
    { apply HX.
      - apply new_location_exact. rewrite Er. reflexivity.
      - rewrite Eq. unfold D.
        replace N with (Z.succ (N - 1)) by lia. rewrite Z.pow_succ_r by lia.
        replace (k * (2 * 2 ^ (N - 1))) with (2 * (k * 2 ^ (N - 1))) by ring.
        apply Z.even_mul. }
    rewrite Ev, Eq. split.
    + apply Z.div_mul. lia.
    + unfold ceil_div. rewrite <- Z.mul_opp_l, Z.div_mul by lia.
      replace (- Zpos a) with ((- k) * Zpos b) by lia. rewrite Z.div_mul by lia. reflexivity.
  - (* a proper fraction: the rounded quotient stays strictly inside *)
    assert (Hlo : k * D + 2 ^ 21 <= Zpos q).
    { rewrite <- EQq. unfold Q. apply Z.div_le_lower_bound; [lia|]. nia. }
    assert (Hhi : Zpos q < (k + 1) * D - 2 ^ 21).
    { rewrite <- EQq. unfold Q. apply Z.div_lt_upper_bound; [lia|]. nia. }
    assert (Hv : k * D < v < (k + 1) * D) by lia.
    split.
    + apply between_floor; assumption.
    + rewrite (between_ceil v D k) by assumption.
      symmetry. apply between_ceil; [lia|]. nia.
Qed.

Lemma of_int_signed_nonzero (z : Z) (s : bool) : z <> 0 -> of_int_signed z s = of_int z.
Proof. intros H. destruct z; [contradiction| |]; reflexivity. Qed.

Lemma ceil_div_opp_opp (a b : Z) : b <> 0 -> ceil_div (- a) (- b) = ceil_div a b.
Proof. intros H. unfold ceil_div. rewrite Z.div_opp_opp by assumption. reflexivity. Qed.

Lemma Ceil_div_of_int (a b : Z) :
  - 2 ^ 32 < a < 2 ^ 32 -> - 2 ^ 32 < b < 2 ^ 32 -> b <> 0 ->
  Ceil (div (of_int a) (of_int b)) = of_int_signed (ceil_div a b) (xorb (a <? 0) (b <? 0)).
Proof.
  intros Ha Hb Hb0.
  destruct a as [|a|a].
  - (* a zero over a finite float *)
    unfold ceil_div. cbn [Z.opp]. rewrite Z.div_0_l by assumption.
    destruct b as [|b|b]; [contradiction| |].
    + rewrite of_int_pos by lia. reflexivity.
    + rewrite of_int_neg by lia. reflexivity.
  - destruct b as [|b|b]; [contradiction| |].
    + rewrite !of_int_pos by lia.
      destruct (div_magnitude false false a b) as (M & E & HD & HE & HF & HC); [lia|lia|].
      rewrite HD. cbn [xorb Ceil]. destruct (Z.leb_spec 0 E); [lia|].
      fold (ceil_div (Zpos M) (2 ^ (- E))). rewrite HC. reflexivity.
    + rewrite of_int_pos, of_int_neg by lia.
      destruct (div_magnitude false true a b) as (M & E & HD & HE & HF & HC); [lia|lia|].
      rewrite HD. cbn [xorb Ceil]. destruct (Z.leb_spec 0 E); [lia|].
      rewrite HF. unfold ceil_div.
      change (Zneg b) with (- Zpos b). rewrite Z.div_opp_opp by lia. reflexivity.
  - destruct b as [|b|b]; [contradiction| |].
    + rewrite of_int_pos, of_int_neg by lia.
      destruct (div_magnitude true false a b) as (M & E & HD & HE & HF & HC); [lia|lia|].
      rewrite HD. cbn [xorb Ceil]. destruct (Z.leb_spec 0 E); [lia|].
      rewrite HF. reflexivity.
    + rewrite !of_int_neg by lia.
      destruct (div_magnitude true true a b) as (M & E & HD & HE & HF & HC); [lia|lia|].
      rewrite HD. cbn [xorb Ceil]. destruct (Z.leb_spec 0 E); [lia|].
      fold (ceil_div (Zpos M) (2 ^ (- E))). rewrite HC.
      change (Zneg a) with (- Zpos a). change (Zneg b) with (- Zpos b).
      rewrite ceil_div_opp_opp by lia. reflexivity.
Qed.

Lemma trunc_of_int_signed (z : Z) (s : bool) :
  - 2 ^ 53 < z < 2 ^ 53 -> trunc (of_int_signed z s) = Some z.
Proof.
  intros H. destruct z as [|p|p]; unfold of_int_signed; cbn [binary_normalize].
  - reflexivity.
  - rewrite binary_round_int by lia. apply (trunc_of_mant false). lia.
  - rewrite binary_round_int by lia. apply (trunc_of_mant true). lia.
Qed.

Lemma to_int32_of_int_signed (oor : float64 -> Z) (z : Z) (s : bool) :
  Int32.in_range z = true -> to_int32 oor (of_int_signed z s) = z.
Proof.
  intros H. unfold to_int32. rewrite trunc_of_int_signed.
  - rewrite H. reflexivity.
  - unfold Int32.in_range, Int32.min_int, Int32.max_int in H.
    apply andb_true_iff in H. destruct H as [H1 H2].
    apply Z.leb_le in H1, H2. lia.
Qed.

Lemma digits_ge (p : positive) (d : Z) : 2 ^ (d - 1) <= Zpos p -> d <= digits p.
Proof.
  intros H. pose proof (digits2_pos_bounds p) as [_ Bhi]. fold (digits p) in Bhi.
  pose proof (digits_pos p).
  destruct (Z_le_gt_dec d (digits p)) as [|Hgt]; [assumption|].
  assert (2 ^ digits p <= 2 ^ (d - 1)) by (apply Z.pow_le_mono_r; lia). lia.
Qed.

Lemma mul_magnitude (s1 s2 : bool) (c f : positive) :
  Zpos c * Zpos f < 2 ^ 53 ->
  mul (S754_finite s1 (Z.to_pos (mant c)) (expo c))
      (S754_finite s2 (Z.to_pos (mant f)) (expo f)) =
  S754_finite (xorb s1 s2) (Z.to_pos (mant (c * f))) (expo (c * f)).
Proof.
  intros H.
  assert (Hc : Zpos c < 2 ^ 53) by nia. assert (Hf : Zpos f < 2 ^ 53) by nia.
  pose proof (mant_range c Hc) as HMc. pose proof (mant_range f Hf) as HMf.
  pose proof (mant_range (c * f) H) as HMcf.
  pose proof (digits_le c 53 ltac:(lia) Hc). pose proof (digits_le f 53 ltac:(lia) Hf).
  pose proof (digits_le (c * f) 53 ltac:(lia) H).
  pose proof (digits_pos c). pose proof (digits_pos f). pose proof (digits_pos (c * f)%positive).
  pose proof (digits2_pos_bounds c) as [Clo _]. fold (digits c) in Clo.
  pose proof (digits2_pos_bounds f) as [Flo _]. fold (digits f) in Flo.
  assert (Hdcf : digits c + digits f - 1 <= digits (c * f)).
  { apply digits_ge. rewrite Pos2Z.inj_mul.
    replace (digits c + digits f - 1 - 1) with ((digits c - 1) + (digits f - 1)) by lia.
    rewrite Z.pow_add_r by lia. nia. }
  unfold mul, SFmul. fold bra.
  set (t := 53 + digits (c * f) - digits c - digits f).
  assert (EP : Zpos (Z.to_pos (mant c) * Z.to_pos (mant f)) = mant (c * f) * 2 ^ t).
  { assert (E : 2 ^ (53 - digits c) * 2 ^ (53 - digits f) = 2 ^ (53 - digits (c * f)) * 2 ^ t).
    { unfold t. rewrite <- !Z.pow_add_r by lia. f_equal. lia. }
    rewrite Pos2Z.inj_mul, !Z2Pos.id by lia. unfold mant at 3. rewrite Pos2Z.inj_mul.
    rewrite <- Z.mul_assoc, <- E. unfold mant. ring. }
  rewrite EP. rewrite bra_exact; [ | lia | unfold t; lia | unfold expo, t; lia ].
  f_equal. unfold expo, t. lia.
Qed.

Lemma mul_of_int (c f : Z) (s : bool) :
  - 2 ^ 53 < c * f < 2 ^ 53 -> - 2 ^ 53 < f < 2 ^ 53 -> f <> 0 ->
  mul (of_int_signed c s) (of_int f) =
  of_int_signed (c * f) (xorb (if c =? 0 then s else c <? 0) (f <? 0)).
Proof.
  intros H Hf53 Hf.
  destruct c as [|c|c].
  - destruct f as [|f|f]; [contradiction| |].
    + rewrite of_int_pos by lia. reflexivity.
    + rewrite of_int_neg by lia. reflexivity.
  - destruct f as [|f|f]; [contradiction| |]; unfold of_int_signed, of_int;
      cbn [binary_normalize Z.mul Z.eqb Z.ltb Z.compare xorb].
    + rewrite !binary_round_int by nia. apply (mul_magnitude false false). lia.
    + rewrite !binary_round_int by nia. apply (mul_magnitude false true). lia.
  - destruct f as [|f|f]; [contradiction| |]; unfold of_int_signed, of_int;
      cbn [binary_normalize Z.mul Z.eqb Z.ltb Z.compare xorb].
    + rewrite !binary_round_int by nia. apply (mul_magnitude true false). lia.
    + rewrite !binary_round_int by nia. apply (mul_magnitude true true). lia.
Qed.

End Float64Facts.


(* ================================================================== *)
(** ** Facts on [int32] and on the two float expressions of the sizing *)

Lemma is_int32_in_range (z : Z) : is_int32 z <-> Int32.in_range z = true.
Proof.
  unfold is_int32, Int32.in_range. rewrite andb_true_iff, !Z.leb_le. tauto.
Qed.

Lemma wrap_id (z : Z) : is_int32 z -> Int32.wrap z = z.
Proof.
  unfold is_int32, Int32.min_int, Int32.max_int, Int32.wrap. intros H.
  rewrite Z.mod_small; lia.
Qed.

Lemma wrap_is_int32 (z : Z) : is_int32 (Int32.wrap z).
Proof.
  unfold is_int32, Int32.min_int, Int32.max_int, Int32.wrap.
  pose proof (Z.mod_pos_bound (z + 2 ^ 31) (2 ^ 32) ltac:(lia)). lia.
Qed.

(** [int32(math.Ceil(float64(x) / float64(y)))] is the exact ceiling. *)
Lemma int32_ceilQuot (rt : Runtime) (x y : Z) :
  is_int32 x -> is_int32 y -> y <> 0 -> is_int32 (ceil_div x y) ->
  int32 rt (ceilQuot x y) = ceil_div x y.
Proof.
  unfold is_int32, Int32.min_int, Int32.max_int. intros Hx Hy Hy0 Hc.
  unfold int32, ceilQuot.
  rewrite Float64Facts.Ceil_div_of_int by lia.
  apply Float64Facts.to_int32_of_int_signed.
  apply is_int32_in_range. exact Hc.
Qed.

(** [int32(math.Ceil(float64(m)/float64(f)) * float64(f))] is the exact
    round-up of [m] to a multiple of [f]. *)
Lemma int32_roundUp (rt : Runtime) (m f : Z) :
  is_int32 m -> is_int32 f -> f <> 0 -> is_int32 (ceil_div m f * f) ->
  int32 rt (Float64.mul (ceilQuot m f) (Float64.of_int f)) = ceil_div m f * f.
Proof.
  unfold is_int32, Int32.min_int, Int32.max_int. intros Hm Hf Hf0 Hc.
  unfold int32, ceilQuot.
  rewrite Float64Facts.Ceil_div_of_int by lia.
  rewrite Float64Facts.mul_of_int by lia.
  apply Float64Facts.to_int32_of_int_signed.
  apply is_int32_in_range. exact Hc.
Qed.

Lemma ceil_div_pos_bounds (p d : Z) :
  0 < p -> 0 < d -> 1 <= ceil_div p d <= p.
Proof.
  intros Hp Hd. unfold ceil_div.
  pose proof (Z.div_mod (- p) d ltac:(lia)) as E.
  pose proof (Z.mod_pos_bound (- p) d Hd) as B.
  split; nia.
Qed.

(** The round-up is the least multiple of [f] not below [m]. *)
Lemma ceil_div_mul_bounds (m f : Z) :
  0 < f -> m <= ceil_div m f * f < m + f.
Proof.
  intros Hf. unfold ceil_div.
  pose proof (Z.div_mod (- m) f ltac:(lia)) as E.
  pose proof (Z.mod_pos_bound (- m) f Hf) as B.
  split; nia.
Qed.

(* ================================================================== *)
(** ** Running a pass *)

Lemma bind_run {A B} (m : M A) (k : A -> M B) (w : world) :
  bind m k w = k (fst (m w)) (snd (m w)).
Proof. unfold bind. destruct (m w). reflexivity. Qed.

Lemma call_fst {A} (answer : trace -> A) (ev : A -> event) (w : world) :
  fst (call answer ev w) = answer (log w).
Proof. reflexivity. Qed.

Lemma call_snd {A} (answer : trace -> A) (ev : A -> event) (w : world) :
  snd (call answer ev w) = {| self := self w; log := ev (answer (log w)) :: log w |}.
Proof. reflexivity. Qed.

Lemma evictions_app (new old : trace) :
  evictions (new ++ old) = evictions old ++ evictions new.
Proof. unfold evictions. rewrite flat_map_app, rev_app_distr. reflexivity. Qed.

Lemma evictions_cons (ev : event) (tr : trace) :
  evictions (ev :: tr) = evictions tr ++ evictions [ev].
Proof. apply (evictions_app [ev] tr). Qed.

Lemma evictions_quiet (ev : event) (tr : trace) :
  (forall pod vpod pl, ev <> EvEvict pod vpod pl) ->
  evictions (ev :: tr) = evictions tr.
Proof.
  intros H. rewrite evictions_cons.
  destruct ev; try (cbn; apply app_nil_r).
  exfalso. eapply H. reflexivity.
Qed.

(* ================================================================== *)
(** ** Leader gate *)

(** C10.  A bucket without the sentinel key leaves the leader flag, and
    the whole autoscaler, as it was, under [Promote] and under [Demote]:
    the flag is written only for a bucket that holds the key.  [Promote]
    returns nil for every bucket. *)
Theorem leader_flag_frame (b b' : Bucket) (a : autoscaler) (tr : trace) :
  Has b ephemeralLeaderElectionObject = false ->
  run (Promote b) a tr = (None, {| self := a; log := tr |}) /\
  run (Demote b) a tr = (tt, {| self := a; log := tr |}) /\
  isLeader (self (snd (run (Promote b) a tr))) = isLeader a /\
  isLeader (self (snd (run (Demote b) a tr))) = isLeader a /\
  fst (run (Promote b') a tr) = None.
Proof.
  intros H. unfold run, Promote, Demote, bind, get_self, put_self, ret.
  cbn. rewrite H. cbn. repeat split.
  destruct (Has b' ephemeralLeaderElectionObject); reflexivity.
Qed.

Lemma leader_flag_frame_witness :
  let b := {| BucketName := "bucket-1"; Has := fun _ => false |} in
  let a := exampleAutoscaler (exampleState MAXFILLUP None 2 1 [0; 9] 0 11) 2 true 0 [] in
  run (Promote b) a [] = (None, {| self := a; log := [] |}) /\
  run (Demote b) a [] = (tt, {| self := a; log := [] |}) /\
  isLeader (self (snd (run (Promote b) a []))) = isLeader a /\
  isLeader (self (snd (run (Demote b) a []))) = isLeader a /\
  fst (run (Promote b) a []) = None.
Proof.
  intros b a. apply (leader_flag_frame b b a []). reflexivity.
Defined.


(** C4.  A pass of an autoscaler that is not the leader returns nil and
    issues no call: the snapshot is not read, the scale is neither read
    nor written, the evictor is not invoked, and the autoscaler is
    unchanged, whatever [attemptScaleDown] is. *)
Theorem doautoscale_not_leader (rt : Runtime) (a : autoscaler)
  (attemptScaleDown : bool) (tr : trace) :
  isLeader a = false ->
  run (doautoscale rt attemptScaleDown) a tr = (None, {| self := a; log := tr |}).
Proof.
  intros H. unfold run, doautoscale, bind, get_self. cbn. rewrite H. reflexivity.
Qed.

Lemma doautoscale_not_leader_witness :
  let a := exampleAutoscaler (exampleState MAXFILLUP None 2 1 [0; 9] 0 35) 2 false 0 [] in
  run (doautoscale exampleRuntime true) a [] = (None, {| self := a; log := [] |}).
Proof.
  intros a. apply (doautoscale_not_leader exampleRuntime a true []). reflexivity.
Defined.

(* ================================================================== *)
(** ** The scale-up factor *)

Lemma contains_priorities (priors : list PriorityPolicy) (name : string) :
  contains [] priors name = true <-> In name (map PrioName priors).
Proof.
  unfold contains. cbn [existsb orb]. rewrite existsb_exists, in_map_iff.
  split.
  - intros (v & Hin & Heq). apply String.eqb_eq in Heq. exists v. split; assumption.
  - intros (v & Heq & Hin). exists v. split; [assumption|]. apply String.eqb_eq, Heq.
Qed.

Lemma contains_predicates (preds : list PredicatePolicy) (name : string) :
  contains preds [] name = true <-> In name (map PredName preds).
Proof.
  unfold contains. cbn [existsb]. rewrite orb_false_r, existsb_exists, in_map_iff.
  split.
  - intros (v & Hin & Heq). apply String.eqb_eq in Heq. exists v. split; assumption.
  - intros (v & Heq & Hin). exists v. split; [assumption|]. apply String.eqb_eq, Heq.
Qed.

Lemma hasPriority_lists (state : State) (name : string) :
  hasPriority state name = true <-> listsPriority state name.
Proof.
  unfold hasPriority, listsPriority. destruct (SchedPolicy state) as [p|].
  - rewrite contains_priorities. split.
    + intros H. exists p. split; [reflexivity|assumption].
    + intros (q & Hq & Hin). injection Hq as <-. assumption.
  - split; [discriminate|]. intros (q & Hq & _). discriminate.
Qed.

Lemma hasPredicate_lists (state : State) (name : string) :
  hasPredicate state name = true <-> listsPredicate state name.
Proof.
  unfold hasPredicate, listsPredicate. destruct (SchedPolicy state) as [p|].
  - rewrite contains_predicates. split.
    + intros H. exists p. split; [reflexivity|assumption].
    + intros (q & Hq & Hin). injection Hq as <-. assumption.
  - split; [discriminate|]. intros (q & Hq & _). discriminate.
Qed.

(** C1, as the specification states it, fails: with both priorities
    listed, three zones and five nodes, the factor is not the number of
    zones. *)
Lemma scaleUpFactor_zone_does_not_dominate :
  ~ (forall state : State,
        listsPriority state AvailabilityZonePriority ->
        listsPriority state AvailabilityNodePriority ->
        scaleUpFactorOf state = NumZones state).
Proof.
  intros H.
  specialize (H (exampleState POLICY_BASED (Some bothPriorities) 3 2 [0; 0; 0] 0 30)).
  assert (E : (5 : Z) = 3); [|discriminate E].
  apply H; apply hasPriority_lists; reflexivity.
Qed.

(** C1, amended.  The node priority dominates: the factor is [NumNodes]
    whenever [AvailabilityNodePriority] is listed, [NumZones] when only
    [AvailabilityZonePriority] is, and 1 when neither is listed or the
    policy is nil. *)
Theorem scaleUpFactor_node_dominates (state : State) :
  (listsPriority state AvailabilityNodePriority ->
   scaleUpFactorOf state = NumNodes state) /\
  (listsPriority state AvailabilityZonePriority ->
   ~ listsPriority state AvailabilityNodePriority ->
   scaleUpFactorOf state = NumZones state) /\
  (~ listsPriority state AvailabilityZonePriority ->
   ~ listsPriority state AvailabilityNodePriority ->
   scaleUpFactorOf state = 1) /\
  (SchedPolicy state = None -> scaleUpFactorOf state = 1).
Proof.
  unfold scaleUpFactorOf.
  pose proof (hasPriority_lists state AvailabilityZonePriority) as HZ.
  pose proof (hasPriority_lists state AvailabilityNodePriority) as HN.
  destruct (hasPriority state AvailabilityNodePriority) eqn:EN;
    destruct (hasPriority state AvailabilityZonePriority) eqn:EZ;
    repeat split; intros; try reflexivity;
    try (exfalso; intuition congruence).
  all: unfold hasPriority in EN, EZ;
    match goal with H : SchedPolicy _ = None |- _ => rewrite H in EN, EZ end;
    discriminate.
Qed.

Lemma scaleUpFactor_node_dominates_witness :
  scaleUpFactorOf (exampleState POLICY_BASED (Some bothPriorities) 3 2 [0; 0; 0] 0 30) = 5 /\
  scaleUpFactorOf (exampleState POLICY_BASED (Some zoneOnly) 3 2 [0; 0; 0] 0 30) = 3 /\
  scaleUpFactorOf (exampleState POLICY_BASED (Some evenSpread) 3 2 [0; 0; 0] 0 30) = 1 /\
  scaleUpFactorOf (exampleState MAXFILLUP None 3 2 [0; 0; 0] 0 30) = 1.
Proof.
  assert (N : forall (P : Prop) (b : bool), (b = true <-> P) -> b = false -> ~ P)
    by (intros P b [_ HB] E HP; rewrite (HB HP) in E; discriminate E).
  split; [|split; [|split]].
  - refine (proj1 (scaleUpFactor_node_dominates
                     (exampleState POLICY_BASED (Some bothPriorities) 3 2 [0; 0; 0] 0 30)) _).
    apply hasPriority_lists. reflexivity.
  - refine (proj1 (proj2 (scaleUpFactor_node_dominates
                     (exampleState POLICY_BASED (Some zoneOnly) 3 2 [0; 0; 0] 0 30))) _ _).
    + apply hasPriority_lists. reflexivity.
    + eapply N; [apply hasPriority_lists|reflexivity].
  - refine (proj1 (proj2 (proj2 (scaleUpFactor_node_dominates
                     (exampleState POLICY_BASED (Some evenSpread) 3 2 [0; 0; 0] 0 30)))) _ _).
    + eapply N; [apply hasPriority_lists|reflexivity].
    + eapply N; [apply hasPriority_lists|reflexivity].
  - refine (proj2 (proj2 (proj2 (scaleUpFactor_node_dominates
                     (exampleState MAXFILLUP None 3 2 [0; 0; 0] 0 30)))) _).
    reflexivity.
Defined.

(* ================================================================== *)
(** ** The per-pod divisor *)

Lemma leastPositive_spec (l : list Z) :
  match leastPositive l with
  | Some m => In m l /\ 0 < m /\ forall v, In v l -> 0 < v -> m <= v
  | None => forall v, In v l -> v <= 0
  end.
Proof.
  induction l as [|x l IH]; cbn [leastPositive fold_right].
  - intros v [].
  - fold (leastPositive l). destruct (Z.ltb_spec 0 x) as [Hx|Hx].
    + destruct (leastPositive l) as [m|].
      * destruct IH as (Hin & Hpos & Hmin).
        split; [|split].
        -- destruct (Z.min_spec x m) as [[_ ->]|[_ ->]]; [left; reflexivity|right; exact Hin].
        -- lia.
        -- intros v [<-|Hv] Hv0; [lia|]. specialize (Hmin v Hv Hv0). lia.
      * split; [left; reflexivity|]. split; [exact Hx|].
        intros v [<-|Hv] Hv0; [lia|]. specialize (IH v Hv). lia.
    + destruct (leastPositive l) as [m|].
      * destruct IH as (Hin & Hpos & Hmin).
        split; [right; exact Hin|]. split; [exact Hpos|].
        intros v [<-|Hv] Hv0; [lia|]. apply Hmin; assumption.
      * intros v [<-|Hv]; [lia|]. apply IH, Hv.
Qed.

(** What the loop of [minNonZeroInt] computes from any starting value. *)
Lemma minNonZeroInt_fold (l : list Z) (m0 : Z) :
  fold_left (fun min v => if (v <? min) && (0 <? v) then v else min) l m0 =
  match leastPositive l with
  | Some m => Z.min m0 m
  | None => m0
  end.
Proof.
  revert m0. induction l as [|x l IH]; intros m0; cbn [fold_left].
  - reflexivity.
  - rewrite IH. cbn [leastPositive fold_right]. fold (leastPositive l).
    destruct (Z.ltb_spec x m0), (Z.ltb_spec 0 x), (leastPositive l) as [m|];
      cbn [andb]; lia.
Qed.

(** Without any assumption: the capacity, lowered to the least strictly
    positive element below it. *)
Lemma minNonZeroInt_general (a : autoscaler) (slice : list Z) :
  minNonZeroInt a slice =
  match leastPositive slice with
  | Some m => Z.min (capacity a) m
  | None => capacity a
  end.
Proof. apply minNonZeroInt_fold. Qed.

Lemma minNonZeroInt_perPodSpec (a : autoscaler) (slice : list Z) :
  Forall (fun v => v <= capacity a) slice ->
  minNonZeroInt a slice = perPodSpec (capacity a) slice.
Proof.
  intros H. rewrite minNonZeroInt_general. unfold perPodSpec.
  pose proof (leastPositive_spec slice) as S.
  destruct (leastPositive slice) as [m|]; [|reflexivity].
  destruct S as (Hin & _). rewrite Forall_forall in H. specialize (H m Hin). lia.
Qed.

Lemma minNonZeroInt_bounds (a : autoscaler) (slice : list Z) :
  0 < capacity a -> 0 < minNonZeroInt a slice <= capacity a.
Proof.
  intros H. rewrite minNonZeroInt_general.
  pose proof (leastPositive_spec slice) as S.
  destruct (leastPositive slice) as [m|]; lia.
Qed.

Lemma perPodOf_bounds (a : autoscaler) (state : State) :
  0 < capacity a -> 0 < perPodOf a state <= capacity a.
Proof.
  intros H. unfold perPodOf.
  destruct (hasPredicate state EvenPodSpread && _); [apply minNonZeroInt_bounds, H|lia].
Qed.

Lemma minNumPodsOf_perPodOf (rt : Runtime) (a : autoscaler) (state : State) (pending : Z) :
  minNumPodsOf rt a state pending = int32 rt (ceilQuot pending (perPodOf a state)).
Proof.
  unfold minNumPodsOf, perPodOf.
  destruct (hasPredicate state EvenPodSpread && _); reflexivity.
Qed.

(** C6.  With pending replicas under [POLICY_BASED], the [EvenPodSpread]
    predicate listed and a non-empty [FreeCap] whose entries do not exceed
    the capacity (the data model: [Free(o)] lies in [0, C]), the divisor
    of [minNumPods] is the least strictly positive entry of [FreeCap], and
    the capacity when no entry is strictly positive. *)
Theorem minNumPods_divisor (rt : Runtime) (a : autoscaler) (state : State)
  (scaleUpFactor : Z) :
  SchedulerPolicy state = POLICY_BASED ->
  0 < TotalPending state ->
  listsPredicate state EvenPodSpread ->
  FreeCap state <> [] ->
  Forall (fun v => v <= capacity a) (FreeCap state) ->
  let perPod := perPodSpec (capacity a) (FreeCap state) in
  let minNumPods := int32 rt (ceilQuot (TotalPending state) perPod) in
  perPodOf a state = perPod /\
  minNumPodsOf rt a state (TotalPending state) = minNumPods /\
  ((exists v, In v (FreeCap state) /\ 0 < v) ->
   In perPod (FreeCap state) /\ 0 < perPod /\
   forall v, In v (FreeCap state) -> 0 < v -> perPod <= v) /\
  ((forall v, In v (FreeCap state) -> v <= 0) -> perPod = capacity a) /\
  sizedReplicas rt a state scaleUpFactor =
    (let newreplicas :=
       Int32.add (Int32.add (LastOrdinal state) 1)
         (int32 rt (Float64.mul (ceilQuot minNumPods scaleUpFactor)
                                (Float64.of_int scaleUpFactor))) in
     if newreplicas <=? LastOrdinal state
     then Int32.add (LastOrdinal state) scaleUpFactor
     else newreplicas).
Proof.
  intros Hkind Hpend Hpred Hne Hcap perPod minNumPods.
  assert (E : perPodOf a state = perPod).
  { assert (Hlen : (0 <? Z.of_nat (List.length (FreeCap state))) = true).
    { destruct (FreeCap state) as [|x l]; [contradiction|].
      cbn [List.length]. apply Z.ltb_lt. lia. }
    unfold perPodOf. apply hasPredicate_lists in Hpred. rewrite Hpred, Hlen.
    cbn [andb]. apply minNonZeroInt_perPodSpec, Hcap. }
  assert (E' : minNumPodsOf rt a state (TotalPending state) = minNumPods).
  { rewrite minNumPodsOf_perPodOf, E. reflexivity. }
  split; [exact E|]. split; [exact E'|].
  pose proof (leastPositive_spec (FreeCap state)) as S.
  split; [|split].
  - intros (v & Hv & Hv0). unfold perPod, perPodSpec.
    destruct (leastPositive (FreeCap state)) as [m|]; [exact S|].
    specialize (S v Hv). lia.
  - intros Hall. unfold perPod, perPodSpec.
    destruct (leastPositive (FreeCap state)) as [m|]; [|reflexivity].
    destruct S as (Hin & Hpos & _). specialize (Hall m Hin). lia.
  - unfold sizedReplicas. rewrite Hkind.
    destruct (Z.ltb_spec 0 (TotalPending state)); [|lia].
    rewrite E'. reflexivity.
Qed.

Lemma minNumPods_divisor_witness :
  let state := exampleState POLICY_BASED (Some evenSpread) 3 2 [0; 2; 5] 6 30 in
  let a := exampleAutoscaler state 3 true 0 [] in
  perPodOf a state = 2 /\
  minNumPodsOf exampleRuntime a state 6 = 3 /\
  sizedReplicas exampleRuntime a state 1 = 6.
Proof.
  intros state a.
  destruct (minNumPods_divisor exampleRuntime a state 1) as (H1 & H2 & _ & _ & H3).
  - reflexivity.
  - reflexivity.
  - exists evenSpread. split; [reflexivity|]. left. reflexivity.
  - discriminate.
  - repeat constructor; cbn; lia.
  - split; [exact H1|]. split; [exact H2|]. rewrite H3. vm_compute. reflexivity.
Defined.

(* ================================================================== *)
(** ** The desired number of replicas *)

(** The policy-based sizing, in exact integer arithmetic. *)
Lemma sizedReplicas_policy_based (rt : Runtime) (a : autoscaler) (state : State)
  (scaleUpFactor : Z) :
  SchedulerPolicy state = POLICY_BASED ->
  0 < TotalPending state ->
  1 <= scaleUpFactor ->
  0 < capacity a ->
  is_int32 (TotalPending state) ->
  is_int32 (capacity a) ->
  is_int32 scaleUpFactor ->
  - 1 <= LastOrdinal state ->
  let minNumPods := ceil_div (TotalPending state) (perPodOf a state) in
  let roundedUp := ceil_div minNumPods scaleUpFactor * scaleUpFactor in
  LastOrdinal state + 1 + roundedUp <= Int32.max_int ->
  minNumPodsOf rt a state (TotalPending state) = minNumPods /\
  1 <= minNumPods /\
  minNumPods <= roundedUp < minNumPods + scaleUpFactor /\
  sizedReplicas rt a state scaleUpFactor = LastOrdinal state + 1 + roundedUp.
Proof.
  intros Hkind Hpend Hf Hcap Ipend Icap If HL minNumPods roundedUp Hsum.
  pose proof (perPodOf_bounds a state Hcap) as HP.
  pose proof (ceil_div_pos_bounds (TotalPending state) (perPodOf a state) Hpend ltac:(lia)) as HM.
  fold minNumPods in HM.
  pose proof (ceil_div_mul_bounds minNumPods scaleUpFactor ltac:(lia)) as HR.
  fold roundedUp in HR.
  unfold is_int32, Int32.min_int, Int32.max_int in *.
  assert (EM : minNumPodsOf rt a state (TotalPending state) = minNumPods).
  { rewrite minNumPodsOf_perPodOf. apply int32_ceilQuot;
      unfold is_int32, Int32.min_int, Int32.max_int; fold minNumPods; lia. }
  split; [exact EM|]. split; [lia|]. split; [exact HR|].
  unfold sizedReplicas. rewrite Hkind.
  destruct (Z.ltb_spec 0 (TotalPending state)); [|lia].
  rewrite EM, int32_roundUp;
    [ | unfold is_int32, Int32.min_int, Int32.max_int; fold roundedUp; lia .. ].
  fold roundedUp. unfold Int32.add.
  rewrite (wrap_id (LastOrdinal state + 1))
    by (unfold is_int32, Int32.min_int, Int32.max_int; lia).
  rewrite (wrap_id (LastOrdinal state + 1 + roundedUp))
    by (unfold is_int32, Int32.min_int, Int32.max_int; lia).
  destruct (Z.leb_spec (LastOrdinal state + 1 + roundedUp) (LastOrdinal state)); [lia|].
  reflexivity.
Qed.

(** C5, as the specification states it, fails: with three zones, the zone
    priority, 7 pending replicas, capacity 10, last ordinal 2 and 10
    replicas already, a wake by the trigger ends with 10 replicas, and
    [10 - 3] is not a multiple of 3. *)
Lemma newReplicas_HA_unit_fails :
  let state := exampleState POLICY_BASED (Some zoneOnly) 10 2 [0; 0; 0] 7 37 in
  let a := exampleAutoscaler state 10 true 0 [] in
  let scale := {| Spec_Replicas := 10 |} in
  SchedulerPolicy state = POLICY_BASED /\
  0 < TotalPending state /\
  1 < scaleUpFactorOf state /\
  ~ (exists k, 0 <= k /\
       newReplicasOf exampleRuntime a state scale false - (LastOrdinal state + 1)
       = k * scaleUpFactorOf state).
Proof.
  intros state a scale. split; [reflexivity|]. split; [reflexivity|].
  split; [reflexivity|].
  assert (E : newReplicasOf exampleRuntime a state scale false = 10)
    by (vm_compute; reflexivity).
  rewrite E. change (scaleUpFactorOf state) with 3. change (LastOrdinal state) with 2.
  intros (k & Hk & Hm). lia.
Qed.

(** C5, amended.  Under [POLICY_BASED] with pending replicas, a factor
    above 1, a positive capacity and no overflow of the [int32] sum, the
    value sized before the scale-down gate exceeds [LastOrdinal + 1] by a
    positive multiple of the factor; a pass ends with this value unless
    it is a wake without scale-down and the current replicas are more, in
    which case the pass keeps the current replicas. *)
Theorem sizedReplicas_HA_unit (rt : Runtime) (a : autoscaler) (state : State)
  (scale : Scale) (attemptScaleDown : bool) :
  SchedulerPolicy state = POLICY_BASED ->
  0 < TotalPending state ->
  1 < scaleUpFactorOf state ->
  0 < capacity a ->
  is_int32 (TotalPending state) ->
  is_int32 (capacity a) ->
  is_int32 (scaleUpFactorOf state) ->
  - 1 <= LastOrdinal state ->
  LastOrdinal state + 1
  + ceil_div (ceil_div (TotalPending state) (perPodOf a state)) (scaleUpFactorOf state)
    * scaleUpFactorOf state <= Int32.max_int ->
  let sized := sizedReplicas rt a state (scaleUpFactorOf state) in
  (exists k, 1 <= k /\ sized - (LastOrdinal state + 1) = k * scaleUpFactorOf state) /\
  sized - (LastOrdinal state + 1) =
    ceil_div (minNumPodsOf rt a state (TotalPending state)) (scaleUpFactorOf state)
    * scaleUpFactorOf state /\
  (attemptScaleDown = true \/ Spec_Replicas scale <= sized ->
   newReplicasOf rt a state scale attemptScaleDown = sized) /\
  (attemptScaleDown = false -> sized < Spec_Replicas scale ->
   newReplicasOf rt a state scale attemptScaleDown = Spec_Replicas scale).
Proof.
  intros Hkind Hpend Hf Hcap Ipend Icap If HL Hsum sized.
  destruct (sizedReplicas_policy_based rt a state (scaleUpFactorOf state))
    as (EM & HM & HR & ES); try assumption; try lia.
  fold sized in ES.
  split; [|split; [|split]].
  - exists (ceil_div (ceil_div (TotalPending state) (perPodOf a state))
                     (scaleUpFactorOf state)).
    split; [|lia].
    apply ceil_div_pos_bounds; lia.
  - rewrite EM. lia.
  - intros H. unfold newReplicasOf, gatedReplicas. fold sized.
    destruct attemptScaleDown; [reflexivity|]. cbn [negb andb].
    destruct H as [H|H]; [discriminate|].
    destruct (Z.ltb_spec sized (Spec_Replicas scale)); [lia|reflexivity].
  - intros -> H. unfold newReplicasOf, gatedReplicas. fold sized. cbn [negb andb].
    destruct (Z.ltb_spec sized (Spec_Replicas scale)); [reflexivity|lia].
Qed.

Lemma sizedReplicas_HA_unit_witness :
  let state := exampleState POLICY_BASED (Some zoneOnly) 3 2 [0; 0; 0] 7 37 in
  let a := exampleAutoscaler state 3 true 0 [] in
  sizedReplicas exampleRuntime a state 3 - (2 + 1) = 1 * 3 /\
  newReplicasOf exampleRuntime a state {| Spec_Replicas := 3 |} false = 6.
Proof.
  intros state a.
  destruct (sizedReplicas_HA_unit exampleRuntime a state {| Spec_Replicas := 3 |} false)
    as (_ & H2 & H3 & _).
  - reflexivity.
  - reflexivity.
  - reflexivity.
  - reflexivity.
  - split; discriminate.
  - split; discriminate.
  - split; discriminate.
  - discriminate.
  - discriminate.
  - split.
    + change (scaleUpFactorOf state) with 3 in H2. change (LastOrdinal state) with 2 in H2.
      rewrite H2. vm_compute. reflexivity.
    + rewrite H3; [vm_compute; reflexivity|]. right. vm_compute. discriminate.
Defined.

(** A wake by the trigger does not scale down: with 5 replicas and a
    sizing of 4, the pass reads the snapshot and the scale and writes
    nothing. *)
Example trigger_wake_keeps_replicas :
  let state := exampleState POLICY_BASED None 5 3 [0; 0; 0; 0] 0 40 in
  let a := exampleAutoscaler state 5 true 0 [] in
  sizedReplicas exampleRuntime a state (scaleUpFactorOf state) = 4 /\
  run (doautoscale exampleRuntime false) a [] =
  (None, {| self := a; log := [EvGetScale; EvState] |}).
Proof. vm_compute. split; reflexivity. Qed.

(** C3.  Under [MAXFILLUP] the sizing gives the exact ceiling of
    [TotalExpectedVReplicas / Capacity], and a pass writes it to the scale
    whenever it differs from the current replicas and the gate lets it
    through.  With capacity 10, 35 expected replicas and 2 current
    replicas, a scale-down tick of the leader writes 4 and evicts nothing. *)
Theorem doautoscale_maxfillup (rt : Runtime) (a : autoscaler) (state : State)
  (scale : Scale) (attemptScaleDown : bool) (tr : trace) :
  isLeader a = true ->
  stateAccessor a tr = inl state ->
  statefulSetClient_GetScale a (EvState :: tr) = inl scale ->
  SchedulerPolicy state = MAXFILLUP ->
  is_int32 (TotalExpectedVReplicas state) ->
  is_int32 (Capacity state) ->
  Capacity state <> 0 ->
  is_int32 (ceil_div (TotalExpectedVReplicas state) (Capacity state)) ->
  let desired := ceil_div (TotalExpectedVReplicas state) (Capacity state) in
  let w' := snd (run (doautoscale rt attemptScaleDown) a tr) in
  sizedReplicas rt a state (scaleUpFactorOf state) = desired /\
  (attemptScaleDown = true \/ Spec_Replicas scale < desired ->
   desired <> Spec_Replicas scale ->
   log w' = EvUpdateScale desired :: EvGetScale :: EvState :: tr) /\
  (Capacity state = 10 -> TotalExpectedVReplicas state = 35 ->
   Spec_Replicas scale = 2 -> attemptScaleDown = true ->
   log w' = EvUpdateScale 4 :: EvGetScale :: EvState :: tr /\
   scale_writes (log w') = scale_writes tr ++ [4] /\
   evictions (log w') = evictions tr).
Proof.
  intros Hlead Hstate Hscale Hkind IT IC HC0 ID desired w'.
  assert (ES : sizedReplicas rt a state (scaleUpFactorOf state) = desired).
  { unfold sizedReplicas. rewrite Hkind. apply int32_ceilQuot; assumption. }
  assert (EW : attemptScaleDown = true \/ Spec_Replicas scale < desired ->
               desired <> Spec_Replicas scale ->
               log w' = EvUpdateScale desired :: EvGetScale :: EvState :: tr).
  { intros Hgate Hne. unfold w', run, doautoscale.
    rewrite bind_run. cbn [get_self fst snd self]. rewrite Hlead. cbn [negb].
    rewrite bind_run. unfold call at 1 2. cbn [fst snd self log]. rewrite Hstate.
    rewrite bind_run. unfold call at 1 2. cbn [fst snd self log]. rewrite Hscale.
    assert (EN : newReplicasOf rt a state scale attemptScaleDown = desired).
    { unfold newReplicasOf, gatedReplicas. rewrite ES.
      destruct attemptScaleDown; [reflexivity|]. cbn [negb andb].
      destruct Hgate as [Hg|Hg]; [discriminate|].
      destruct (Z.ltb_spec desired (Spec_Replicas scale)); [lia|reflexivity]. }
    rewrite EN. destruct (Z.eqb_spec desired (Spec_Replicas scale)); [contradiction|].
    cbn [negb]. unfold call. cbn [snd log]. reflexivity. }
  split; [exact ES|]. split; [exact EW|].
  intros HC HT HR ->.
  assert (E4 : desired = 4) by (unfold desired; rewrite HC, HT; reflexivity).
  rewrite E4 in EW. rewrite EW; [|left; reflexivity|rewrite HR; discriminate].
  split; [reflexivity|]. split.
  - unfold scale_writes. cbn [flat_map app]. cbn [rev]. reflexivity.
  - rewrite !evictions_quiet by discriminate. reflexivity.
Qed.

Lemma doautoscale_maxfillup_witness :
  let state := exampleState MAXFILLUP None 2 1 [0; 0] 15 35 in
  let a := exampleAutoscaler state 2 true 0 [] in
  let w' := snd (run (doautoscale exampleRuntime true) a []) in
  sizedReplicas exampleRuntime a state (scaleUpFactorOf state) = 4 /\
  log w' = [EvUpdateScale 4; EvGetScale; EvState] /\
  evictions (log w') = [].
Proof.
  intros state a w'.
  destruct (doautoscale_maxfillup exampleRuntime a state {| Spec_Replicas := 2 |} true [])
    as (H1 & _ & H3).
  - reflexivity.
  - reflexivity.
  - reflexivity.
  - reflexivity.
  - split; discriminate.
  - split; discriminate.
  - discriminate.
  - split; discriminate.
  - destruct H3 as (L & _ & E); try reflexivity.
    split; [exact H1|]. split; [exact L|exact E].
Defined.

(* ================================================================== *)
(** ** The eviction pass *)

Lemma poll_eq {S : Type} (n : nat) (condition : S -> M (bool * S)) (st : S) :
  poll n condition st =
  bind (condition st)
       (fun r => if fst r then ret (snd r)
                 else match n with
                      | O => ret (snd r)
                      | Datatypes.S n' => poll n' condition (snd r)
                      end).
Proof. destruct n; reflexivity. Qed.

Section Pass.

Variable rt : Runtime.
Variable s : State.
Variable scaleUpFactor : Z.

Lemma pass_nil (w : world) (loc : locals) :
  okPod s (fst loc) -> pass_post s [] w (inl loc) w.
Proof.
  intros H. split; [reflexivity|]. exists []. cbn.
  repeat split; try constructor; try assumption. exists []. reflexivity.
Qed.

Lemma pass_seq (t1 t2 : list (VPod * Placement)) (w w1 w2 : world)
  (loc : locals) (r : locals + error) :
  pass_post s t1 w (inl loc) w1 -> pass_post s t2 w1 r w2 ->
  pass_post s (t1 ++ t2) w r w2.
Proof.
  intros (S1 & new1 & L1 & F1 & O1 & _ & _ & E1)
         (S2 & new2 & L2 & F2 & O2 & (rest & P2) & R2).
  split; [congruence|]. exists (new2 ++ new1).
  rewrite evictions_app, map_app, E1.
  split; [rewrite L2, L1, app_assoc; reflexivity|].
  split; [apply Forall_app; split; assumption|].
  split; [apply Forall_app; split; assumption|].
  split.
  - exists rest. rewrite <- app_assoc, <- P2. reflexivity.
  - destruct r as [loc'|err].
    + destruct R2 as (Hok & E2). split; [assumption|]. rewrite E2. reflexivity.
    + rewrite <- S1. exact R2.
Qed.

Lemma pass_abort (t1 t2 : list (VPod * Placement)) (w w1 : world) (err : error) :
  pass_post s t1 w (inr err) w1 -> pass_post s (t1 ++ t2) w (inr err) w1.
Proof.
  intros (S1 & new1 & L1 & F1 & O1 & (rest & P1) & R1).
  split; [assumption|]. exists new1.
  repeat split; try assumption.
  exists (rest ++ t2). rewrite app_assoc, <- P1. reflexivity.
Qed.

Lemma answered_okPod (name : string) (pod : option Pod) :
  answered s name pod -> okPod s pod.
Proof. intros H. exists name. exact H. Qed.

Lemma okPod_no_lister (pod : option Pod) :
  PodLister s = None -> okPod s pod -> pod = None.
Proof.
  intros EL (name & H). destruct pod as [p|]; [|reflexivity].
  destruct H as (lister & tr & E & _). rewrite EL in E. discriminate.
Qed.

(** One lookup issues no eviction and leaves nil or its own answer. *)
Lemma lookupPod_run (name : string) (loc : locals) (w : world) :
  okPod s (fst loc) ->
  let R := lookupPod s name loc w in
  self (snd R) = self w /\
  answered s name (fst (snd (fst R))) /\
  exists new, log (snd R) = new ++ log w /\
              Forall is_pass_event new /\ evictions new = [].
Proof.
  intros Hok. cbv zeta. unfold lookupPod.
  destruct (PodLister s) as [lister|] eqn:EL.
  - rewrite bind_run, call_fst, call_snd.
    destruct (lister (log w) name) as [pod|err] eqn:EA; cbn [ret fst snd self log].
    + split; [reflexivity|].
      split; [exists lister, (log w); split; assumption|].
      exists [EvPodGet name]. repeat split. repeat constructor.
    + split; [reflexivity|]. split; [exact I|].
      exists [EvPodGet name]. repeat split. repeat constructor.
  - cbn [ret fst snd]. split; [reflexivity|].
    split; [rewrite (okPod_no_lister (fst loc) EL Hok); exact I|].
    exists []. repeat split. constructor.
Qed.

(** The polled lookup of a pod issues no eviction and ends with nil or
    with an answer of the lister for that pod. *)
Lemma poll_lookupPod (name : string) (n : nat) :
  forall (loc : locals) (w : world),
    okPod s (fst loc) ->
    let R := poll n (lookupPod s name) loc w in
    self (snd R) = self w /\
    answered s name (fst (fst R)) /\
    exists new, log (snd R) = new ++ log w /\
                Forall is_pass_event new /\ evictions new = [].
Proof.
  induction n as [|n IH]; intros loc w Hok; cbv zeta;
    rewrite poll_eq, bind_run;
    pose proof (lookupPod_run name loc w Hok) as P; cbv zeta in P;
    set (R := lookupPod s name loc w) in *;
    destruct P as (PS & PO & new & PL & PF & PE).
  - destruct (fst (fst R)); cbn [ret fst snd];
      (split; [exact PS|]; split; [exact PO|]; exists new; repeat split; assumption).
  - destruct (fst (fst R)); cbn [ret fst snd].
    + split; [exact PS|]. split; [exact PO|]. exists new. repeat split; assumption.
    + specialize (IH (snd (fst R)) (snd R) (answered_okPod name _ PO)). cbv zeta in IH.
      destruct IH as (IS & IO & new' & IL & IF & IE).
      split; [congruence|]. split; [exact IO|].
      exists (new' ++ new). split; [rewrite IL, PL, app_assoc; reflexivity|].
      split; [apply Forall_app; split; assumption|].
      rewrite evictions_app, IE, PE. reflexivity.
Qed.

Lemma evictPlacement_post (vpod : VPod) (pl : Placement) (loc : locals) (w : world) :
  okPod s (fst loc) ->
  let R := evictPlacement rt s vpod pl loc w in
  pass_post s [(vpod, pl)] w (fst R) (snd R).
Proof.
  intros Hok. cbv zeta. unfold evictPlacement.
  rewrite bind_run. cbn [get_self fst snd].
  rewrite bind_run. cbn [get_log fst snd].
  rewrite bind_run.
  pose proof (poll_lookupPod (PodName pl) (pollRetries rt (log w)) loc w Hok) as P.
  cbv zeta in P.
  set (R := poll (pollRetries rt (log w)) (lookupPod s (PodName pl)) loc w) in *.
  destruct P as (PS & PO & new & PL & PF & PE).
  rewrite bind_run, call_fst, call_snd. rewrite PS.
  set (pod := fst (fst R)) in *.
  assert (EV : evictions (EvEvict pod vpod pl :: new) = [(pod, vpod, pl)]).
  { rewrite evictions_cons, PE. reflexivity. }
  destruct (evictor (self w) (log (snd R)) pod vpod pl) as [err|] eqn:EE;
    cbn [ret fst snd self log].
  - split; [reflexivity|]. exists (EvEvict pod vpod pl :: new).
    split; [rewrite PL; reflexivity|].
    split; [constructor; [exact I|assumption]|].
    rewrite EV. split; [repeat constructor; exact PO|].
    split; [exists []; reflexivity|].
    exists (log (snd R)), pod, vpod, pl. exact EE.
  - split; [reflexivity|]. exists (EvEvict pod vpod pl :: new).
    split; [rewrite PL; reflexivity|].
    split; [constructor; [exact I|assumption]|].
    rewrite EV. split; [repeat constructor; exact PO|].
    split; [exists []; reflexivity|].
    split; [exact (answered_okPod _ _ PO)|reflexivity].
Qed.

Lemma forOrdinals_post (vpod : VPod) (pl : Placement) (fuel : nat) :
  forall (j : Z) (loc : locals) (w : world),
    okPod s (fst loc) ->
    let R := forOrdinals rt fuel s scaleUpFactor vpod pl j loc w in
    pass_post s (map (fun _ => (vpod, pl)) (hitsFrom rt fuel s scaleUpFactor pl j))
              w (fst R) (snd R).
Proof.
  induction fuel as [|fuel IH]; intros j loc w Hok; cbv zeta;
    cbn [forOrdinals hitsFrom].
  - cbn [ret fst snd map]. apply pass_nil, Hok.
  - destruct (j <? scaleUpFactor); [|cbn [ret fst snd map]; apply pass_nil, Hok].
    rewrite bind_run.
    destruct (OrdinalFromPodName rt (PodName pl) =? Int32.sub (LastOrdinal s) j).
    + pose proof (evictPlacement_post vpod pl loc w Hok) as P. cbv zeta in P.
      rewrite map_app. cbn [map].
      destruct (fst (evictPlacement rt s vpod pl loc w)) as [loc'|err] eqn:ER.
      * eapply pass_seq; [exact P|].
        apply IH. destruct P as (_ & _ & _ & _ & _ & _ & HO & _). exact HO.
      * cbn [ret fst snd]. apply pass_abort. exact P.
    + cbn [ret fst snd app]. apply IH, Hok.
Qed.

Lemma forPlacements_post (vpod : VPod) (placements : list Placement) :
  forall (loc : locals) (w : world),
    okPod s (fst loc) ->
    let R := forPlacements rt s scaleUpFactor vpod placements loc w in
    pass_post s (targetsOfVPod rt s scaleUpFactor vpod placements) w (fst R) (snd R).
Proof.
  induction placements as [|pl rest IH]; intros loc w Hok; cbv zeta;
    cbn [forPlacements targetsOfVPod flat_map].
  - cbn [ret fst snd]. apply pass_nil, Hok.
  - rewrite bind_run.
    pose proof (forOrdinals_post vpod pl (Z.to_nat scaleUpFactor) 0 loc w Hok) as P.
    cbv zeta in P. fold (targetsOfPlacement rt s scaleUpFactor vpod pl) in P.
    destruct (fst (forOrdinals rt (Z.to_nat scaleUpFactor) s scaleUpFactor vpod pl 0 loc w))
      as [loc'|err] eqn:ER.
    + eapply pass_seq; [exact P|].
      apply IH. destruct P as (_ & _ & _ & _ & _ & _ & HO & _). exact HO.
    + cbn [ret fst snd]. apply pass_abort. exact P.
Qed.

Lemma forVPods_post (vpods : list VPod) :
  forall (loc : locals) (w : world),
    okPod s (fst loc) ->
    let R := forVPods rt s scaleUpFactor vpods loc w in
    pass_post s (targets rt s scaleUpFactor vpods) w (fst R) (snd R).
Proof.
  induction vpods as [|vpod rest IH]; intros loc w Hok; cbv zeta;
    cbn [forVPods targets flat_map].
  - cbn [ret fst snd]. apply pass_nil, Hok.
  - rewrite bind_run.
    pose proof (forPlacements_post vpod (rev (GetPlacements vpod)) loc w Hok) as P.
    cbv zeta in P.
    destruct (fst (forPlacements rt s scaleUpFactor vpod (rev (GetPlacements vpod)) loc w))
      as [loc'|err] eqn:ER.
    + eapply pass_seq; [exact P|].
      apply IH. destruct P as (_ & _ & _ & _ & _ & _ & HO & _). exact HO.
    + cbn [ret fst snd]. apply pass_abort. exact P.
Qed.

(** [compact] after a successful listing of the vpods: the autoscaler is
    untouched, the evictions follow the targets in order, each with an
    admissible pod object, and an error is an error of the evictor. *)
Lemma compact_post (w : world) (vpods : list VPod) :
  vpodLister (self w) (log w) = inl vpods ->
  let R := compact rt s scaleUpFactor w in
  self (snd R) = self w /\
  exists new,
    log (snd R) = new ++ EvListVPods :: log w /\
    Forall is_pass_event new /\
    Forall (fun e => answered s (PodName (snd e)) (podOf e)) (evictions new) /\
    (exists rest, targets rt s scaleUpFactor vpods = map strip (evictions new) ++ rest) /\
    match fst R with
    | None => map strip (evictions new) = targets rt s scaleUpFactor vpods
    | Some err => exists tr pod vpod pl, evictor (self w) tr pod vpod pl = Some err
    end.
Proof.
  intros HL. cbv zeta. unfold compact.
  rewrite bind_run. cbn [get_self fst snd].
  rewrite bind_run, call_fst, call_snd, HL.
  rewrite bind_run.
  assert (Hnil : okPod s (fst (@None Pod, @None error)))
    by (exists EmptyString; exact I).
  pose proof (forVPods_post vpods (None, None)
                {| self := self w; log := EvListVPods :: log w |} Hnil) as P.
  cbv zeta in P.
  set (R := forVPods rt s scaleUpFactor vpods (None, None)
              {| self := self w; log := EvListVPods :: log w |}) in *.
  destruct P as (PS & new & PL & PF & PO & PP & PR). cbn [self log] in PS, PL, PR.
  destruct (fst R) as [loc'|err]; cbn [ret fst snd].
  - split; [exact PS|]. exists new. repeat split; try assumption. apply PR.
  - split; [exact PS|]. exists new. repeat split; assumption.
Qed.

(** [compact] in every case: the autoscaler is untouched and the calls
    are those of a pass, the listing of the vpods first. *)
Lemma compact_frame (w : world) :
  let R := compact rt s scaleUpFactor w in
  self (snd R) = self w /\
  exists new, log (snd R) = new ++ EvListVPods :: log w /\ Forall is_pass_event new.
Proof.
  cbv zeta. destruct (vpodLister (self w) (log w)) as [vpods|err] eqn:HL.
  - destruct (compact_post w vpods HL) as (PS & new & PL & PF & _).
    split; [exact PS|]. exists new. split; assumption.
  - unfold compact. rewrite bind_run. cbn [get_self fst snd].
    rewrite bind_run, call_fst, call_snd, HL.
    cbn [ret fst snd self log]. split; [reflexivity|]. exists []. split; [reflexivity|constructor].
Qed.

End Pass.

(* ================================================================== *)
(** ** Pod lookups that fail *)

Lemma answered_lookupsFail (s : State) (name : string) (pod : option Pod) :
  lookupsFail s name -> answered s name pod -> pod = None.
Proof.
  unfold lookupsFail, answered. intros HF HO.
  destruct pod as [p|]; [|reflexivity].
  destruct HO as (lister & tr & EL & EA). rewrite EL in HF.
  destruct (HF tr) as (err & EE). rewrite EE in EA. discriminate.
Qed.

(** C9.  In a pass, a placement whose pod lookups all fail, or any
    placement when the snapshot has no pod lister, is handed to the
    evictor with a nil pod.  The failure does not abort the pass: the
    evictions follow the placements of the window in order, an error of
    the pass is an error of the evictor, and with an evictor that does not
    fail the pass returns nil after the eviction of every placement of the
    window. *)
Theorem compact_tolerates_lookup_failure (rt : Runtime) (a : autoscaler) (s : State)
  (scaleUpFactor : Z) (tr : trace) (vpods : list VPod) :
  vpodLister a tr = inl vpods ->
  let R := run (compact rt s scaleUpFactor) a tr in
  exists done,
    evictions (log (snd R)) = evictions tr ++ done /\
    (forall pod vpod pl,
        In (pod, vpod, pl) done -> lookupsFail s (PodName pl) -> pod = None) /\
    (exists rest, targets rt s scaleUpFactor vpods = map strip done ++ rest) /\
    (forall err, fst R = Some err ->
                 exists tr' pod vpod pl, evictor a tr' pod vpod pl = Some err) /\
    ((forall tr' pod vpod pl, evictor a tr' pod vpod pl = None) ->
     fst R = None /\ map strip done = targets rt s scaleUpFactor vpods).
Proof.
  intros HL. cbv zeta. unfold run.
  destruct (compact_post rt s scaleUpFactor {| self := a; log := tr |} vpods HL)
    as (PS & new & PL & PF & PO & PP & PR).
  cbn [self log] in PS, PL, PR.
  set (R := compact rt s scaleUpFactor {| self := a; log := tr |}) in *.
  exists (evictions new).
  split; [rewrite PL, evictions_app, evictions_quiet by discriminate; reflexivity|].
  split; [|split; [exact PP|split]].
  - intros pod vpod pl Hin HF. rewrite Forall_forall in PO.
    specialize (PO _ Hin). cbn [snd podOf fst] in PO.
    eapply answered_lookupsFail; eassumption.
  - intros err E. rewrite E in PR. exact PR.
  - intros Hev. destruct (fst R) as [err|].
    + destruct PR as (tr' & pod & vpod & pl & EE). rewrite Hev in EE. discriminate.
    + split; [reflexivity|exact PR].
Qed.

Lemma compact_tolerates_lookup_failure_witness :
  let s := withFailingLister twoPods in
  let a := exampleAutoscaler s 2 true 0 [twoPlacements] in
  let R := run (compact exampleRuntime s 1) a [] in
  exists done,
    evictions (log (snd R)) = evictions [] ++ done /\
    (forall pod vpod pl,
        In (pod, vpod, pl) done -> lookupsFail s (PodName pl) -> pod = None) /\
    (exists rest, targets exampleRuntime s 1 [twoPlacements] = map strip done ++ rest) /\
    (forall err, fst R = Some err ->
                 exists tr' pod vpod pl, evictor a tr' pod vpod pl = Some err) /\
    ((forall tr' pod vpod pl, evictor a tr' pod vpod pl = None) ->
     fst R = None /\ map strip done = targets exampleRuntime s 1 [twoPlacements]).
Proof.
  intros s a R.
  apply (compact_tolerates_lookup_failure exampleRuntime a s 1 [] [twoPlacements]).
  reflexivity.
Defined.

(** The pass of the witness, run: the placement on the last pod is
    evicted with a nil pod after three failed lookups. *)
Lemma compact_with_failing_lister_run :
  let s := withFailingLister twoPods in
  let a := exampleAutoscaler s 2 true 0 [twoPlacements] in
  run (compact exampleRuntime s 1) a [] =
  (None,
   {| self := a;
      log := [ EvEvict None twoPlacements {| PodName := "adapter-1"; VReplicas := 1 |};
               EvPodGet "adapter-1"; EvPodGet "adapter-1"; EvPodGet "adapter-1";
               EvListVPods ] |}).
Proof. vm_compute. reflexivity. Qed.

(* ================================================================== *)
(** ** The window of the evictions *)

Lemma hitsFrom_spec (rt : Runtime) (s : State) (scaleUpFactor : Z) (pl : Placement)
  (fuel : nat) :
  forall j0 j, In j (hitsFrom rt fuel s scaleUpFactor pl j0) ->
               j0 <= j < scaleUpFactor /\
               OrdinalFromPodName rt (PodName pl) = Int32.sub (LastOrdinal s) j.
Proof.
  induction fuel as [|fuel IH]; intros j0 j; cbn [hitsFrom]; [intros []|].
  destruct (Z.ltb_spec j0 scaleUpFactor) as [Hlt|]; [|intros []].
  rewrite in_app_iff. intros [H|H].
  - destruct (Z.eqb_spec (OrdinalFromPodName rt (PodName pl)) (Int32.sub (LastOrdinal s) j0))
      as [E|]; [|destruct H].
    destruct H as [<-|[]]. split; [lia|exact E].
  - apply IH in H. destruct H as (H1 & H2). split; [lia|exact H2].
Qed.

Lemma targets_window (rt : Runtime) (s : State) (scaleUpFactor : Z)
  (vpods : list VPod) (vpod : VPod) (pl : Placement) :
  In (vpod, pl) (targets rt s scaleUpFactor vpods) ->
  exists j, 0 <= j < scaleUpFactor /\
            OrdinalFromPodName rt (PodName pl) = Int32.sub (LastOrdinal s) j.
Proof.
  unfold targets, targetsOfVPod, targetsOfPlacement.
  rewrite in_flat_map. intros (v & _ & H).
  rewrite in_flat_map in H. destruct H as (p & _ & H).
  rewrite in_map_iff in H. destruct H as (j & E & Hj).
  injection E as <- <-. exists j. eapply hitsFrom_spec. exact Hj.
Qed.

(** Tail-only eviction, the part of C2 that holds of every pass: an
    evicted placement sits on one of the last [scaleUpFactor] ordinals. *)
Lemma compact_evicts_only_window (rt : Runtime) (s : State) (scaleUpFactor : Z)
  (w : world) :
  is_int32 (LastOrdinal s) -> 1 <= LastOrdinal s -> is_int32 scaleUpFactor ->
  let R := compact rt s scaleUpFactor w in
  exists new,
    log (snd R) = new ++ log w /\
    forall pod vpod pl, In (pod, vpod, pl) (evictions new) ->
                        inWindow rt s scaleUpFactor pl.
Proof.
  intros IL HL If. cbv zeta.
  destruct (vpodLister (self w) (log w)) as [vpods|err] eqn:E.
  - destruct (compact_post rt s scaleUpFactor w vpods E)
      as (_ & new & PL & _ & _ & (rest & PP) & _).
    exists (new ++ [EvListVPods]). rewrite <- app_assoc. split; [exact PL|].
    intros pod vpod pl Hin.
    rewrite evictions_app in Hin. cbn [evictions flat_map rev app] in Hin.
    assert (Ht : In (vpod, pl) (targets rt s scaleUpFactor vpods)).
    { rewrite PP. apply in_or_app. left.
      apply (in_map strip) in Hin. exact Hin. }
    destruct (targets_window rt s scaleUpFactor vpods vpod pl Ht) as (j & Hj & Ho).
    exists j. split; [exact Hj|]. rewrite Ho. unfold Int32.sub. apply wrap_id.
    unfold is_int32, Int32.min_int, Int32.max_int in *. lia.
  - exists [EvListVPods]. unfold compact.
    rewrite bind_run. cbn [get_self fst snd].
    rewrite bind_run, call_fst, call_snd, E. cbn [ret fst snd self log].
    split; [reflexivity|]. intros pod vpod pl [].
Qed.

(** With a factor of 1 the window is the last ordinal alone. *)
Lemma inWindow_one (rt : Runtime) (s : State) (pl : Placement) :
  inWindow rt s 1 pl -> OrdinalFromPodName rt (PodName pl) = LastOrdinal s.
Proof. intros (j & Hj & E). rewrite E. lia. Qed.

(** C2.  The factor handed to [compact] under [MAXFILLUP] is the one
    computed from the priorities.  On [fourPods] it is 3: a scale-down
    tick evicts the placements on the ordinals 3, 2 and 1, although the
    last ordinal is 3 and only the last pod was checked to fit below. *)
Lemma maxfillup_evicts_below_last_pod :
  let a := exampleAutoscaler fourPods 4 true 0 [fourPlacements] in
  let w' := snd (run (doautoscale exampleRuntime true) a []) in
  SchedulerPolicy fourPods = MAXFILLUP /\
  LastOrdinal fourPods = 3 /\
  scaleUpFactorOf fourPods = 3 /\
  evictions (log w') =
    [ (None, fourPlacements, {| PodName := "adapter-3"; VReplicas := 5 |});
      (None, fourPlacements, {| PodName := "adapter-2"; VReplicas := 8 |});
      (None, fourPlacements, {| PodName := "adapter-1"; VReplicas := 8 |}) ] /\
  OrdinalFromPodName exampleRuntime "adapter-2" = 2 /\
  OrdinalFromPodName exampleRuntime "adapter-1" = 1.
Proof. vm_compute. repeat split. Qed.

(* ================================================================== *)
(** ** The grace window *)

Lemma attemptCompact_run (rt : Runtime) (s : State) (scaleUpFactor : Z) (w : world) :
  let t := time_Now rt (log w) in
  attemptCompact rt s scaleUpFactor w =
  (tt, snd (compact rt s scaleUpFactor
              {| self := set_lastCompactAttempt t (self w); log := EvNow t :: log w |})).
Proof.
  cbv zeta. unfold attemptCompact.
  rewrite bind_run, call_fst, call_snd.
  rewrite bind_run. cbn [get_self fst snd self].
  rewrite bind_run. cbn [put_self fst snd self log].
  rewrite bind_run. reflexivity.
Qed.

(** [mayCompact] reads the clock, then either returns or attempts a
    compaction; it attempts one only past the grace window. *)
Lemma mayCompact_cases (rt : Runtime) (s : State) (scaleUpFactor : Z) (w : world) :
  let t1 := time_Now rt (log w) in
  let w1 := {| self := self w; log := EvNow t1 :: log w |} in
  mayCompact rt s scaleUpFactor w = (tt, w1) \/
  (lastCompactAttempt (self w) + refreshPeriod (self w) <= t1 /\
   1 <= LastOrdinal s /\
   mayCompact rt s scaleUpFactor w = attemptCompact rt s scaleUpFactor w1).
Proof.
  cbv zeta. unfold mayCompact.
  rewrite bind_run. cbn [get_self fst snd].
  rewrite bind_run, call_fst, call_snd.
  destruct (Z.ltb_spec (time_Now rt (log w))
                       (lastCompactAttempt (self w) + refreshPeriod (self w)));
    [left; reflexivity|].
  destruct (Z.ltb_spec (LastOrdinal s) 1); [left; reflexivity|].
  cbn [orb].
  destruct (Z.of_nat (List.length (SchedulablePods s)) <=? scaleUpFactor);
    [left; reflexivity|].
  destruct (SchedulerPolicy s).
  - destruct (_ >=? _); [right; repeat split; assumption|left; reflexivity].
  - destruct (SchedPolicy s); [|left; reflexivity].
    destruct (lastXPods _ _ _ _ _ _) as [freeCapacity usedInLastXPods].
    destruct (_ && _); [right; repeat split; assumption|left; reflexivity].
Qed.

(** Inside the grace window a pass evicts nothing and leaves the
    autoscaler as it is. *)
Lemma doautoscale_in_grace_window (rt : Runtime) (attemptScaleDown : bool) (w : world) :
  (forall h, time_Now rt h < lastCompactAttempt (self w) + refreshPeriod (self w)) ->
  let R := doautoscale rt attemptScaleDown w in
  self (snd R) = self w /\ evictions (log (snd R)) = evictions (log w).
Proof.
  intros Hclock. cbv zeta. unfold doautoscale.
  rewrite bind_run. cbn [get_self fst snd].
  destruct (isLeader (self w)); cbn [negb]; [|split; reflexivity].
  rewrite bind_run, call_fst, call_snd.
  destruct (stateAccessor (self w) (log w)) as [state|err];
    [|cbn [ret fst snd self log]; split; [reflexivity|apply evictions_quiet; discriminate]].
  rewrite bind_run, call_fst, call_snd. cbn [log self].
  destruct (statefulSetClient_GetScale (self w) (EvState :: log w)) as [scale|err];
    [|cbn [ret fst snd self log]; split;
      [reflexivity|rewrite !evictions_quiet by discriminate; reflexivity]].
  destruct (negb _).
  - rewrite call_snd. cbn [self log]. split; [reflexivity|].
    rewrite !evictions_quiet by discriminate. reflexivity.
  - destruct attemptScaleDown;
      [|cbn [ret fst snd self log]; split;
        [reflexivity|rewrite !evictions_quiet by discriminate; reflexivity]].
    rewrite bind_run. cbn [ret fst snd].
    set (w2 := {| self := self w; log := EvGetScale :: EvState :: log w |}).
    destruct (mayCompact_cases rt state (scaleUpFactorOf state) w2) as [E|(Hpast & _)].
    + rewrite E. unfold w2. cbn [snd self log]. split; [reflexivity|].
      rewrite !evictions_quiet by discriminate. reflexivity.
    + exfalso. unfold w2 in Hpast. cbn [self log] in Hpast.
      specialize (Hclock (EvGetScale :: EvState :: log w)). lia.
Qed.

Lemma syncAutoscale_in_grace_window (rt : Runtime) (attemptScaleDown : bool) (w : world) :
  (forall h, time_Now rt h < lastCompactAttempt (self w) + refreshPeriod (self w)) ->
  let R := syncAutoscale rt attemptScaleDown w in
  self (snd R) = self w /\ evictions (log (snd R)) = evictions (log w).
Proof.
  intros Hclock. cbv zeta. unfold syncAutoscale.
  rewrite bind_run. cbn [get_log fst snd].
  generalize (pollRetries rt (log w)) as n. generalize (@None error) as lastErr.
  revert w Hclock.
  cut (forall n w lastErr,
          (forall h, time_Now rt h < lastCompactAttempt (self w) + refreshPeriod (self w)) ->
          let R := poll n (fun _ : option error =>
                             bind (doautoscale rt attemptScaleDown)
                                  (fun err => ret (is_nil err, err))) lastErr w in
          self (snd R) = self w /\ evictions (log (snd R)) = evictions (log w)).
  { intros H w Hclock lastErr n. apply H, Hclock. }
  induction n as [|n IH]; intros w lastErr Hclock; cbv zeta;
    rewrite poll_eq, bind_run, bind_run; cbn [ret fst snd];
    destruct (doautoscale_in_grace_window rt attemptScaleDown w Hclock) as (DS & DE).
  - destruct (is_nil _); cbn [ret fst snd]; split; assumption.
  - destruct (is_nil _); cbn [ret fst snd]; [split; assumption|].
    destruct (IH (snd (doautoscale rt attemptScaleDown w))
                 (fst (doautoscale rt attemptScaleDown w))) as (IS & IE).
    + rewrite DS. exact Hclock.
    + split; congruence.
Qed.

(** C7.  When [mayCompact] attempts a compaction, the eviction pass
    starts from an autoscaler whose [lastCompactAttempt] is already the
    time just read, and the attempt keeps that time whether the pass
    succeeds or fails.  A later pass whose clock is still below that time
    plus [refreshPeriod] evicts nothing. *)
Theorem mayCompact_consumes_grace_window (rt : Runtime) (a : autoscaler) (s : State)
  (scaleUpFactor : Z) (tr : trace) :
  let w' := snd (run (mayCompact rt s scaleUpFactor) a tr) in
  (exists new, log w' = new ++ tr /\ In EvListVPods new) ->
  (exists t1 t pass,
      lastCompactAttempt a + refreshPeriod a <= t1 /\
      w' = snd (compact rt s scaleUpFactor
                  {| self := set_lastCompactAttempt t a;
                     log := EvNow t :: EvNow t1 :: tr |}) /\
      log w' = pass ++ EvListVPods :: EvNow t :: EvNow t1 :: tr /\
      Forall is_pass_event pass /\
      self w' = set_lastCompactAttempt t a) /\
  forall (rt2 : Runtime) (a2 : autoscaler) (attemptScaleDown : bool) (tr2 : trace),
    lastCompactAttempt a2 = lastCompactAttempt (self w') ->
    refreshPeriod a2 = refreshPeriod a ->
    (forall h, time_Now rt2 h < lastCompactAttempt (self w') + refreshPeriod a) ->
    evictions (log (snd (run (doautoscale rt2 attemptScaleDown) a2 tr2))) = evictions tr2 /\
    evictions (log (snd (run (syncAutoscale rt2 attemptScaleDown) a2 tr2))) = evictions tr2.
Proof.
  cbv zeta. intros (new & Hlog & Hin). split.
  - unfold run in *.
    destruct (mayCompact_cases rt s scaleUpFactor {| self := a; log := tr |})
      as [E|(Hpast & _ & E)]; cbn [self log] in *.
    + exfalso. rewrite E in Hlog. cbn [snd log] in Hlog.
      change (EvNow (time_Now rt tr) :: tr) with ([EvNow (time_Now rt tr)] ++ tr) in Hlog.
      apply app_inv_tail in Hlog. subst new. destruct Hin as [H|[]]. discriminate H.
    + rewrite E, attemptCompact_run. cbn [snd self log].
      set (t1 := time_Now rt tr). set (t := time_Now rt (EvNow t1 :: tr)).
      destruct (compact_frame rt s scaleUpFactor
                  {| self := set_lastCompactAttempt t a; log := EvNow t :: EvNow t1 :: tr |})
        as (CS & pass & CL & CF).
      cbn [self log] in CS, CL.
      exists t1, t, pass. repeat split; assumption.
  - intros rt2 a2 attemptScaleDown tr2 EL EP Hclock. rewrite <- EL, <- EP in Hclock.
    unfold run. split.
    + apply (doautoscale_in_grace_window rt2 attemptScaleDown {| self := a2; log := tr2 |}).
      exact Hclock.
    + apply (syncAutoscale_in_grace_window rt2 attemptScaleDown {| self := a2; log := tr2 |}).
      exact Hclock.
Qed.

Lemma mayCompact_consumes_grace_window_witness :
  let a := exampleAutoscaler twoPods 2 true 0 [twoPlacements] in
  let w' := snd (run (mayCompact exampleRuntime twoPods 1) a []) in
  lastCompactAttempt (self w') = 1001 /\
  evictions (log w') = [(None, twoPlacements, {| PodName := "adapter-1"; VReplicas := 1 |})] /\
  evictions (log (snd (run (doautoscale (frozenClock 1050) true) (self w') (log w'))))
  = evictions (log w').
Proof.
  intros a w'.
  destruct (mayCompact_consumes_grace_window exampleRuntime a twoPods 1 []) as (H1 & H2).
  - exists [EvEvict None twoPlacements {| PodName := "adapter-1"; VReplicas := 1 |};
            EvListVPods; EvNow 1001; EvNow 1000].
    split; [vm_compute; reflexivity|]. right. left. reflexivity.
  - destruct H1 as (t1 & t & pass & _ & _ & _ & _ & ES).
    destruct (H2 (frozenClock 1050) (self w') true (log w')) as (HD & _).
    + reflexivity.
    + vm_compute. reflexivity.
    + intros h. vm_compute. reflexivity.
    + split; [vm_compute; reflexivity|]. split; [vm_compute; reflexivity|]. exact HD.
Defined.

(* ================================================================== *)
(** ** The trigger *)

Lemma AutoscaleN_full (n p : nat) :
  Trigger.AutoscaleN n {| Trigger.cap := 1; Trigger.buffered := 1; Trigger.parked := p |}
  = {| Trigger.cap := 1; Trigger.buffered := 1; Trigger.parked := n + p |}.
Proof.
  revert p. induction n as [|n IH]; intros p; [reflexivity|].
  cbn [Trigger.AutoscaleN]. unfold Trigger.Autoscale, Trigger.send. cbn.
  rewrite IH. f_equal. lia.
Qed.

Lemma wakes_full (p fuel : nat) :
  Trigger.wakes (S p + fuel)
    {| Trigger.cap := 1; Trigger.buffered := 1; Trigger.parked := p |} = S p.
Proof.
  induction p as [|p IH]; cbn [Trigger.wakes Nat.add Trigger.recv Trigger.buffered Trigger.parked Trigger.cap].
  - destruct fuel; reflexivity.
  - f_equal. exact IH.
Qed.

(** C8.  [Autoscale] sends on the one-slot channel without a default
    case: a call that finds the slot full parks its caller, its value is
    kept for the next receive, and [n] calls before a pass wake the loop
    [n] times. *)
Lemma Autoscale_blocks_on_full_slot :
  let first := Trigger.Autoscale Trigger.newTrigger in
  let second := Trigger.Autoscale (snd first) in
  fst first = Trigger.Returned /\
  fst second = Trigger.Blocked /\
  Trigger.parked (snd second) = 1%nat /\
  forall n fuel, Trigger.wakes (n + fuel) (Trigger.AutoscaleN n Trigger.newTrigger) = n.
Proof.
  cbv zeta. split; [reflexivity|]. split; [reflexivity|]. split; [reflexivity|].
  intros [|n] fuel.
  - destruct fuel; reflexivity.
  - cbn [Trigger.AutoscaleN]. unfold Trigger.Autoscale, Trigger.send, Trigger.newTrigger,
      Trigger.make. cbn [Nat.ltb Nat.leb Trigger.buffered Trigger.cap Trigger.parked snd].
    rewrite AutoscaleN_full, Nat.add_0_r. apply wakes_full.
Qed.


(* ================================================================== *)
(** ** The outcomes of a pass *)

(** The branches of [doautoscale], one by one. *)
Lemma doautoscale_cases (rt : Runtime) (attemptScaleDown : bool) (w : world) :
  let a := self w in
  let read := EvGetScale :: EvState :: log w in
  let R := doautoscale rt attemptScaleDown w in
  (isLeader a = false /\ R = (None, w)) \/
  (isLeader a = true /\
   exists err, stateAccessor a (log w) = inr err /\
               R = (Some err, {| self := a; log := EvState :: log w |})) \/
  (isLeader a = true /\
   exists state err,
     stateAccessor a (log w) = inl state /\
     statefulSetClient_GetScale a (EvState :: log w) = inr err /\
     R = (Some err, {| self := a; log := read |})) \/
  (isLeader a = true /\
   exists state scale,
     stateAccessor a (log w) = inl state /\
     statefulSetClient_GetScale a (EvState :: log w) = inl scale /\
     let v := newReplicasOf rt a state scale attemptScaleDown in
     (v <> Spec_Replicas scale /\
      R = (statefulSetClient_UpdateScale a read {| Spec_Replicas := v |},
           {| self := a; log := EvUpdateScale v :: read |})) \/
     (v = Spec_Replicas scale /\ attemptScaleDown = true /\
      R = (None, snd (mayCompact rt state (scaleUpFactorOf state)
                        {| self := a; log := read |}))) \/
     (v = Spec_Replicas scale /\ attemptScaleDown = false /\
      R = (None, {| self := a; log := read |}))).
Proof.
  cbv zeta. unfold doautoscale.
  rewrite bind_run. cbn [get_self fst snd].
  destruct (isLeader (self w)) eqn:EL; cbn [negb]; [|left; split; reflexivity].
  right. rewrite bind_run, call_fst, call_snd.
  destruct (stateAccessor (self w) (log w)) as [state|err] eqn:ES.
  2:{ left. split; [reflexivity|]. exists err. split; reflexivity. }
  right. rewrite bind_run, call_fst, call_snd. cbn [log self].
  destruct (statefulSetClient_GetScale (self w) (EvState :: log w)) as [scale|err] eqn:EG.
  2:{ left. split; [reflexivity|]. exists state, err. repeat split; reflexivity. }
  right. split; [reflexivity|]. exists state, scale.
  split; [reflexivity|]. split; [reflexivity|].
  destruct (Z.eqb_spec (newReplicasOf rt (self w) state scale attemptScaleDown)
                       (Spec_Replicas scale)) as [E|E]; cbn [negb].
  - right. destruct attemptScaleDown.
    + left. split; [exact E|]. split; [reflexivity|].
      rewrite bind_run. reflexivity.
    + right. repeat split; assumption.
  - left. split; [exact E|]. reflexivity.
Qed.

(** The events of [mayCompact] are clock readings and calls of a pass;
    it changes [lastCompactAttempt] only. *)
Lemma mayCompact_frame (rt : Runtime) (s : State) (scaleUpFactor : Z) (w : world) :
  let w' := snd (mayCompact rt s scaleUpFactor w) in
  (exists new, log w' = new ++ log w /\ Forall is_compaction_event new) /\
  (self w' = self w \/
   exists t1 t,
     t1 = time_Now rt (log w) /\
     t = time_Now rt (EvNow t1 :: log w) /\
     lastCompactAttempt (self w) + refreshPeriod (self w) <= t1 /\
     self w' = set_lastCompactAttempt t (self w)).
Proof.
  cbv zeta.
  destruct (mayCompact_cases rt s scaleUpFactor w) as [E|(Hpast & _ & E)]; rewrite E.
  - cbn [snd self log]. split.
    + exists [EvNow (time_Now rt (log w))]. split; [reflexivity|]. repeat constructor.
    + left. reflexivity.
  - rewrite attemptCompact_run. cbn [snd self log].
    set (t1 := time_Now rt (log w)) in *. set (t := time_Now rt (EvNow t1 :: log w)).
    destruct (compact_frame rt s scaleUpFactor
                {| self := set_lastCompactAttempt t (self w);
                   log := EvNow t :: EvNow t1 :: log w |}) as (CS & pass & CL & CF).
    cbn [self log] in CS, CL. split.
    + exists (pass ++ [EvListVPods; EvNow t; EvNow t1]).
      rewrite <- app_assoc. split; [exact CL|].
      apply Forall_app. split; [|repeat constructor].
      revert CF. apply Forall_impl. intros ev. destruct ev; cbn; trivial.
    + right. exists t1, t. repeat split; assumption.
Qed.

(** X1 ([doautoscale], lines 169-243).
    A wake by the trigger reads the snapshot and the scale and at most
    writes the scale; the value it writes is above the replicas it read:
    the pass never scales down, never compacts, and leaves the autoscaler
    as it is. *)
Theorem trigger_pass_only_scales_up (rt : Runtime) (w : world) :
  let R := doautoscale rt false w in
  self (snd R) = self w /\
  exists new,
    log (snd R) = new ++ log w /\
    Forall is_trigger_event new /\
    evictions new = [] /\
    forall v, In (EvUpdateScale v) new ->
              exists scale,
                statefulSetClient_GetScale (self w) (EvState :: log w) = inl scale /\
                Spec_Replicas scale < v.
Proof.
  cbv zeta.
  destruct (doautoscale_cases rt false w)
    as [(_ & E)|[(_ & err & _ & E)|[(_ & state & err & _ & _ & E)
       |(_ & state & scale & ES & EG & [(Hne & E)|[(_ & Habs & _)|(_ & _ & E)]])]]];
    try discriminate Habs; rewrite E; cbn [snd self log].
  - split; [reflexivity|]. exists []. repeat split; try constructor. intros v [].
  - split; [reflexivity|]. exists [EvState]. repeat split; repeat constructor.
    intros v [H|[]]. discriminate H.
  - split; [reflexivity|]. exists [EvGetScale; EvState]. repeat split; repeat constructor.
    intros v [H|[H|[]]]; discriminate H.
  - split; [reflexivity|].
    exists [EvUpdateScale (newReplicasOf rt (self w) state scale false);
            EvGetScale; EvState].
    repeat split; repeat constructor.
    intros v [H|[H|[H|[]]]]; try discriminate H. injection H as <-.
    exists scale. split; [exact EG|].
    unfold newReplicasOf, gatedReplicas in *. cbn [negb andb] in *.
    destruct (Z.ltb_spec (sizedReplicas rt (self w) state (scaleUpFactorOf state))
                         (Spec_Replicas scale)); [contradiction|lia].
  - split; [reflexivity|]. exists [EvGetScale; EvState]. repeat split; repeat constructor.
    intros v [H|[H|[]]]; discriminate H.
Qed.

(** X2 ([doautoscale], lines 169-243).
    A pass fails only with the error of the snapshot accessor, of the
    read of the scale or of the write of the scale, and that call is then
    its last one; a failure inside the compactor never fails the pass.  A
    failed pass leaves the autoscaler as it is. *)
Theorem doautoscale_error_origin (rt : Runtime) (attemptScaleDown : bool) (w : world)
  (err : error) :
  let a := self w in
  let R := doautoscale rt attemptScaleDown w in
  fst R = Some err ->
  self (snd R) = a /\
  ((stateAccessor a (log w) = inr err /\ log (snd R) = EvState :: log w) \/
   (statefulSetClient_GetScale a (EvState :: log w) = inr err /\
    log (snd R) = EvGetScale :: EvState :: log w) \/
   (exists v,
       statefulSetClient_UpdateScale a (EvGetScale :: EvState :: log w)
         {| Spec_Replicas := v |} = Some err /\
       log (snd R) = EvUpdateScale v :: EvGetScale :: EvState :: log w)).
Proof.
  cbv zeta.
  destruct (doautoscale_cases rt attemptScaleDown w)
    as [(_ & E)|[(_ & err' & ES & E)|[(_ & state & err' & ES & EG & E)
       |(_ & state & scale & ES & EG & [(Hne & E)|[(_ & _ & E)|(_ & _ & E)]])]]];
    rewrite E; cbn [fst snd self log]; intros H; try discriminate H.
  - injection H as ->. split; [reflexivity|]. left. split; [exact ES|reflexivity].
  - injection H as ->. split; [reflexivity|]. right. left. split; [exact EG|reflexivity].
  - split; [reflexivity|]. right. right.
    exists (newReplicasOf rt (self w) state scale attemptScaleDown).
    split; [exact H|reflexivity].
Qed.

Lemma doautoscale_error_origin_witness :
  let a := withFailingUpdate (exampleAutoscaler twoPods 0 true 0 []) in
  let R := doautoscale exampleRuntime false {| self := a; log := [] |} in
  self (snd R) = a /\
  ((stateAccessor a [] = inr "conflict"%string /\ log (snd R) = [EvState]) \/
   (statefulSetClient_GetScale a [EvState] = inr "conflict"%string /\
    log (snd R) = [EvGetScale; EvState]) \/
   (exists v,
       statefulSetClient_UpdateScale a [EvGetScale; EvState]
         {| Spec_Replicas := v |} = Some "conflict"%string /\
       log (snd R) = [EvUpdateScale v; EvGetScale; EvState])).
Proof.
  intros a R.
  apply (doautoscale_error_origin exampleRuntime false {| self := a; log := [] |}
           "conflict"%string).
  vm_compute. reflexivity.
Defined.

(** X3 ([doautoscale], lines 223-242, [mayCompact]).
    In one pass the scale is written or the compactor runs, never both:
    a pass that does not reach the compactor issues reads and at most one
    write of the scale and leaves the autoscaler as it is; a pass that
    reaches the compactor is a scale-down tick that returns nil and has
    written nothing. *)
Theorem pass_writes_or_compacts (rt : Runtime) (attemptScaleDown : bool) (w : world) :
  let R := doautoscale rt attemptScaleDown w in
  (self (snd R) = self w /\
   exists new, log (snd R) = new ++ log w /\ Forall is_trigger_event new /\
               (List.length (scale_writes new) <= 1)%nat) \/
  (attemptScaleDown = true /\ fst R = None /\
   exists new, log (snd R) = new ++ EvGetScale :: EvState :: log w /\
               Forall is_compaction_event new).
Proof.
  cbv zeta.
  destruct (doautoscale_cases rt attemptScaleDown w)
    as [(_ & E)|[(_ & err' & ES & E)|[(_ & state & err' & ES & EG & E)
       |(_ & state & scale & ES & EG & [(Hne & E)|[(_ & Hs & E)|(_ & _ & E)]])]]];
    rewrite E; cbn [fst snd self log].
  - left. split; [reflexivity|]. exists []. repeat split; [constructor|cbn; lia].
  - left. split; [reflexivity|]. exists [EvState].
    repeat split; [repeat constructor|cbn; lia].
  - left. split; [reflexivity|]. exists [EvGetScale; EvState].
    repeat split; [repeat constructor|cbn; lia].
  - left. split; [reflexivity|].
    exists [EvUpdateScale (newReplicasOf rt (self w) state scale attemptScaleDown);
            EvGetScale; EvState].
    repeat split; [repeat constructor|cbn; lia].
  - right. split; [exact Hs|]. split; [reflexivity|].
    destruct (mayCompact_frame rt state (scaleUpFactorOf state)
                {| self := self w; log := EvGetScale :: EvState :: log w |})
      as ((new & HL & HF) & _).
    cbn [log] in HL. exists new. split; assumption.
  - left. split; [reflexivity|]. exists [EvGetScale; EvState].
    repeat split; [repeat constructor|cbn; lia].
Qed.

(* ================================================================== *)
(** ** Further facts on the sizing *)

(** X4 ([doautoscale], lines 199-221).
    Under [POLICY_BASED] the sizing never goes down to the last ordinal:
    with a factor of at least 1 and [LastOrdinal + scaleUpFactor] an
    [int32], the sized value and the value a pass ends with are above
    [LastOrdinal], whatever the floating-point steps give; without pending
    replicas the sized value is [LastOrdinal + 1]. *)
Theorem policy_based_covers_last_ordinal (rt : Runtime) (a : autoscaler)
  (state : State) (scaleUpFactor : Z) :
  SchedulerPolicy state = POLICY_BASED ->
  1 <= scaleUpFactor ->
  is_int32 (LastOrdinal state) ->
  LastOrdinal state + scaleUpFactor <= Int32.max_int ->
  let sized := sizedReplicas rt a state scaleUpFactor in
  LastOrdinal state < sized /\
  (forall attemptScaleDown current,
      LastOrdinal state < gatedReplicas attemptScaleDown sized current) /\
  (TotalPending state <= 0 -> sized = LastOrdinal state + 1).
Proof.
  intros Hkind Hf IL Hsum sized.
  assert (E1 : Int32.add (LastOrdinal state) 1 = LastOrdinal state + 1).
  { unfold Int32.add. apply wrap_id.
    unfold is_int32, Int32.min_int, Int32.max_int in *. lia. }
  assert (Ef : Int32.add (LastOrdinal state) scaleUpFactor
               = LastOrdinal state + scaleUpFactor).
  { unfold Int32.add. apply wrap_id.
    unfold is_int32, Int32.min_int, Int32.max_int in *. lia. }
  assert (HS : LastOrdinal state < sized).
  { unfold sized, sizedReplicas. rewrite Hkind.
    match goal with |- _ < (if ?c <=? _ then _ else _) =>
      destruct (Z.leb_spec c (LastOrdinal state)) end; lia. }
  split; [exact HS|]. split.
  - intros attemptScaleDown current. unfold gatedReplicas.
    destruct (negb attemptScaleDown); cbn [andb]; [|exact HS].
    destruct (Z.ltb_spec sized current); lia.
  - intros Hp. unfold sized, sizedReplicas. rewrite Hkind.
    destruct (Z.ltb_spec 0 (TotalPending state)); [lia|].
    rewrite E1. destruct (Z.leb_spec (LastOrdinal state + 1) (LastOrdinal state)); lia.
Qed.

Lemma policy_based_covers_last_ordinal_witness :
  let a := exampleAutoscaler sixPods 6 true 0 [sixPlacements] in
  let sized := sizedReplicas exampleRuntime a sixPods 3 in
  5 < sized /\
  (forall attemptScaleDown current, 5 < gatedReplicas attemptScaleDown sized current) /\
  (0 <= 0 -> sized = 5 + 1).
Proof.
  intros a sized.
  refine (policy_based_covers_last_ordinal exampleRuntime a sixPods 3 _ _ _ _).
  - reflexivity.
  - lia.
  - split; discriminate.
  - discriminate.
Defined.

(** X5 ([minNonZeroInt], lines 352-360).
    [minNonZeroInt] gives the least of the capacity and the strictly
    positive elements of the slice: it never exceeds the capacity, it is
    the capacity or a strictly positive element, no strictly positive
    element is below it, and it is the capacity for a slice (the empty one
    included) without a strictly positive element below the capacity. *)
Theorem minNonZeroInt_least (a : autoscaler) (slice : list Z) :
  let m := minNonZeroInt a slice in
  m <= capacity a /\
  (m = capacity a \/ (In m slice /\ 0 < m)) /\
  (forall v, In v slice -> 0 < v -> m <= v) /\
  ((forall v, In v slice -> 0 < v -> capacity a <= v) -> m = capacity a).
Proof.
  cbv zeta. rewrite minNonZeroInt_general.
  pose proof (leastPositive_spec slice) as S.
  destruct (leastPositive slice) as [l|].
  - destruct S as (Hin & Hpos & Hmin).
    split; [lia|]. split; [|split].
    + destruct (Z.min_spec (capacity a) l) as [[_ ->]|[_ ->]];
        [left; reflexivity|right; split; assumption].
    + intros v Hv Hv0. specialize (Hmin v Hv Hv0). lia.
    + intros H. specialize (H l Hin Hpos). lia.
  - split; [lia|]. split; [left; reflexivity|]. split; [|reflexivity].
    intros v Hv Hv0. specialize (S v Hv). lia.
Qed.

(* ================================================================== *)
(** ** When the compactor runs *)

Lemma sub32_exact (x y : Z) : is_int32 (x - y) -> Int32.sub x y = x - y.
Proof. apply wrap_id. Qed.


(** The conditions under which [mayCompact] goes on to a compaction. *)
Lemma mayCompact_attempt_conditions (rt : Runtime) (s : State) (scaleUpFactor : Z)
  (w : world) :
  let t1 := time_Now rt (log w) in
  let w1 := {| self := self w; log := EvNow t1 :: log w |} in
  mayCompact rt s scaleUpFactor w = (tt, w1) \/
  (mayCompact rt s scaleUpFactor w = attemptCompact rt s scaleUpFactor w1 /\
   lastCompactAttempt (self w) + refreshPeriod (self w) <= t1 /\
   1 <= LastOrdinal s /\
   scaleUpFactor < Z.of_nat (List.length (SchedulablePods s)) /\
   match SchedulerPolicy s with
   | MAXFILLUP =>
       (Int32.sub (FreeCapacity s) (Free s (LastOrdinal s))
        >=? Int32.sub (Capacity s) (Free s (LastOrdinal s))) = true
   | POLICY_BASED =>
       SchedPolicy s <> None /\
       let X := lastXPods (Z.to_nat scaleUpFactor) s scaleUpFactor 0
                          (FreeCapacity s) (Int32.mul (Capacity s) scaleUpFactor) in
       (fst X >=? snd X) = true /\
       (Int32.sub (Replicas s) scaleUpFactor >=? scaleUpFactor) = true
   end).
Proof.
  cbv zeta. unfold mayCompact.
  rewrite bind_run. cbn [get_self fst snd].
  rewrite bind_run, call_fst, call_snd.
  destruct (Z.ltb_spec (time_Now rt (log w))
                       (lastCompactAttempt (self w) + refreshPeriod (self w)));
    [left; reflexivity|].
  destruct (Z.ltb_spec (LastOrdinal s) 1); [left; reflexivity|].
  cbn [orb].
  destruct (Z.leb_spec (Z.of_nat (List.length (SchedulablePods s))) scaleUpFactor);
    [left; reflexivity|].
  destruct (SchedulerPolicy s).
  - destruct (_ >=? _) eqn:ET; [|left; reflexivity].
    right. repeat split; try assumption; lia.
  - destruct (SchedPolicy s) as [p|]; [|left; reflexivity].
    destruct (lastXPods _ _ _ _ _ _) as [freeCapacity usedInLastXPods] eqn:EX.
    cbn [fst snd].
    destruct (_ && _) eqn:ET; [|left; reflexivity].
    apply andb_true_iff in ET. destruct ET as (E1 & E2).
    right. repeat split; try assumption; try lia. discriminate.
Qed.






(* ================================================================== *)
(** ** Further facts on the eviction pass *)

Lemma lookups_app (new old : trace) :
  lookups (new ++ old) = lookups old ++ lookups new.
Proof. unfold lookups. rewrite flat_map_app, rev_app_distr. reflexivity. Qed.

Section PassInduction.

Variable rt : Runtime.
Variable s : State.
Variable scaleUpFactor : Z.

(** A relation between the worlds before and after a stretch of the
    pass holds of the whole pass when it holds of no step, is kept by
    sequencing and holds of each eviction step. *)
Variable P : world -> locals + error -> world -> Prop.
Hypothesis P_refl : forall w loc, P w (inl loc) w.
Hypothesis P_trans :
  forall w loc w1 r w2, P w (inl loc) w1 -> P w1 r w2 -> P w r w2.
Hypothesis P_step :
  forall vpod pl loc w,
    P w (fst (evictPlacement rt s vpod pl loc w))
        (snd (evictPlacement rt s vpod pl loc w)).

Lemma forOrdinals_ind (vpod : VPod) (pl : Placement) (fuel : nat) :
  forall j loc w,
    P w (fst (forOrdinals rt fuel s scaleUpFactor vpod pl j loc w))
        (snd (forOrdinals rt fuel s scaleUpFactor vpod pl j loc w)).
Proof.
  induction fuel as [|fuel IH]; intros j loc w; cbn [forOrdinals].
  - apply P_refl.
  - destruct (j <? scaleUpFactor); [|apply P_refl].
    rewrite bind_run.
    destruct (OrdinalFromPodName rt (PodName pl) =? Int32.sub (LastOrdinal s) j).
    + pose proof (P_step vpod pl loc w) as H.
      destruct (fst (evictPlacement rt s vpod pl loc w)) as [loc'|err].
      * eapply P_trans; [exact H|apply IH].
      * exact H.
    + cbn [ret fst snd]. apply IH.
Qed.

Lemma forPlacements_ind (vpod : VPod) (placements : list Placement) :
  forall loc w,
    P w (fst (forPlacements rt s scaleUpFactor vpod placements loc w))
        (snd (forPlacements rt s scaleUpFactor vpod placements loc w)).
Proof.
  induction placements as [|pl rest IH]; intros loc w; cbn [forPlacements].
  - apply P_refl.
  - rewrite bind_run.
    pose proof (forOrdinals_ind vpod pl (Z.to_nat scaleUpFactor) 0 loc w) as H.
    destruct (fst (forOrdinals rt (Z.to_nat scaleUpFactor) s scaleUpFactor vpod pl 0 loc w))
      as [loc'|err].
    + eapply P_trans; [exact H|apply IH].
    + exact H.
Qed.

Lemma forVPods_ind (vpods : list VPod) :
  forall loc w,
    P w (fst (forVPods rt s scaleUpFactor vpods loc w))
        (snd (forVPods rt s scaleUpFactor vpods loc w)).
Proof.
  induction vpods as [|vpod rest IH]; intros loc w; cbn [forVPods].
  - apply P_refl.
  - rewrite bind_run.
    pose proof (forPlacements_ind vpod (rev (GetPlacements vpod)) loc w) as H.
    destruct (fst (forPlacements rt s scaleUpFactor vpod (rev (GetPlacements vpod)) loc w))
      as [loc'|err].
    + eapply P_trans; [exact H|apply IH].
    + exact H.
Qed.

End PassInduction.

(** A lookup leaves the autoscaler as it is and issues lookups of the one
    name. *)
Lemma poll_lookupPod_frame (s : State) (name : string) (n : nat) :
  forall loc w,
    let R := poll n (lookupPod s name) loc w in
    self (snd R) = self w /\
    exists new, log (snd R) = new ++ log w /\ Forall (eq (EvPodGet name)) new.
Proof.
  assert (L : forall loc w,
             let R := lookupPod s name loc w in
             self (snd R) = self w /\
             exists new, log (snd R) = new ++ log w /\ Forall (eq (EvPodGet name)) new).
  { intros loc w. cbv zeta. unfold lookupPod. destruct (PodLister s) as [lister|].
    - rewrite bind_run, call_fst, call_snd.
      destruct (lister (log w) name); cbn [ret fst snd self log];
        (split; [reflexivity|]; exists [EvPodGet name]; split; [reflexivity|];
         repeat constructor).
    - cbn [ret fst snd]. split; [reflexivity|]. exists []. split; [reflexivity|constructor]. }
  induction n as [|n IH]; intros loc w; cbv zeta; rewrite poll_eq, bind_run;
    destruct (L loc w) as (LS & new & LL & LF);
    destruct (fst (fst (lookupPod s name loc w))); cbn [ret fst snd];
    try (split; [exact LS|]; exists new; split; assumption).
  destruct (IH (snd (fst (lookupPod s name loc w))) (snd (lookupPod s name loc w)))
    as (IS & new' & IL & IF).
  split; [congruence|]. exists (new' ++ new).
  split; [rewrite IL, LL, app_assoc; reflexivity|apply Forall_app; split; assumption].
Qed.

(** An eviction step, spelled out: the lookup, then the call of the
    evictor with the pod the lookup left, whose answer decides the
    outcome. *)
Lemma evictPlacement_run (rt : Runtime) (s : State) (vpod : VPod) (pl : Placement)
  (loc : locals) (w : world) :
  let L := poll (pollRetries rt (log w)) (lookupPod s (PodName pl)) loc w in
  let pod := fst (fst L) in
  evictPlacement rt s vpod pl loc w =
  (match evictor (self w) (log (snd L)) pod vpod pl with
   | Some err => inr err
   | None => inl (pod, None)
   end,
   {| self := self w; log := EvEvict pod vpod pl :: log (snd L) |}).
Proof.
  cbv zeta. unfold evictPlacement.
  rewrite bind_run. cbn [get_self fst snd].
  rewrite bind_run. cbn [get_log fst snd].
  rewrite bind_run, bind_run, call_fst, call_snd.
  destruct (poll_lookupPod_frame s (PodName pl) (pollRetries rt (log w)) loc w) as (LS & _).
  rewrite LS.
  destruct (evictor (self w) _ _ vpod pl); reflexivity.
Qed.

Lemma fails_last_refl (w : world) (loc : locals) : fails_last w (inl loc) w.
Proof. split; [reflexivity|discriminate]. Qed.

Lemma fails_last_trans (w : world) (loc : locals) (w1 : world) (r : locals + error)
  (w2 : world) :
  fails_last w (inl loc) w1 -> fails_last w1 r w2 -> fails_last w r w2.
Proof.
  intros (S1 & _) (S2 & A2). split; [congruence|].
  intros err He. rewrite <- S1. apply A2, He.
Qed.

Lemma fails_last_step (rt : Runtime) (s : State) (vpod : VPod) (pl : Placement)
  (loc : locals) (w : world) :
  fails_last w (fst (evictPlacement rt s vpod pl loc w))
             (snd (evictPlacement rt s vpod pl loc w)).
Proof.
  rewrite evictPlacement_run. cbn [fst snd]. split; [reflexivity|].
  intros err He. cbn [log].
  match type of He with
  | match ?ans with _ => _ end = _ => destruct ans as [e'|] eqn:EA
  end; [|discriminate He].
  injection He as ->. eexists _, vpod, pl, _. split; [reflexivity|exact EA].
Qed.

(** X8 ([compact], lines 305-335).
    An error of [compact] is the error of its last call: the listing of
    the vpods, after which nothing is evicted, or an eviction, after which
    no further placement is looked up or evicted.  The autoscaler is left
    as it is. *)
Theorem compact_error_is_last_call (rt : Runtime) (s : State) (scaleUpFactor : Z)
  (w : world) (err : error) :
  let R := compact rt s scaleUpFactor w in
  fst R = Some err ->
  self (snd R) = self w /\
  ((vpodLister (self w) (log w) = inr err /\ log (snd R) = EvListVPods :: log w) \/
   (exists pod vpod pl tl,
       log (snd R) = EvEvict pod vpod pl :: tl /\
       evictor (self w) tl pod vpod pl = Some err)).
Proof.
  cbv zeta. unfold compact.
  rewrite bind_run. cbn [get_self fst snd].
  rewrite bind_run, call_fst, call_snd.
  destruct (vpodLister (self w) (log w)) as [vpods|err'] eqn:EL.
  2:{ cbn [ret fst snd self log]. intros H. injection H as ->.
      split; [reflexivity|]. left. split; reflexivity. }
  rewrite bind_run.
  set (w1 := {| self := self w; log := EvListVPods :: log w |}).
  pose proof (forVPods_ind rt s scaleUpFactor fails_last fails_last_refl
                fails_last_trans (fails_last_step rt s) vpods (None, None) w1)
    as (HS & HA).
  destruct (fst (forVPods rt s scaleUpFactor vpods (None, None) w1)) as [loc'|err'];
    cbn [ret fst snd]; intros He; [discriminate He|].
  injection He as ->. split; [exact HS|]. right.
  apply (HA err). reflexivity.
Qed.

Lemma compact_error_is_last_call_witness :
  let a := withFailingEvictor (exampleAutoscaler sixPods 6 true 0 [sixPlacements]) in
  let w := {| self := a; log := [] |} in
  let R := compact exampleRuntime sixPods 3 w in
  self (snd R) = a /\
  ((vpodLister a [] = inr "eviction refused"%string /\ log (snd R) = [EvListVPods]) \/
   (exists pod vpod pl tl,
       log (snd R) = EvEvict pod vpod pl :: tl /\
       evictor a tl pod vpod pl = Some "eviction refused"%string)).
Proof.
  intros a w R.
  apply (compact_error_is_last_call exampleRuntime sixPods 3 w "eviction refused"%string).
  vm_compute. reflexivity.
Defined.

Lemma poll_lookupPod_found (s : State) (lister : trace -> string -> Pod + error)
  (name : string) (n : nat) (loc : locals) (w : world) (p : Pod) :
  PodLister s = Some lister ->
  lister (log w) name = inl p ->
  poll n (lookupPod s name) loc w =
  ((Some p, None), {| self := self w; log := EvPodGet name :: log w |}).
Proof.
  intros EL EA. rewrite poll_eq, bind_run. unfold lookupPod. rewrite EL.
  rewrite bind_run, call_fst, call_snd, EA. reflexivity.
Qed.

Lemma finds_pods_refl (lister : trace -> string -> Pod + error) (w : world)
  (loc : locals) :
  finds_pods lister w (inl loc) w.
Proof. exists []. repeat split. constructor. Qed.

Lemma finds_pods_trans (lister : trace -> string -> Pod + error) (w : world)
  (loc : locals) (w1 : world) (r : locals + error) (w2 : world) :
  finds_pods lister w (inl loc) w1 -> finds_pods lister w1 r w2 ->
  finds_pods lister w r w2.
Proof.
  intros (new1 & L1 & K1 & F1) (new2 & L2 & K2 & F2). exists (new2 ++ new1).
  split; [rewrite L2, L1, app_assoc; reflexivity|].
  rewrite lookups_app, evictions_app, map_app, K1, K2.
  split; [reflexivity|apply Forall_app; split; assumption].
Qed.

Lemma finds_pods_step (rt : Runtime) (s : State)
  (lister : trace -> string -> Pod + error) (vpod : VPod) (pl : Placement)
  (loc : locals) (w : world) :
  PodLister s = Some lister ->
  (forall tr name, exists p, lister tr name = inl p) ->
  finds_pods lister w (fst (evictPlacement rt s vpod pl loc w))
             (snd (evictPlacement rt s vpod pl loc w)).
Proof.
  intros EL Hall. destruct (Hall (log w) (PodName pl)) as (p & EA).
  rewrite evictPlacement_run.
  rewrite (poll_lookupPod_found s lister (PodName pl) _ loc w p EL EA).
  cbn [fst snd log].
  exists [EvEvict (Some p) vpod pl; EvPodGet (PodName pl)].
  split; [reflexivity|]. split; [reflexivity|].
  repeat constructor. exists p, (log w). split; [reflexivity|exact EA].
Qed.

(** X9 ([compact], lines 312-333).
    With a pod lister that finds every pod, a pass looks each evicted
    placement up exactly once, by its pod name and in the order of the
    evictions, and hands to the evictor a pod the lister answered for that
    name: a found pod is not looked up again and is never replaced by
    nil. *)
Theorem compact_hands_found_pods (rt : Runtime) (s : State) (scaleUpFactor : Z)
  (lister : trace -> string -> Pod + error) (w : world) :
  PodLister s = Some lister ->
  (forall tr name, exists p, lister tr name = inl p) ->
  let R := compact rt s scaleUpFactor w in
  exists new,
    log (snd R) = new ++ log w /\
    lookups new = map (fun e => PodName (snd e)) (evictions new) /\
    Forall (fun e => exists p tr,
                podOf e = Some p /\ lister tr (PodName (snd e)) = inl p)
           (evictions new).
Proof.
  intros EL Hall. cbv zeta. unfold compact.
  rewrite bind_run. cbn [get_self fst snd].
  rewrite bind_run, call_fst, call_snd.
  destruct (vpodLister (self w) (log w)) as [vpods|err'].
  2:{ cbn [ret fst snd self log]. exists [EvListVPods].
      repeat split. constructor. }
  rewrite bind_run.
  set (w1 := {| self := self w; log := EvListVPods :: log w |}).
  pose proof (forVPods_ind rt s scaleUpFactor (finds_pods lister)
                (finds_pods_refl lister) (finds_pods_trans lister)
                (fun vpod pl loc w0 => finds_pods_step rt s lister vpod pl loc w0 EL Hall)
                vpods (None, None) w1)
    as (new & HL & HK & HF).
  assert (G : exists new0,
             log (snd (forVPods rt s scaleUpFactor vpods (None, None) w1))
             = new0 ++ log w /\
             lookups new0 = map (fun e => PodName (snd e)) (evictions new0) /\
             Forall (fun e => exists p tr,
                         podOf e = Some p /\ lister tr (PodName (snd e)) = inl p)
                    (evictions new0)).
  { exists (new ++ [EvListVPods]). rewrite <- app_assoc. split; [exact HL|].
    rewrite lookups_app, evictions_app. cbn [lookups evictions flat_map rev app].
    split; assumption. }
  destruct (fst (forVPods rt s scaleUpFactor vpods (None, None) w1));
    cbn [ret fst snd]; exact G.
Qed.

Lemma compact_hands_found_pods_witness :
  let s := withFindingLister sixPods in
  let a := exampleAutoscaler s 6 true 0 [sixPlacements] in
  let R := compact exampleRuntime s 3 {| self := a; log := [] |} in
  exists new,
    log (snd R) = new ++ [] /\
    lookups new = map (fun e => PodName (snd e)) (evictions new) /\
    Forall (fun e => exists p tr,
                podOf e = Some p /\
                (fun (_ : trace) name => @inl Pod error {| PodObjName := name |})
                  tr (PodName (snd e)) = inl p)
           (evictions new).
Proof.
  intros s a R.
  apply (compact_hands_found_pods exampleRuntime s 3
           (fun _ name => inl {| PodObjName := name |}) {| self := a; log := [] |}).
  - reflexivity.
  - intros tr name. eexists. reflexivity.
Defined.

(** The run of the witness: each of the three placements of the window
    is looked up once and evicted with the pod found. *)
Example compact_with_finding_lister_run :
  let s := withFindingLister sixPods in
  let a := exampleAutoscaler s 6 true 0 [sixPlacements] in
  log (snd (compact exampleRuntime s 3 {| self := a; log := [] |})) =
  [ EvEvict (Some {| PodObjName := "adapter-3" |}) sixPlacements
            {| PodName := "adapter-3"; VReplicas := 3 |};
    EvPodGet "adapter-3";
    EvEvict (Some {| PodObjName := "adapter-4" |}) sixPlacements
            {| PodName := "adapter-4"; VReplicas := 3 |};
    EvPodGet "adapter-4";
    EvEvict (Some {| PodObjName := "adapter-5" |}) sixPlacements
            {| PodName := "adapter-5"; VReplicas := 3 |};
    EvPodGet "adapter-5";
    EvListVPods ].
Proof. vm_compute. reflexivity. Qed.

(* ================================================================== *)
(** ** The window, in closed form *)

Lemma hitsFrom_closed (rt : Runtime) (s : State) (scaleUpFactor : Z) (pl : Placement) :
  is_int32 (LastOrdinal s) -> - 1 <= LastOrdinal s -> is_int32 scaleUpFactor ->
  let d := LastOrdinal s - OrdinalFromPodName rt (PodName pl) in
  forall fuel j0,
    0 <= j0 ->
    hitsFrom rt fuel s scaleUpFactor pl j0 =
    if (j0 <=? d) && (d <? scaleUpFactor) && (d <? j0 + Z.of_nat fuel)
    then [d] else [].
Proof.
  intros IL HL If d. unfold is_int32, Int32.min_int, Int32.max_int in *.
  induction fuel as [|fuel IH]; intros j0 Hj; cbn [hitsFrom].
  - destruct (Z.leb_spec j0 d), (Z.ltb_spec d scaleUpFactor),
      (Z.ltb_spec d (j0 + Z.of_nat 0)); cbn [andb]; try reflexivity; lia.
  - destruct (Z.ltb_spec j0 scaleUpFactor) as [Hlt|Hge].
    + rewrite sub32_exact
        by (unfold is_int32, Int32.min_int, Int32.max_int; lia).
      rewrite IH by lia. rewrite Nat2Z.inj_succ.
      destruct (Z.eqb_spec (OrdinalFromPodName rt (PodName pl)) (LastOrdinal s - j0));
        destruct (Z.leb_spec (j0 + 1) d), (Z.leb_spec j0 d), (Z.ltb_spec d scaleUpFactor),
          (Z.ltb_spec d (j0 + 1 + Z.of_nat fuel)),
          (Z.ltb_spec d (j0 + Z.succ (Z.of_nat fuel)));
        cbn [andb app]; try reflexivity; try lia.
      f_equal. lia.
    + destruct (Z.leb_spec j0 d), (Z.ltb_spec d scaleUpFactor); cbn [andb];
        try reflexivity; lia.
Qed.

Lemma targets_windowTargets (rt : Runtime) (s : State) (scaleUpFactor : Z)
  (vpods : list VPod) :
  is_int32 (LastOrdinal s) -> - 1 <= LastOrdinal s -> is_int32 scaleUpFactor ->
  targets rt s scaleUpFactor vpods = windowTargets rt s scaleUpFactor vpods.
Proof.
  intros IL HL If. unfold targets, windowTargets.
  apply flat_map_ext. intros vpod. unfold targetsOfVPod.
  induction (rev (GetPlacements vpod)) as [|pl rest IH]; [reflexivity|].
  cbn [flat_map filter]. rewrite IH. unfold targetsOfPlacement.
  rewrite (hitsFrom_closed rt s scaleUpFactor pl IL HL If) by lia.
  unfold inWindowb.
  unfold is_int32, Int32.min_int, Int32.max_int in *.
  destruct (Z.leb_spec 0 (LastOrdinal s - OrdinalFromPodName rt (PodName pl))),
    (Z.ltb_spec (LastOrdinal s - OrdinalFromPodName rt (PodName pl)) scaleUpFactor),
    (Z.ltb_spec (LastOrdinal s - OrdinalFromPodName rt (PodName pl))
                (0 + Z.of_nat (Z.to_nat scaleUpFactor))),
    (Z.ltb_spec (LastOrdinal s - scaleUpFactor) (OrdinalFromPodName rt (PodName pl))),
    (Z.leb_spec (OrdinalFromPodName rt (PodName pl)) (LastOrdinal s));
    cbn [andb map app]; try reflexivity; lia.
Qed.

(** X10 ([compact], lines 312-333).
    What a pass evicts, in closed form.  With an [int32] last ordinal of
    at least -1 and an [int32] factor, the evictions of a pass follow, in
    order, the placements whose ordinal lies in
    [(LastOrdinal - scaleUpFactor, LastOrdinal]], vpod by vpod and each
    vpod from its last placement to its first; every such placement is
    evicted once when the evictor does not fail, and no other placement
    is ever evicted. *)
Theorem compact_evicts_the_window (rt : Runtime) (a : autoscaler) (s : State)
  (scaleUpFactor : Z) (tr : trace) (vpods : list VPod) :
  is_int32 (LastOrdinal s) -> - 1 <= LastOrdinal s -> is_int32 scaleUpFactor ->
  vpodLister a tr = inl vpods ->
  let R := run (compact rt s scaleUpFactor) a tr in
  exists done,
    evictions (log (snd R)) = evictions tr ++ done /\
    (exists rest, windowTargets rt s scaleUpFactor vpods = map strip done ++ rest) /\
    ((forall tr' pod vpod pl, evictor a tr' pod vpod pl = None) ->
     fst R = None /\ map strip done = windowTargets rt s scaleUpFactor vpods).
Proof.
  intros IL HL If HV. cbv zeta. unfold run.
  destruct (compact_post rt s scaleUpFactor {| self := a; log := tr |} vpods HV)
    as (PS & new & PL & PF & PO & PP & PR).
  cbn [self log] in PS, PL, PR.
  rewrite (targets_windowTargets rt s scaleUpFactor vpods IL HL If) in PP, PR.
  set (R := compact rt s scaleUpFactor {| self := a; log := tr |}) in *.
  exists (evictions new).
  split; [rewrite PL, evictions_app, evictions_quiet by discriminate; reflexivity|].
  split; [exact PP|].
  intros Hev. destruct (fst R) as [err|].
  - destruct PR as (tr' & pod & vpod & pl & EE). rewrite Hev in EE. discriminate.
  - split; [reflexivity|exact PR].
Qed.

Lemma compact_evicts_the_window_witness :
  let a := exampleAutoscaler fourPods 4 true 0 [fourPlacements] in
  let R := run (compact exampleRuntime fourPods 2) a [] in
  exists done,
    evictions (log (snd R)) = evictions [] ++ done /\
    (exists rest,
        windowTargets exampleRuntime fourPods 2 [fourPlacements] = map strip done ++ rest) /\
    ((forall tr' pod vpod pl, evictor a tr' pod vpod pl = None) ->
     fst R = None /\
     map strip done = windowTargets exampleRuntime fourPods 2 [fourPlacements]).
Proof.
  intros a R.
  apply (compact_evicts_the_window exampleRuntime a fourPods 2 [] [fourPlacements]).
  - split; discriminate.
  - discriminate.
  - split; discriminate.
  - reflexivity.
Defined.

(* ================================================================== *)
(** ** The retried pass and the driver loop *)

Lemma syncAutoscale_poll (rt : Runtime) (attemptScaleDown : bool) (w : world) :
  syncAutoscale rt attemptScaleDown w =
  poll (pollRetries rt (log w))
       (fun _ : option error =>
          bind (doautoscale rt attemptScaleDown) (fun err => ret (is_nil err, err)))
       None w.
Proof. unfold syncAutoscale. rewrite bind_run. reflexivity. Qed.

(** X11 ([syncAutoscale], lines 153-167).
    [syncAutoscale] does not retry a pass that succeeded: when the first
    pass returns nil, it is the only one, and [syncAutoscale] returns nil
    in the world that pass left. *)
Theorem syncAutoscale_stops_at_success (rt : Runtime) (attemptScaleDown : bool)
  (w : world) :
  fst (doautoscale rt attemptScaleDown w) = None ->
  syncAutoscale rt attemptScaleDown w = (None, snd (doautoscale rt attemptScaleDown w)).
Proof.
  intros H. rewrite syncAutoscale_poll, poll_eq, bind_run, bind_run.
  cbn [ret fst snd]. rewrite H. reflexivity.
Qed.

Lemma syncAutoscale_stops_at_success_witness :
  let a := exampleAutoscaler twoPods 0 true 0 [] in
  syncAutoscale exampleRuntime false {| self := a; log := [] |} =
  (None, {| self := a; log := [EvUpdateScale 1; EvGetScale; EvState] |}).
Proof.
  intros a.
  apply (syncAutoscale_stops_at_success exampleRuntime false {| self := a; log := [] |}).
  vm_compute. reflexivity.
Defined.

(** X12 ([syncAutoscale], lines 153-167).
    What [syncAutoscale] returns is what its last pass returned, error
    or nil, in the world that pass left. *)
Theorem syncAutoscale_returns_last_pass (rt : Runtime) (attemptScaleDown : bool)
  (w : world) :
  exists w0, syncAutoscale rt attemptScaleDown w = doautoscale rt attemptScaleDown w0.
Proof.
  rewrite syncAutoscale_poll.
  generalize (pollRetries rt (log w)) as n. generalize (@None error) as lastErr.
  intros lastErr n. revert lastErr w.
  induction n as [|n IH]; intros lastErr w; rewrite poll_eq, bind_run, bind_run;
    cbn [ret fst snd].
  - exists w. destruct (doautoscale rt attemptScaleDown w) as [[err|] w'];
      reflexivity.
  - destruct (doautoscale rt attemptScaleDown w) as [[err|] w'] eqn:E;
      cbn [is_nil fst snd ret].
    + apply IH.
    + exists w. symmetry. exact E.
Qed.

(** A retried pass woken by the trigger leaves the autoscaler as it is
    and issues reads and writes of the scale only. *)
Lemma syncAutoscale_trigger_frame (rt : Runtime) (w : world) :
  let R := syncAutoscale rt false w in
  self (snd R) = self w /\
  exists new, log (snd R) = new ++ log w /\ Forall is_trigger_event new.
Proof.
  assert (D : forall w0,
             self (snd (doautoscale rt false w0)) = self w0 /\
             exists new, log (snd (doautoscale rt false w0)) = new ++ log w0 /\
                         Forall is_trigger_event new).
  { intros w0.
    destruct (doautoscale_cases rt false w0)
      as [(_ & E)|[(_ & err & _ & E)|[(_ & state & err & _ & _ & E)
         |(_ & state & scale & ES & EG & [(Hne & E)|[(_ & Habs & _)|(_ & _ & E)]])]]];
      try discriminate Habs; rewrite E; cbn [snd self log];
      (split; [reflexivity|]).
    - exists []. split; [reflexivity|constructor].
    - exists [EvState]. split; [reflexivity|repeat constructor].
    - exists [EvGetScale; EvState]. split; [reflexivity|repeat constructor].
    - exists [EvUpdateScale (newReplicasOf rt (self w0) state scale false);
              EvGetScale; EvState]. split; [reflexivity|repeat constructor].
    - exists [EvGetScale; EvState]. split; [reflexivity|repeat constructor]. }
  cbv zeta. rewrite syncAutoscale_poll.
  generalize (pollRetries rt (log w)) as n. generalize (@None error) as lastErr.
  intros lastErr n. revert lastErr w.
  induction n as [|n IH]; intros lastErr w; rewrite poll_eq, bind_run, bind_run;
    cbn [ret fst snd]; destruct (D w) as (DS & new & DL & DF).
  - destruct (is_nil _); cbn [ret fst snd]; (split; [exact DS|]; exists new; split; assumption).
  - destruct (is_nil _); cbn [ret fst snd];
      [split; [exact DS|]; exists new; split; assumption|].
    destruct (IH (fst (doautoscale rt false w)) (snd (doautoscale rt false w)))
      as (IS & new' & IL & IF).
    split; [congruence|]. exists (new' ++ new).
    split; [rewrite IL, DL, app_assoc; reflexivity|apply Forall_app; split; assumption].
Qed.

(** X13 ([Start], lines 129-145).
    Wakes by the trigger never compact.  Over wakes without a timer tick
    [Start] issues no clock reading, no listing of the vpods, no pod
    lookup and no eviction, and leaves the autoscaler, its
    [lastCompactAttempt] included, as it is. *)
Theorem Start_trigger_wakes_never_compact (rt : Runtime) (wakes : list wake) (w : world) :
  Forall is_wake_by_trigger wakes ->
  let R := Start rt wakes w in
  self (snd R) = self w /\
  exists new, log (snd R) = new ++ log w /\
              Forall is_trigger_event new /\ evictions new = [].
Proof.
  intros HW. revert w.
  assert (Q : forall new : trace, Forall is_trigger_event new -> evictions new = []).
  { induction 1 as [|ev new Hev _ IH]; [reflexivity|].
    rewrite evictions_quiet; [exact IH|]. intros pod vpod pl ->. exact Hev. }
  induction HW as [|k wakes Hk _ IH]; intros w; cbv zeta.
  - cbn [Start ret fst snd]. split; [reflexivity|]. exists []. repeat split. constructor.
  - destruct k; [| destruct Hk |].
    + cbn [Start ret fst snd]. split; [reflexivity|]. exists []. repeat split. constructor.
    + cbn [Start]. rewrite bind_run.
      destruct (syncAutoscale_trigger_frame rt w) as (SS & new & SL & SF).
      destruct (IH (snd (syncAutoscale rt false w))) as (IS & new' & IL & IF & _).
      split; [congruence|]. exists (new' ++ new).
      split; [rewrite IL, SL, app_assoc; reflexivity|].
      assert (F : Forall is_trigger_event (new' ++ new))
        by (apply Forall_app; split; assumption).
      split; [exact F|apply Q, F].
Qed.

Lemma Start_trigger_wakes_never_compact_witness :
  let a := exampleAutoscaler sixPods 6 true 0 [sixPlacements] in
  let R := Start exampleRuntime [TriggerFired; TriggerFired; CtxDone]
                 {| self := a; log := [] |} in
  self (snd R) = a /\
  exists new, log (snd R) = new ++ [] /\
              Forall is_trigger_event new /\ evictions new = [].
Proof.
  intros a.
  apply (Start_trigger_wakes_never_compact exampleRuntime
           [TriggerFired; TriggerFired; CtxDone] {| self := a; log := [] |}).
  repeat constructor.
Defined.

(** X14 ([Start], lines 129-145).
    Cancellation ends the loop: the wakes that follow [ctx.Done] are not
    served. *)
Theorem Start_stops_at_cancellation (rt : Runtime) (served ignored : list wake)
  (w : world) :
  Start rt (served ++ CtxDone :: ignored) w = Start rt served w.
Proof.
  revert w. induction served as [|k served IH]; intros w; [reflexivity|].
  destruct k; cbn [app Start]; [reflexivity| |];
    rewrite !bind_run; apply IH.
Qed.

(** X15 ([Start], [syncAutoscale], [doautoscale] lines 175-177).
    An autoscaler that is not the leader does nothing, however it is
    woken: the retried pass returns nil at its first attempt and [Start]
    serves any wakes without a call to a collaborator. *)
Theorem not_leader_is_idle (rt : Runtime) (w : world) :
  isLeader (self w) = false ->
  (forall attemptScaleDown, syncAutoscale rt attemptScaleDown w = (None, w)) /\
  (forall wakes, Start rt wakes w = (tt, w)).
Proof.
  intros H.
  assert (D : forall attemptScaleDown, doautoscale rt attemptScaleDown w = (None, w)).
  { intros attemptScaleDown. unfold doautoscale.
    rewrite bind_run. cbn [get_self fst snd]. rewrite H. reflexivity. }
  assert (Y : forall attemptScaleDown, syncAutoscale rt attemptScaleDown w = (None, w)).
  { intros attemptScaleDown.
    rewrite syncAutoscale_poll, poll_eq, bind_run, bind_run, D. reflexivity. }
  split; [exact Y|].
  induction wakes as [|k wakes IH]; [reflexivity|].
  destruct k; cbn [Start]; [reflexivity| |]; rewrite bind_run, Y; exact IH.
Qed.

Lemma not_leader_is_idle_witness :
  let built := newAutoscaler exampleRuntime (exampleKube 6) (exampleConfig [sixPlacements])
                             (fun _ => inl sixPods) [] in
  let w := {| self := fst built; log := snd built |} in
  (forall attemptScaleDown, syncAutoscale exampleRuntime attemptScaleDown w = (None, w)) /\
  (forall wakes, Start exampleRuntime wakes w = (tt, w)).
Proof.
  intros built w. apply (not_leader_is_idle exampleRuntime w). reflexivity.
Defined.



(** X17 ([newAutoscaler], lines 121-125, [mayCompact], lines 249-257).
    The first compaction is not delayed.  [newAutoscaler] sets
    [lastCompactAttempt] a minute more than [refreshPeriod] before its own
    clock reading: at any later reading that is not over a minute earlier,
    [mayCompact] is past the grace window, and under [MAXFILLUP] it starts
    the pass as soon as the last pod fits below. *)
Theorem first_compaction_not_delayed (rt : Runtime) (kube : string -> StatefulSetInterface)
  (cfg : Config) (acc : trace -> State + error) (tr h : trace) (s : State)
  (scaleUpFactor : Z) :
  let a := fst (newAutoscaler rt kube cfg acc tr) in
  time_Now rt tr <= time_Now rt h + time_Minute ->
  1 <= LastOrdinal s ->
  scaleUpFactor < Z.of_nat (List.length (SchedulablePods s)) ->
  SchedulerPolicy s = MAXFILLUP ->
  (Int32.sub (FreeCapacity s) (Free s (LastOrdinal s))
   >=? Int32.sub (Capacity s) (Free s (LastOrdinal s))) = true ->
  lastCompactAttempt a + refreshPeriod a = time_Now rt tr - time_Minute /\
  exists t1 t pass,
    log (snd (run (mayCompact rt s scaleUpFactor) a h))
    = pass ++ EvListVPods :: EvNow t :: EvNow t1 :: h /\
    Forall is_pass_event pass.
Proof.
  cbv zeta. intros Hclock HL Hpods Hkind Hfit.
  split; [cbn [newAutoscaler fst lastCompactAttempt refreshPeriod]; lia|].
  unfold run.
  set (a := fst (newAutoscaler rt kube cfg acc tr)).
  destruct (mayCompact_attempt_conditions rt s scaleUpFactor {| self := a; log := h |})
    as [E|(E & _)]; cbn [self log] in E.
  - exfalso. revert E. unfold mayCompact.
    rewrite bind_run. cbn [get_self fst snd].
    rewrite bind_run, call_fst, call_snd. cbn [self log].
    destruct (Z.ltb_spec (time_Now rt h) (lastCompactAttempt a + refreshPeriod a)) as [Hlt|_].
    { exfalso. unfold a in Hlt.
      cbn [newAutoscaler fst lastCompactAttempt refreshPeriod] in Hlt. lia. }
    destruct (Z.ltb_spec (LastOrdinal s) 1); [lia|]. cbn [orb].
    destruct (Z.leb_spec (Z.of_nat (List.length (SchedulablePods s))) scaleUpFactor); [lia|].
    rewrite Hkind, Hfit, attemptCompact_run. cbn [self log].
    intros E. apply (f_equal (fun R => log (snd R))) in E. cbn [snd log] in E.
    match type of E with
    | log (snd (compact rt s scaleUpFactor ?w0)) = _ =>
        destruct (compact_frame rt s scaleUpFactor w0) as (_ & pass & CL & _)
    end.
    rewrite CL in E. cbn [log] in E.
    apply (f_equal (@List.length event)) in E.
    rewrite length_app in E. cbn [List.length] in E. lia.
  - rewrite E, attemptCompact_run. cbn [snd self log].
    match goal with
    | |- exists _ _ _, log (snd (compact rt s scaleUpFactor ?w0)) = _ /\ _ =>
        destruct (compact_frame rt s scaleUpFactor w0) as (_ & pass & CL & CF)
    end.
    cbn [log] in CL. eexists _, _, pass. split; [exact CL|exact CF].
Qed.

Lemma first_compaction_not_delayed_witness :
  let a := fst (newAutoscaler exampleRuntime (exampleKube 2) (exampleConfig [twoPlacements])
                              (fun _ => inl twoPods) []) in
  lastCompactAttempt a + refreshPeriod a = time_Now exampleRuntime [] - time_Minute /\
  exists t1 t pass,
    log (snd (run (mayCompact exampleRuntime twoPods 1) a [EvNow 1000]))
    = pass ++ EvListVPods :: EvNow t :: EvNow t1 :: [EvNow 1000] /\
    Forall is_pass_event pass.
Proof.
  intros a.
  apply (first_compaction_not_delayed exampleRuntime (exampleKube 2)
           (exampleConfig [twoPlacements]) (fun _ => inl twoPods) [] [EvNow 1000]
           twoPods 1).
  - vm_compute. discriminate.
  - vm_compute. discriminate.
  - vm_compute. reflexivity.
  - reflexivity.
  - vm_compute. reflexivity.
Defined.

(* ================================================================== *)
(** ** The broker ingress handler *)

Import Ingress.

(** *** The path of the request *)

Lemma Split_slash_noSlash (s : string) :
  noSlash s = true -> Split_slash s = [s].
Proof.
  induction s as [|c r IH]; [reflexivity|].
  cbn [noSlash Split_slash]. intros H.
  apply andb_true_iff in H as [Hc Hr]. apply negb_true_iff in Hc.
  rewrite Hc, (IH Hr). reflexivity.
Qed.

Lemma Split_slash_app (a b : string) :
  noSlash a = true ->
  Split_slash (a ++ String slash b) = a :: Split_slash b.
Proof.
  induction a as [|c r IH]; cbn [noSlash Split_slash append]; intros H.
  - rewrite Ascii.eqb_refl. reflexivity.
  - apply andb_true_iff in H as [Hc Hr]. apply negb_true_iff in Hc.
    rewrite Hc, (IH Hr). reflexivity.
Qed.

Lemma TrimSuffix_slash_noSlash (s : string) :
  noSlash s = true -> TrimSuffix_slash s = s.
Proof.
  induction s as [|c r IH]; [reflexivity|].
  cbn [noSlash]. intros H.
  apply andb_true_iff in H as [Hc Hr]. apply negb_true_iff in Hc.
  cbn [TrimSuffix_slash]. destruct r as [|c' r'].
  - rewrite Hc. reflexivity.
  - rewrite (IH Hr). reflexivity.
Qed.

Lemma TrimSuffix_slash_app (p s : string) :
  s <> EmptyString ->
  TrimSuffix_slash (p ++ s) = (p ++ TrimSuffix_slash s)%string.
Proof.
  intros Hs. induction p as [|c r IH]; [reflexivity|].
  cbn [append TrimSuffix_slash]. rewrite IH.
  destruct (r ++ s)%string eqn:E; [|reflexivity].
  destruct r; [|discriminate]. cbn in E. contradiction.
Qed.

Lemma TrimSuffix_slash_drop (s : string) :
  TrimSuffix_slash (s ++ String slash EmptyString) = s.
Proof.
  rewrite TrimSuffix_slash_app by discriminate.
  cbn. induction s as [|c r IH]; [reflexivity|].
  cbn [append]. rewrite IH. reflexivity.
Qed.

Lemma TrimSuffix_slash_cases (s : string) :
  s = TrimSuffix_slash s \/ s = (TrimSuffix_slash s ++ String slash EmptyString)%string.
Proof.
  induction s as [|c r IH]; [left; reflexivity|].
  cbn [TrimSuffix_slash]. destruct r as [|c' r'].
  - destruct (Ascii.eqb_spec c slash) as [->|_]; [right|left]; reflexivity.
  - destruct IH as [IH|IH]; [left|right]; cbn [append]; rewrite <- IH; reflexivity.
Qed.

Lemma Split_slash_fields (s : string) :
  Forall (fun field => noSlash field = true) (Split_slash s).
Proof.
  induction s as [|c r IH]; cbn [Split_slash].
  - constructor; [reflexivity|constructor].
  - destruct (Ascii.eqb c slash) eqn:Ec.
    + constructor; [reflexivity|exact IH].
    + destruct (Split_slash r) as [|field fields].
      * constructor; [cbn [noSlash]; rewrite Ec; reflexivity|constructor].
      * inversion IH; subst. constructor; [|assumption].
        cbn [noSlash]. rewrite Ec. assumption.
Qed.

Lemma Split_slash_concat (s : string) :
  String.concat (String slash EmptyString) (Split_slash s) = s.
Proof.
  induction s as [|c r IH]; [reflexivity|].
  cbn [Split_slash]. destruct (Ascii.eqb_spec c slash) as [->|_].
  - destruct (Split_slash r) as [|field fields] eqn:E.
    + destruct r; cbn in E; [discriminate|].
      destruct (Ascii.eqb a slash); [discriminate|].
      destruct (Split_slash r); discriminate.
    + change (String.concat (String slash EmptyString) (EmptyString :: field :: fields))
        with (String slash (String.concat (String slash EmptyString) (field :: fields))).
      rewrite IH. reflexivity.
  - destruct (Split_slash r) as [|field fields] eqn:E.
    + destruct r; cbn in E; [discriminate|].
      destruct (Ascii.eqb a slash); [discriminate|].
      destruct (Split_slash r); discriminate.
    + rewrite <- IH. destruct fields; reflexivity.
Qed.

Lemma append_associative (a b c : string) :
  ((a ++ b) ++ c = a ++ (b ++ c))%string.
Proof.
  induction a as [|x a IH]; [reflexivity|].
  cbn [append]. rewrite IH. reflexivity.
Qed.

(** A path of three fields reads [pre/namespace/name], with or without
    one more slash at its end. *)
Lemma three_fields_shape (uri pre namespace name : string) :
  Split_slash (TrimSuffix_slash uri) = [pre; namespace; name] ->
  noSlash pre = true /\ noSlash namespace = true /\ noSlash name = true /\
  (uri = (pre ++ "/" ++ namespace ++ "/" ++ name)%string \/
   uri = (pre ++ "/" ++ namespace ++ "/" ++ name ++ "/")%string).
Proof.
  intros E.
  pose proof (Split_slash_fields (TrimSuffix_slash uri)) as F.
  pose proof (Split_slash_concat (TrimSuffix_slash uri)) as C.
  rewrite E in F, C.
  inversion F as [|? ? F1 F']; subst. inversion F' as [|? ? F2 F'']; subst.
  inversion F'' as [|? ? F3 _]; subst.
  repeat split; try assumption.
  cbn [String.concat] in C.
  change (String slash EmptyString) with "/"%string in C.
  destruct (TrimSuffix_slash_cases uri) as [T|T]; [left|right]; rewrite T, <- C.
  - reflexivity.
  - repeat (rewrite append_associative || cbn [append]). reflexivity.
Qed.

Lemma three_fields_of_path (namespace name : string) :
  noSlash namespace = true -> noSlash name = true -> name <> EmptyString ->
  Split_slash (TrimSuffix_slash ("/" ++ namespace ++ "/" ++ name))
  = [EmptyString; namespace; name] /\
  Split_slash (TrimSuffix_slash ("/" ++ namespace ++ "/" ++ name ++ "/"))
  = [EmptyString; namespace; name].
Proof.
  intros Hns Hname Hne.
  assert (P : Split_slash ("/" ++ namespace ++ "/" ++ name)
              = [EmptyString; namespace; name]).
  { change ("/" ++ namespace ++ "/" ++ name)%string
      with (EmptyString ++ String slash (namespace ++ String slash name))%string.
    rewrite Split_slash_app by reflexivity.
    rewrite Split_slash_app by assumption.
    rewrite Split_slash_noSlash by assumption. reflexivity. }
  split.
  - replace ("/" ++ namespace ++ "/" ++ name)%string
      with (("/" ++ namespace ++ "/") ++ name)%string
      by (repeat (rewrite append_associative || cbn [append]); reflexivity).
    rewrite TrimSuffix_slash_app by assumption.
    rewrite TrimSuffix_slash_noSlash by assumption.
    repeat (rewrite append_associative || cbn [append]). exact P.
  - replace ("/" ++ namespace ++ "/" ++ name ++ "/")%string
      with (("/" ++ namespace ++ "/" ++ name) ++ String slash EmptyString)%string
      by (repeat (rewrite append_associative || cbn [append]); reflexivity).
    rewrite TrimSuffix_slash_drop. exact P.
Qed.

(** *** The steps of a request *)

Lemma getChannelAddress_trace {Event} (lib : Library Event) (h : Handler Event)
  (name namespace : string) (tr : trace) :
  traceOf (getChannelAddress lib h name namespace tr) = BrokerGet namespace name :: tr.
Proof.
  unfold getChannelAddress, getBroker.
  destruct (BrokerLister h tr namespace name) as [b|err]; [|reflexivity].
  destruct (Annotations b) as [annotations|]; [|reflexivity].
  destruct (annotations _) as [address|]; [|reflexivity].
  destruct (ParseURL lib address); [|reflexivity].
  destruct (Address b); reflexivity.
Qed.

Lemma guessChannelAddress_trace {Event} (h : Handler Event)
  (name namespace domain : string) (tr : trace) :
  traceOf (guessChannelAddress h name namespace domain tr)
  = BrokerGet namespace name :: tr.
Proof.
  unfold guessChannelAddress, getBroker.
  destruct (BrokerLister h tr namespace name) as [b|err]; [|reflexivity].
  destruct (Address b); reflexivity.
Qed.

(** [send] answers 500 without a dispatch when the request cannot be
    built or written; otherwise it dispatches once and hands on the time
    of the dispatch, with the status of the response or 500. *)
Lemma send_cases {Event} (lib : Library Event) (h : Handler Event)
  (headers : list (string * string)) (ev : Event) (target : Addressable) (tr : trace) :
  send lib h headers ev target tr = Done (StatusInternalServerError, noDuration) tr \/
  exists statusCode,
    send lib h headers ev target tr
    = Done (statusCode, snd (SendRequest lib tr ev target)) (Send target :: tr) /\
    (fst (SendRequest lib tr ev target) = inl statusCode \/
     statusCode = StatusInternalServerError /\
     exists err, fst (SendRequest lib tr ev target) = inr err).
Proof.
  unfold send.
  destruct (NewCloudEventRequest lib target); [left; reflexivity|].
  destruct (WriteRequest lib ev target headers); [left; reflexivity|].
  right. destruct (SendRequest lib tr ev target) as [[statusCode|err] dispatchTime].
  - exists statusCode. split; [reflexivity|left; reflexivity].
  - exists StatusInternalServerError. split; [reflexivity|].
    right. split; [reflexivity|]. exists err. reflexivity.
Qed.

(** The ways through [receive]. *)
Lemma receive_cases {Event} (lib : Library Event) (h : Handler Event)
  (headers : list (string * string)) (ev : Event) (namespace name : string)
  (tr : trace) :
  let ev' := stamped lib h ev tr in
  let get := BrokerGet namespace name in
  (spent lib ev' = true /\
   receive lib h headers ev namespace name tr = Done (StatusBadRequest, noDuration) tr)
  \/
  (spent lib ev' = false /\
   ((exists target,
       getChannelAddress lib h name namespace tr = Done (inl target) (get :: tr) /\
       receive lib h headers ev namespace name tr
       = send lib h headers ev' target (get :: tr))
    \/
    (getChannelAddress lib h name namespace tr = Panic (get :: tr) /\
     receive lib h headers ev namespace name tr = Panic (get :: tr))
    \/
    (exists err,
       getChannelAddress lib h name namespace tr = Done (inr err) (get :: tr) /\
       ((exists target,
           guessChannelAddress h name namespace (GetClusterDomainName lib) (get :: tr)
           = Done (inl target) (get :: get :: tr) /\
           receive lib h headers ev namespace name tr
           = send lib h headers ev' target (get :: get :: tr))
        \/
        ((forall target tr',
            guessChannelAddress h name namespace (GetClusterDomainName lib) (get :: tr)
            <> Done (inl target) tr') /\
         receive lib h headers ev namespace name tr = Panic (get :: get :: tr)))))).
Proof.
  cbv zeta. unfold receive, spent.
  fold (stamped lib h ev tr).
  destruct (GetTTL lib (stamped lib h ev tr)) as [ttl|e]; [|left; split; reflexivity].
  destruct (ttl <=? 0); [left; split; reflexivity|].
  right. split; [reflexivity|].
  pose proof (getChannelAddress_trace lib h name namespace tr) as T.
  destruct (getChannelAddress lib h name namespace tr) as [[target|err] tr1|tr1];
    cbn [traceOf] in T; subst tr1.
  - left. exists target. split; reflexivity.
  - right. right. exists err. split; [reflexivity|].
    pose proof (guessChannelAddress_trace h name namespace (GetClusterDomainName lib)
                  (BrokerGet namespace name :: tr)) as T.
    destruct (guessChannelAddress h name namespace (GetClusterDomainName lib)
                (BrokerGet namespace name :: tr)) as [[target|err2] tr2|tr2];
      cbn [traceOf] in T; subst tr2.
    + left. exists target. split; reflexivity.
    + right. split; [discriminate|reflexivity].
    + right. split; [discriminate|reflexivity].
  - right. left. split; reflexivity.
Qed.

(** The calls of [receive]: lookups of the one broker and at most one
    dispatch, and nothing written to the response. *)
Lemma receive_trace {Event} (lib : Library Event) (h : Handler Event)
  (headers : list (string * string)) (ev : Event) (namespace name : string)
  (tr : trace) :
  exists new,
    traceOf (receive lib h headers ev namespace name tr) = new ++ tr /\
    Forall (is_receive_event namespace name) new /\
    (forall statusCode dispatchTime tr',
       receive lib h headers ev namespace name tr = Done (statusCode, dispatchTime) tr' ->
       (dispatchTime >? noDuration) = true ->
       exists target, In (Send target) new).
Proof.
  assert (G : is_receive_event namespace name (BrokerGet namespace name))
    by (left; reflexivity).
  assert (S : forall target gets,
             Forall (is_receive_event namespace name) gets ->
             exists new,
               traceOf (send lib h headers (stamped lib h ev tr) target (gets ++ tr))
               = new ++ tr /\
               Forall (is_receive_event namespace name) new /\
               (forall statusCode dispatchTime tr',
                  send lib h headers (stamped lib h ev tr) target (gets ++ tr)
                  = Done (statusCode, dispatchTime) tr' ->
                  (dispatchTime >? noDuration) = true ->
                  exists target, In (Send target) new)).
  { intros target gets Hgets.
    destruct (send_cases lib h headers (stamped lib h ev tr) target (gets ++ tr))
      as [E|(c & E & _)]; rewrite E.
    - exists gets. repeat split; [assumption|].
      intros ? ? ? Q. inversion Q; subst. discriminate.
    - exists (Send target :: gets). repeat split.
      + constructor; [right; exists target; reflexivity|assumption].
      + intros. exists target. left. reflexivity. }
  destruct (receive_cases lib h headers ev namespace name tr)
    as [(_ & E)|(_ & [(target & _ & E)|[(_ & E)
       |(err & _ & [(target & _ & E)|(_ & E)])]])];
    rewrite E.
  - exists []. repeat split; [constructor|].
    intros ? ? ? Q. inversion Q; subst. discriminate.
  - apply (S target [BrokerGet namespace name]). repeat constructor; assumption.
  - exists [BrokerGet namespace name].
    repeat split; [repeat constructor; assumption|].
    intros ? ? ? Q. discriminate.
  - apply (S _ [BrokerGet namespace name; BrokerGet namespace name]).
    repeat constructor; assumption.
  - exists [BrokerGet namespace name; BrokerGet namespace name].
    repeat split; [repeat constructor; assumption|].
    intros ? ? ? Q. discriminate.
Qed.

Lemma three_fields_not_root (uri pre namespace name : string) :
  Split_slash (TrimSuffix_slash uri) = [pre; namespace; name] ->
  String.eqb uri "/" = false.
Proof.
  intros E. destruct (String.eqb_spec uri "/") as [->|]; [discriminate|reflexivity].
Qed.

(** A request is turned down with its method or path alone, or its
    event is extracted and, when valid, received for the broker the path
    names. *)
Lemma ServeHTTP_cases {Event} (lib : Library Event) (h : Handler Event)
  (request : Request) (tr : trace) :
  (Method request = MethodOptions /\
   ServeHTTP lib h request tr
   = Done tt (WriteHeader StatusOK
              :: SetHeader "WebHook-Allowed-Rate" "*"
              :: SetHeader "WebHook-Allowed-Origin" "*" :: allow :: tr))
  \/
  (exists statusCode,
     (statusCode = StatusMethodNotAllowed /\ Method request <> MethodPost \/
      statusCode = StatusNotFound /\ RequestURI request = "/"%string \/
      statusCode = StatusBadRequest) /\
     ServeHTTP lib h request tr = Done tt (WriteHeader statusCode :: allow :: tr))
  \/
  (exists pre namespace name ev,
     Method request = MethodPost /\
     Split_slash (TrimSuffix_slash (RequestURI request)) = [pre; namespace; name] /\
     ToEvent lib request = inl ev /\
     Validate lib ev = None /\
     ServeHTTP lib h request tr
     = reported {| ns := namespace; broker := name; eventType := EventType lib ev |}
                (receive lib h (Header request) ev namespace name (allow :: tr))).
Proof.
  unfold ServeHTTP. fold allow.
  destruct (String.eqb_spec (Method request) MethodOptions) as [Ho|_];
    [left; split; [assumption|reflexivity]|].
  right.
  destruct (String.eqb_spec (Method request) MethodPost) as [Hp|Hp]; cbn [negb].
  2:{ left. exists StatusMethodNotAllowed. split; [left; split; [reflexivity|assumption]|reflexivity]. }
  destruct (String.eqb_spec (RequestURI request) "/") as [Hu|_].
  { left. exists StatusNotFound. split; [right; left; split; [reflexivity|assumption]|reflexivity]. }
  destruct (Split_slash (TrimSuffix_slash (RequestURI request)))
    as [|pre [|namespace [|name [|]]]] eqn:ES; cbn [List.length Nat.eqb negb];
    try (left; exists StatusBadRequest; split; [right; right; reflexivity|reflexivity]).
  destruct (ToEvent lib request) as [ev|];
    [|left; exists StatusBadRequest; split; [right; right; reflexivity|reflexivity]].
  destruct (Validate lib ev) eqn:EV;
    [left; exists StatusBadRequest; split; [right; right; reflexivity|reflexivity]|].
  right. exists pre, namespace, name, ev.
  repeat split; assumption.
Qed.

(** What [receive] returns: 400 for a spent event, 500 when the request
    to the channel cannot be built, and otherwise the outcome of the one
    dispatch. *)
Lemma receive_status {Event} (lib : Library Event) (h : Handler Event)
  (headers : list (string * string)) (ev : Event) (namespace name : string)
  (tr tr' : trace) (statusCode dispatchTime : Z) :
  receive lib h headers ev namespace name tr = Done (statusCode, dispatchTime) tr' ->
  (statusCode = StatusBadRequest \/ statusCode = StatusInternalServerError) /\
  dispatchTime = noDuration
  \/
  exists target t,
    tr' = Send target :: t /\
    dispatchTime = snd (SendRequest lib t (stamped lib h ev tr) target) /\
    (fst (SendRequest lib t (stamped lib h ev tr) target) = inl statusCode \/
     statusCode = StatusInternalServerError).
Proof.
  assert (S : forall target t,
             send lib h headers (stamped lib h ev tr) target t
             = Done (statusCode, dispatchTime) tr' ->
             (statusCode = StatusBadRequest \/ statusCode = StatusInternalServerError) /\
             dispatchTime = noDuration
             \/
             exists target t,
               tr' = Send target :: t /\
               dispatchTime = snd (SendRequest lib t (stamped lib h ev tr) target) /\
               (fst (SendRequest lib t (stamped lib h ev tr) target) = inl statusCode \/
                statusCode = StatusInternalServerError)).
  { intros target t.
    destruct (send_cases lib h headers (stamped lib h ev tr) target t)
      as [E|(c & E & R)]; rewrite E; intros Q; inversion Q; subst.
    - left. split; [right|]; reflexivity.
    - right. exists target, t. repeat split.
      destruct R as [R|(R & _)]; [left|right]; assumption. }
  destruct (receive_cases lib h headers ev namespace name tr)
    as [(_ & E)|(_ & [(target & _ & E)|[(_ & E)
       |(err & _ & [(target & _ & E)|(_ & E)])]])];
    rewrite E.
  - intros Q. inversion Q; subst. left. split; [left|]; reflexivity.
  - apply S.
  - discriminate.
  - apply S.
  - discriminate.
Qed.

Lemma receive_events_write_nothing (namespace name : string) (new : list event) :
  Forall (is_receive_event namespace name) new -> statusWritten new = [].
Proof.
  unfold statusWritten. intros F.
  assert (E : flat_map (fun e => match e with
                                 | WriteHeader c => [c]
                                 | _ => []
                                 end) new = []).
  { induction F as [|e l He _ IH]; [reflexivity|].
    cbn [flat_map]. rewrite IH.
    destruct He as [->|(target & ->)]; reflexivity. }
  rewrite E. reflexivity.
Qed.

(** The calls of a received request, newest first: the reply (nothing
    when the handler panics), the calls of [receive], the Allow
    header. *)
Lemma reported_receive_trace {Event} (lib : Library Event) (h : Handler Event)
  (headers : list (string * string)) (ev : Event) (namespace name : string)
  (args : ReportArgs) (tr : trace) :
  exists top mid,
    traceOf (reported args (receive lib h headers ev namespace name (allow :: tr)))
    = top ++ mid ++ allow :: tr /\
    Forall (is_receive_event namespace name) mid /\
    ((top = [] /\
      exists tr', receive lib h headers ev namespace name (allow :: tr) = Panic tr')
     \/
     exists statusCode dispatchTime tr',
       receive lib h headers ev namespace name (allow :: tr)
       = Done (statusCode, dispatchTime) tr' /\
       (top = [WriteHeader statusCode; ReportEventCount args statusCode] /\
        (dispatchTime >? noDuration) = false
        \/
        top = [WriteHeader statusCode; ReportEventCount args statusCode;
               ReportEventDispatchTime args statusCode dispatchTime] /\
        (dispatchTime >? noDuration) = true /\
        exists target, In (Send target) mid)).
Proof.
  destruct (receive_trace lib h headers ev namespace name (allow :: tr))
    as (mid & T & F & D).
  destruct (receive lib h headers ev namespace name (allow :: tr))
    as [[c d] tr'|tr'] eqn:E; cbn [traceOf reported] in *; subst tr'.
  - destruct (d >? noDuration) eqn:Ed.
    + exists [WriteHeader c; ReportEventCount args c; ReportEventDispatchTime args c d], mid.
      repeat split; [assumption|]. right. exists c, d, (mid ++ allow :: tr).
      split; [reflexivity|]. right.
      split; [reflexivity|]. split; [exact Ed|exact (D c d _ eq_refl Ed)].
    + exists [WriteHeader c; ReportEventCount args c], mid.
      repeat split; [assumption|]. right. exists c, d, (mid ++ allow :: tr).
      split; [reflexivity|]. left. split; [reflexivity|exact Ed].
  - exists [], mid. repeat split; [assumption|]. left. split; [reflexivity|].
    eexists. reflexivity.
Qed.

Lemma statusWritten_app (a b : trace) :
  statusWritten (a ++ b) = (statusWritten b ++ statusWritten a)%list.
Proof.
  unfold statusWritten. rewrite flat_map_app, rev_app_distr. reflexivity.
Qed.

(** A POST whose path has three fields and whose event is extracted and
    valid is received for the broker the second and third field name. *)
Lemma ServeHTTP_received {Event} (lib : Library Event) (h : Handler Event)
  (request : Request) (tr : trace) (pre namespace name : string) (ev : Event) :
  Method request = MethodPost ->
  Split_slash (TrimSuffix_slash (RequestURI request)) = [pre; namespace; name] ->
  ToEvent lib request = inl ev ->
  Validate lib ev = None ->
  ServeHTTP lib h request tr
  = reported {| ns := namespace; broker := name; eventType := EventType lib ev |}
             (receive lib h (Header request) ev namespace name (allow :: tr)).
Proof.
  intros HM HS HE HV. unfold ServeHTTP.
  rewrite HM, (three_fields_not_root _ _ _ _ HS), HS, HE, HV. reflexivity.
Qed.

(** X18 ([ServeHTTP], lines 146-156 and 178-204).  A POST to
    [/namespace/name], with or without a slash at its end, whose event
    is extracted and valid, is received for the broker [name] of
    [namespace], and the reports carry these two names: here [namespace]
    and [name] are any strings without a slash, [name] not empty. *)
Theorem ServeHTTP_routes_by_path {Event} (lib : Library Event) (h : Handler Event)
  (request : Request) (tr : trace) (namespace name : string) (ev : Event) :
  Method request = MethodPost ->
  noSlash namespace = true -> noSlash name = true -> name <> EmptyString ->
  RequestURI request = ("/" ++ namespace ++ "/" ++ name)%string \/
  RequestURI request = ("/" ++ namespace ++ "/" ++ name ++ "/")%string ->
  ToEvent lib request = inl ev ->
  Validate lib ev = None ->
  ServeHTTP lib h request tr
  = reported {| ns := namespace; broker := name; eventType := EventType lib ev |}
             (receive lib h (Header request) ev namespace name (allow :: tr)).
Proof.
  intros HM Hns Hname Hne HU HE HV.
  destruct (three_fields_of_path namespace name Hns Hname Hne) as [P1 P2].
  apply (ServeHTTP_received lib h request tr EmptyString); try assumption.
  destruct HU as [->| ->]; assumption.
Qed.

Lemma ServeHTTP_routes_by_path_witness :
  ServeHTTP exampleLibrary bareBrokers (post "/default/broker/") []
  = reported {| ns := "default"; broker := "broker";
                eventType := "dev.knative.example" |}
             (receive exampleLibrary bareBrokers [] 5 "default" "broker" [allow]).
Proof.
  apply (ServeHTTP_routes_by_path exampleLibrary bareBrokers (post "/default/broker/")
           [] "default" "broker" 5).
  - reflexivity.
  - reflexivity.
  - reflexivity.
  - discriminate.
  - right. reflexivity.
  - reflexivity.
  - reflexivity.
Defined.

(** X19 ([ServeHTTP], lines 146-156, 178-179, and [getBroker]).  Every
    broker the handler looks up while it serves a request is named by
    the path of that request: the request is a POST and its path reads
    [pre/namespace/name], with or without one slash at its end, where
    none of the three fields holds a slash.  The first field is not
    looked at: it need not be empty. *)
Theorem ServeHTTP_looks_up_path_fields {Event} (lib : Library Event)
  (h : Handler Event) (request : Request) (tr new : trace) (namespace name : string) :
  traceOf (ServeHTTP lib h request tr) = (new ++ tr)%list ->
  In (BrokerGet namespace name) new ->
  Method request = MethodPost /\
  exists pre,
    noSlash pre = true /\ noSlash namespace = true /\ noSlash name = true /\
    (RequestURI request = (pre ++ "/" ++ namespace ++ "/" ++ name)%string \/
     RequestURI request = (pre ++ "/" ++ namespace ++ "/" ++ name ++ "/")%string).
Proof.
  intros T I.
  destruct (ServeHTTP_cases lib h request tr)
    as [(_ & E)|[(c & _ & E)|(pre & ns' & name' & ev & HM & HS & _ & _ & E)]];
    rewrite E in T.
  - exfalso. cbn [traceOf] in T.
    change (([WriteHeader StatusOK; SetHeader "WebHook-Allowed-Rate" "*";
              SetHeader "WebHook-Allowed-Origin" "*"; allow] ++ tr)%list
            = (new ++ tr)%list) in T.
    apply app_inv_tail in T. subst new.
    repeat (destruct I as [I|I]; [discriminate|]). contradiction.
  - exfalso. cbn [traceOf] in T.
    change (([WriteHeader c; allow] ++ tr)%list = (new ++ tr)%list) in T.
    apply app_inv_tail in T. subst new.
    repeat (destruct I as [I|I]; [discriminate|]). contradiction.
  - destruct (reported_receive_trace lib h (Header request) ev ns' name'
                {| ns := ns'; broker := name'; eventType := EventType lib ev |} tr)
      as (top & mid & T' & F & R).
    rewrite T' in T.
    change (top ++ mid ++ allow :: tr)%list
      with (top ++ mid ++ [allow] ++ tr)%list in T.
    rewrite !app_assoc in T. apply app_inv_tail in T. subst new.
    assert (IM : In (BrokerGet namespace name) mid).
    { apply in_app_or in I as [I|[I|[]]]; [|discriminate].
      apply in_app_or in I as [I|I]; [|assumption].
      exfalso.
      destruct R as [(-> & _)|(c & d & tr' & _ & [(-> & _)|(-> & _)])];
        repeat (destruct I as [I|I]; [discriminate|]); contradiction. }
    rewrite Forall_forall in F. destruct (F _ IM) as [Q|(target & Q)]; [|discriminate].
    injection Q as -> ->.
    split; [assumption|]. exists pre. apply three_fields_shape. assumption.
Qed.

Lemma ServeHTTP_looks_up_path_fields_witness :
  Method (post "v1/default/broker/") = MethodPost /\
  exists pre,
    noSlash pre = true /\ noSlash "default" = true /\ noSlash "broker" = true /\
    (RequestURI (post "v1/default/broker/") = (pre ++ "/" ++ "default" ++ "/" ++ "broker")%string \/
     RequestURI (post "v1/default/broker/")
     = (pre ++ "/" ++ "default" ++ "/" ++ "broker" ++ "/")%string).
Proof.
  apply (ServeHTTP_looks_up_path_fields exampleLibrary noBrokers
           (post "v1/default/broker/") []
           [BrokerGet "default" "broker"; BrokerGet "default" "broker"; allow]).
  - reflexivity.
  - left. reflexivity.
Defined.

(** X20 ([ServeHTTP], lines 131-211).  Whatever the request, the Allow
    header is the first call of the handler; when the handler returns it
    has written the status of the response once, as its last call; when
    it panics it has written none. *)
Theorem ServeHTTP_answers_once {Event} (lib : Library Event) (h : Handler Event)
  (request : Request) (tr : trace) :
  match ServeHTTP lib h request tr with
  | Done _ tr' =>
      exists statusCode new,
        tr' = WriteHeader statusCode :: (new ++ allow :: tr)%list /\
        statusWritten new = []
  | Panic tr' =>
      exists new, tr' = (new ++ allow :: tr)%list /\ statusWritten new = []
  end.
Proof.
  destruct (ServeHTTP_cases lib h request tr)
    as [(_ & E)|[(c & _ & E)|(pre & ns' & name' & ev & _ & _ & _ & _ & E)]];
    rewrite E.
  - exists StatusOK, [SetHeader "WebHook-Allowed-Rate" "*";
                      SetHeader "WebHook-Allowed-Origin" "*"].
    split; reflexivity.
  - exists c, []. split; reflexivity.
  - destruct (reported_receive_trace lib h (Header request) ev ns' name'
                {| ns := ns'; broker := name'; eventType := EventType lib ev |} tr)
      as (top & mid & T & F & R).
    pose proof (receive_events_write_nothing _ _ _ F) as W.
    set (args := {| ns := ns'; broker := name'; eventType := EventType lib ev |}) in *.
    destruct (reported args (receive lib h (Header request) ev ns' name' (allow :: tr)))
      as [[] tr''|tr''] eqn:ERR; cbn [traceOf] in T; subst tr''.
    + destruct R as [(-> & tr' & ER)|(c & d & tr' & ER & [(-> & _)|(-> & _)])].
      * rewrite ER in ERR. discriminate.
      * exists c, (ReportEventCount args c :: mid). split; [reflexivity|].
        change (statusWritten ([ReportEventCount args c] ++ mid) = []).
        rewrite statusWritten_app, W. reflexivity.
      * exists c, (ReportEventCount args c :: ReportEventDispatchTime args c d :: mid).
        split; [reflexivity|].
        change (statusWritten ([ReportEventCount args c;
                                ReportEventDispatchTime args c d] ++ mid) = []).
        rewrite statusWritten_app, W. reflexivity.
    + destruct R as [(-> & _)|(c & d & tr' & ER & _)].
      * exists mid. split; [reflexivity|assumption].
      * rewrite ER in ERR. discriminate.
Qed.

(** X21 ([receive], lines 216-225, and [ServeHTTP], lines 204-210).  An
    event whose TTL is missing or used up once it is stamped and
    defaulted is dropped: the response is 400, the count is reported
    with 400, and the handler looks up no broker, dispatches nothing and
    reports no dispatch time.  The TTL is read after the defaulter, so
    the defaulter decides. *)
Theorem ServeHTTP_drops_spent_event {Event} (lib : Library Event) (h : Handler Event)
  (request : Request) (tr : trace) (pre namespace name : string) (ev : Event) :
  Method request = MethodPost ->
  Split_slash (TrimSuffix_slash (RequestURI request)) = [pre; namespace; name] ->
  ToEvent lib request = inl ev ->
  Validate lib ev = None ->
  spent lib (stamped lib h ev (allow :: tr)) = true ->
  ServeHTTP lib h request tr
  = Done tt ([WriteHeader StatusBadRequest;
              ReportEventCount {| ns := namespace; broker := name;
                                  eventType := EventType lib ev |} StatusBadRequest;
              allow] ++ tr).
Proof.
  intros HM HS HE HV HT.
  rewrite (ServeHTTP_received lib h request tr pre namespace name ev HM HS HE HV).
  destruct (receive_cases lib h (Header request) ev namespace name (allow :: tr))
    as [(_ & E)|(HF & _)].
  - rewrite E. reflexivity.
  - rewrite HT in HF. discriminate.
Qed.

Lemma ServeHTTP_drops_spent_event_witness :
  ServeHTTP exampleLibrary expiring (post "/default/broker") []
  = Done tt [WriteHeader StatusBadRequest;
             ReportEventCount {| ns := "default"; broker := "broker";
                                 eventType := "dev.knative.example" |} StatusBadRequest;
             allow].
Proof.
  apply (ServeHTTP_drops_spent_event exampleLibrary expiring (post "/default/broker")
           [] "" "default" "broker" 5); reflexivity.
Defined.

(** X22 ([receive], lines 227-236, with [getChannelAddress],
    [guessChannelAddress] and [getBroker]).  When the lister fails at
    both lookups of the broker of a live event, [receive] dereferences
    the nil address: the handler panics after the two lookups, having
    written no status and reported nothing. *)
Theorem ServeHTTP_missing_broker_panics {Event} (lib : Library Event)
  (h : Handler Event) (request : Request) (tr : trace) (pre namespace name : string)
  (ev : Event) (err1 err2 : error) :
  Method request = MethodPost ->
  Split_slash (TrimSuffix_slash (RequestURI request)) = [pre; namespace; name] ->
  ToEvent lib request = inl ev ->
  Validate lib ev = None ->
  spent lib (stamped lib h ev (allow :: tr)) = false ->
  BrokerLister h (allow :: tr) namespace name = inr err1 ->
  BrokerLister h (BrokerGet namespace name :: allow :: tr) namespace name = inr err2 ->
  ServeHTTP lib h request tr
  = Panic ([BrokerGet namespace name; BrokerGet namespace name; allow] ++ tr).
Proof.
  intros HM HS HE HV HT H1 H2.
  rewrite (ServeHTTP_received lib h request tr pre namespace name ev HM HS HE HV).
  destruct (receive_cases lib h (Header request) ev namespace name (allow :: tr))
    as [(HF & _)|(_ & [(target & G & _)|[(G & _)
       |(err & _ & [(target & G & _)|(_ & E)])]])].
  - rewrite HT in HF. discriminate.
  - exfalso. revert G. unfold getChannelAddress, getBroker. rewrite H1. discriminate.
  - exfalso. revert G. unfold getChannelAddress, getBroker. rewrite H1. discriminate.
  - exfalso. revert G. unfold guessChannelAddress, getBroker. rewrite H2. discriminate.
  - rewrite E. reflexivity.
Qed.

Lemma ServeHTTP_missing_broker_panics_witness :
  ServeHTTP exampleLibrary noBrokers (post "/default/broker") []
  = Panic [BrokerGet "default" "broker"; BrokerGet "default" "broker"; allow].
Proof.
  apply (ServeHTTP_missing_broker_panics exampleLibrary noBrokers
           (post "/default/broker") [] "" "default" "broker" 5
           "broker not found"%string "broker not found"%string); reflexivity.
Defined.

(** X23 ([receive], lines 227-236, [getChannelAddress],
    [guessChannelAddress]).  When [getChannelAddress] returns an error
    for a live event and the second lookup returns the broker with its
    address, the event is sent to the guessed address
    [http://name-kne-trigger-kn-channel.namespace.svc.domain/] with the
    CA certificates of the broker as the second lookup returned it. *)
Theorem receive_falls_back_on_guess {Event} (lib : Library Event) (h : Handler Event)
  (headers : list (string * string)) (ev : Event) (namespace name : string)
  (tr tr1 : trace) (err : error) (b : Broker) (address : Addressable) :
  spent lib (stamped lib h ev tr) = false ->
  getChannelAddress lib h name namespace tr = Done (inr err) tr1 ->
  BrokerLister h (BrokerGet namespace name :: tr) namespace name = inl b ->
  Address b = Some address ->
  receive lib h headers ev namespace name tr
  = send lib h headers (stamped lib h ev tr)
         {| AddrURL := {| Scheme := "http";
                          Host := name ++ "-kne-trigger-kn-channel." ++ namespace
                                  ++ ".svc." ++ GetClusterDomainName lib;
                          Path := "/" |};
            AddrCACerts := AddrCACerts address |}
         (BrokerGet namespace name :: BrokerGet namespace name :: tr).
Proof.
  intros HT HG HB HA.
  destruct (receive_cases lib h headers ev namespace name tr)
    as [(HF & _)|(_ & [(target & G & _)|[(G & _)
       |(err' & _ & [(target & G & E)|(G & _)])]])].
  - rewrite HT in HF. discriminate.
  - rewrite HG in G. discriminate.
  - rewrite HG in G. discriminate.
  - rewrite E. revert G. unfold guessChannelAddress, getBroker. rewrite HB, HA.
    intros G. injection G as <-. reflexivity.
  - exfalso. revert G. unfold guessChannelAddress, getBroker. rewrite HB, HA.
    intros G. eapply G. reflexivity.
Qed.

Lemma receive_falls_back_on_guess_witness :
  receive exampleLibrary bareBrokers [] 5 "default" "broker" []
  = Done (202, 7)
         [Send {| AddrURL := {| Scheme := "http";
                                Host := "broker-kne-trigger-kn-channel.default.svc.cluster.local";
                                Path := "/" |};
                  AddrCACerts := None |};
          BrokerGet "default" "broker"; BrokerGet "default" "broker"].
Proof.
  rewrite (receive_falls_back_on_guess exampleLibrary bareBrokers [] 5 "default" "broker"
             [] [BrokerGet "default" "broker"]
             "broker status annotations uninitialized"%string bareBroker
             {| AddrURL := {| Scheme := "http";
                              Host := "broker-ingress.knative-eventing.svc.cluster.local";
                              Path := "/default/broker" |};
                AddrCACerts := None |}); reflexivity.
Defined.

(** X24 ([ServeHTTP], lines 204-210, [receive], [send]).  A dispatch
    time is reported only for a request that was dispatched: whenever
    the handler reports a dispatch time, that time is above
    [noDuration], the handler has sent the event before, and the count
    and the response carry the status of the report. *)
Theorem dispatch_time_reported_only_after_send {Event} (lib : Library Event)
  (h : Handler Event) (request : Request) (tr new : trace) (args : ReportArgs)
  (statusCode dispatchTime : Z) :
  traceOf (ServeHTTP lib h request tr) = (new ++ tr)%list ->
  In (ReportEventDispatchTime args statusCode dispatchTime) new ->
  noDuration < dispatchTime /\
  (exists target, In (Send target) new) /\
  In (ReportEventCount args statusCode) new /\
  In (WriteHeader statusCode) new.
Proof.
  intros T I.
  destruct (ServeHTTP_cases lib h request tr)
    as [(_ & E)|[(c & _ & E)|(pre & ns' & name' & ev & HM & HS & _ & _ & E)]];
    rewrite E in T.
  - exfalso. cbn [traceOf] in T.
    change (([WriteHeader StatusOK; SetHeader "WebHook-Allowed-Rate" "*";
              SetHeader "WebHook-Allowed-Origin" "*"; allow] ++ tr)%list
            = (new ++ tr)%list) in T.
    apply app_inv_tail in T. subst new.
    repeat (destruct I as [I|I]; [discriminate|]). contradiction.
  - exfalso. cbn [traceOf] in T.
    change (([WriteHeader c; allow] ++ tr)%list = (new ++ tr)%list) in T.
    apply app_inv_tail in T. subst new.
    repeat (destruct I as [I|I]; [discriminate|]). contradiction.
  - destruct (reported_receive_trace lib h (Header request) ev ns' name'
                {| ns := ns'; broker := name'; eventType := EventType lib ev |} tr)
      as (top & mid & T' & F & R).
    rewrite T' in T.
    change (top ++ mid ++ allow :: tr)%list
      with (top ++ mid ++ [allow] ++ tr)%list in T.
    rewrite !app_assoc in T. apply app_inv_tail in T. subst new.
    apply in_app_or in I as [I|[I|[]]]; [|discriminate].
    apply in_app_or in I as [I|I].
    + destruct R as [(-> & _)|(c & d & tr' & _ & [(-> & _)|(-> & Hd & target & S)])].
      * contradiction.
      * repeat (destruct I as [I|I]; [discriminate|]). contradiction.
      * destruct I as [I|[I|[I|[]]]]; try discriminate.
        injection I as <- <- <-.
        split; [apply Z.gtb_lt in Hd; lia|].
        split; [exists target; apply in_or_app; left; apply in_or_app; right; exact S|].
        split; apply in_or_app; left; apply in_or_app; left;
          [right; left|left]; reflexivity.
    + exfalso. rewrite Forall_forall in F.
      destruct (F _ I) as [Q|(target & Q)]; discriminate.
Qed.

Lemma dispatch_time_reported_only_after_send_witness :
  let args := {| ns := "default"; broker := "broker";
                 eventType := "dev.knative.example" |} in
  let target := guessed "broker" "default" "cluster.local" None in
  let new := [WriteHeader 202; ReportEventCount args 202;
              ReportEventDispatchTime args 202 7; Send target;
              BrokerGet "default" "broker"; BrokerGet "default" "broker"; allow] in
  noDuration < 7 /\
  (exists target, In (Send target) new) /\
  In (ReportEventCount args 202) new /\
  In (WriteHeader 202) new.
Proof.
  intros args target new.
  apply (dispatch_time_reported_only_after_send exampleLibrary bareBrokers
           (post "/default/broker") [] new args 202 7).
  - reflexivity.
  - right. right. left. reflexivity.
Defined.

(** X25 ([ServeHTTP], [receive], [send], lines 239-267).  The handler
    makes up no status but 200, 400, 404, 405 and 500: a response with
    any other status relays the status of the response to the dispatch
    of the stamped and defaulted event of the request. *)
Theorem ServeHTTP_relays_status {Event} (lib : Library Event) (h : Handler Event)
  (request : Request) (tr rest : trace) (statusCode : Z) :
  ServeHTTP lib h request tr = Done tt (WriteHeader statusCode :: rest) ->
  ~ In statusCode [StatusOK; StatusBadRequest; StatusNotFound;
                   StatusMethodNotAllowed; StatusInternalServerError] ->
  exists ev target t,
    ToEvent lib request = inl ev /\
    In (Send target) rest /\
    fst (SendRequest lib t (stamped lib h ev (allow :: tr)) target) = inl statusCode.
Proof.
  intros E N.
  destruct (ServeHTTP_cases lib h request tr)
    as [(_ & E')|[(c & C & E')|(pre & ns' & name' & ev & _ & _ & HE & _ & E')]];
    rewrite E' in E.
  - exfalso. injection E as <- _. apply N. left. reflexivity.
  - exfalso. injection E as <- _. apply N.
    destruct C as [(-> & _)|[(-> & _)| ->]];
      [do 3 right|do 2 right|right]; left; reflexivity.
  - destruct (receive lib h (Header request) ev ns' name' (allow :: tr))
      as [[c d] tr'|tr'] eqn:ER; [|discriminate].
    cbn [reported] in E. injection E as <- <-.
    exists ev.
    destruct (receive_status lib h _ _ _ _ _ _ _ _ ER)
      as [([-> | ->] & _)|(target & t & -> & -> & [S| ->])].
    + exfalso. apply N. right. left. reflexivity.
    + exfalso. apply N. do 4 right. left. reflexivity.
    + exists target, t. split; [assumption|]. split; [|assumption].
      right. destruct (_ >? _); [right|]; left; reflexivity.
    + exfalso. apply N. do 4 right. left. reflexivity.
Qed.

Lemma ServeHTTP_relays_status_witness :
  exists ev target t,
    ToEvent exampleLibrary (post "/default/broker") = inl ev /\
    In (Send target)
       [ReportEventCount {| ns := "default"; broker := "broker";
                            eventType := "dev.knative.example" |} 202;
        ReportEventDispatchTime {| ns := "default"; broker := "broker";
                                   eventType := "dev.knative.example" |} 202 7;
        Send (guessed "broker" "default" "cluster.local" None);
        BrokerGet "default" "broker"; BrokerGet "default" "broker"; allow] /\
    fst (SendRequest exampleLibrary t
           (stamped exampleLibrary bareBrokers ev [allow]) target) = inl 202.
Proof.
  apply (ServeHTTP_relays_status exampleLibrary bareBrokers (post "/default/broker")
           [] _ 202).
  - reflexivity.
  - cbn. intros [Q|[Q|[Q|[Q|[Q|[]]]]]]; discriminate.
Defined.
